(** * gomuks: pagination, room list, initial data and auth token

    A shallow embedding of
    - [pkg/hicli/paginate.go]   ([PaginateServer]),
    - [web/src/api/statestore]  ([StateStore.applySync]),
    - [websocket.go]            ([sendInitialData]),
    - [server.go]               ([validateAuth], [generateToken]),
    and of the code around them ([Paginate], [applyDecrypted], the login
    handler and the auth middleware, [processGetRoomState] and
    [GetRoomState]), followed by the properties proved about them.

    Go [int], row identifiers and timestamps are modelled as [Z] (or [nat]
    for slice indices, which the code keeps within [0, len)); Go strings
    and byte slices as [string]; Go maps and JS [Map]s as [gmap], or as
    association lists where the code relies on the order of iteration;
    slices of pointers as lists of options ([None] is the nil pointer). *)

From Stdlib Require Import ZArith String Ascii Lia.
From stdpp Require Import base option list gmap strings sorting pretty.

Local Open Scope Z_scope.

(** ** Part I: [pkg/hicli/paginate.go] *)

Module Hicli.

Abbreviation RoomID := string.
Abbreviation SessionID := string.
Abbreviation EventRowID := Z.
Abbreviation TimelineRowID := Z.

(** Go [error] values.  [ErrWrap msg e] is [fmt.Errorf(msg + ": %w", e)];
    [ErrOther] is an error produced by a collaborator (storage, network,
    context). *)
Inductive error : Type :=
| ErrPaginationAlreadyInProgress
| ErrOther (tag : string)
| ErrWrap (msg : string) (cause : error).

(** A call that returns [(value, error)] with exactly one of them set. *)
Inductive result (A : Type) : Type :=
| Ok (a : A)
| Err (e : error).
Arguments Ok {A} a.
Arguments Err {A} e.

(** [database.Event]: the fields [PaginateServer] and its callees touch. *)
Record Event : Type := mkEvent {
  RowID : EventRowID;
  ID : string;
  TimelineRowID_of : TimelineRowID;
  LastEditRowID : option EventRowID;
  Reactions : list (string * Z)
}.

Definition set_TimelineRowID (t : TimelineRowID) (e : Event) : Event :=
  mkEvent (RowID e) (ID e) t (LastEditRowID e) (Reactions e).
Definition set_Reactions (r : list (string * Z)) (e : Event) : Event :=
  mkEvent (RowID e) (ID e) (TimelineRowID_of e) (LastEditRowID e) r.
Definition set_LastEditRowID (r : option EventRowID) (e : Event) : Event :=
  mkEvent (RowID e) (ID e) (TimelineRowID_of e) r (Reactions e).

(** [database.TimelineRowTuple] *)
Record TimelineRowTuple : Type := mkTuple {
  Timeline : TimelineRowID;
  EventRow : EventRowID
}.

(** [database.SessionRequest] (only its key matters here). *)
Record SessionRequest : Type := mkSessionRequest {
  SessionID_of : SessionID;
  MinIndex : Z
}.

(** [PaginationResponse] *)
Record PaginationResponse : Type := mkResp {
  Events : list (option Event);
  HasMore : bool
}.

(** Observable calls of one [PaginateServer] run, oldest first:
    the network request, the two [SetPrevBatch] calls (with whether they
    run inside the [DoTxn] closure), the timeline prepend with the row IDs
    it is handed, the saved session requests and the wakeup. *)
Inductive effect : Type :=
| EMessages (room : RoomID) (from : string) (limit : Z)
| ESetPrevBatch (inTxn : bool) (room : RoomID) (token : string)
| ESessionRequestPut (session : SessionID)
| EPrepend (room : RoomID) (rows : list EventRowID)
| EWakeupRequestQueue.

(** The collaborators of [PaginateServer] that are not part of
    [paginate.go]: the storage engine ([h.DB]), the protocol client
    ([h.Client]), the event processor ([h.processEvent]) and the context.
    Every operation may fail; operations that write return the new
    database.  The two [Fill...] calls write one field of every event of
    the slice in place (the reaction aggregate, the last-edit reference):
    they are given the rows and answer with the value for each row. *)
Class Env : Type := {
  DB : Type;
  RawEvent : Type;                 (* *event.Event *)
  LazyLoadSummary : Type;
  Cancel : Type;                   (* context.CancelCauseFunc *)
  (* database.PrevBatchPaginationComplete *)
  PrevBatchPaginationComplete : string;
  (* database.Room: ID, PrevBatch, LazyLoadSummary are what is read *)
  Room_Get : DB -> RoomID -> result (option (RoomID * string * LazyLoadSummary));
  Client_Messages : RoomID -> string -> Z -> result (list RawEvent * string);
  processEvent : DB -> RawEvent -> LazyLoadSummary -> gmap SessionID SessionRequest ->
                 result (Event * gmap SessionID SessionRequest * DB);
  Timeline_Has : DB -> RoomID -> EventRowID -> result bool;
  SessionRequest_Put : DB -> SessionRequest -> result DB;
  Event_FillReactionCounts : DB -> RoomID -> list EventRowID ->
                             result (EventRowID -> list (string * Z));
  Event_FillLastEditRowIDs : DB -> RoomID -> list EventRowID ->
                             result (EventRowID -> option EventRowID);
  Room_SetPrevBatch : DB -> RoomID -> string -> result DB;
  Timeline_Prepend : DB -> RoomID -> list EventRowID -> result (list TimelineRowTuple * DB);
  (* ctx.Err() as seen at the start of the transaction closure *)
  ctx_Err : option error;
  (* DoTxn: failure to begin, failure to commit *)
  Txn_Begin : DB -> option error;
  Txn_Commit : DB -> option error
}.

(** How a Go function body ends: it returns, or it panics. *)
Inductive completion (A : Type) : Type :=
| Returned (a : A)
| Panicked (msg : string).
Arguments Returned {A} a.
Arguments Panicked {A} msg.

(** How the transaction closure ends: it returns nil, returns an error,
    or panics. *)
Inductive exit (A : Type) : Type :=
| Done (a : A)
| Fail (e : error)
| Crash (msg : string).
Arguments Done {A} a.
Arguments Fail {A} e.
Arguments Crash {A} msg.

Section Paginate.
Context `{E : Env}.

(** The process state [PaginateServer] reads and writes: the
    [paginationInterrupter] map (guarded by [paginationInterrupterLock]),
    the database, and the log of observable calls. *)
Record World : Type := mkWorld {
  paginationInterrupter : gmap RoomID Cancel;
  db : DB;
  log : list effect
}.

(** *** The transaction closure

    The closure passed to [DoTxn] assigns the captured variables [events]
    and [wakeupSessionRequests] of the enclosing function; they keep their
    value when the closure fails.  [TxnVars] holds them together with the
    database as seen inside the transaction and the call log. *)
Record TxnVars : Type := mkVars {
  t_db : DB;
  t_log : list effect;
  t_events : list (option Event);
  t_wakeup : bool
}.

Definition M (A : Type) : Type := TxnVars -> exit A * TxnVars.

#[global] Instance M_ret : MRet M := fun A a v => (Done a, v).
#[global] Instance M_bind : MBind M := fun A B k m v =>
  match m v with
  | (Done a, v') => k a v'
  | (Fail e, v') => (Fail e, v')
  | (Crash s, v') => (Crash s, v')
  end.
Definition fail {A} (e : error) : M A := fun v => (Fail e, v).
Definition crash {A} (s : string) : M A := fun v => (Crash s, v).
Definition get_db : M DB := fun v => (Done (t_db v), v).
Definition put_db (d : DB) : M unit :=
  fun v => (Done tt, mkVars d (t_log v) (t_events v) (t_wakeup v)).
Definition emit (e : effect) : M unit :=
  fun v => (Done tt, mkVars (t_db v) (t_log v ++ [e]) (t_events v) (t_wakeup v)).
Definition get_events : M (list (option Event)) := fun v => (Done (t_events v), v).
Definition put_events (es : list (option Event)) : M unit :=
  fun v => (Done tt, mkVars (t_db v) (t_log v) es (t_wakeup v)).
Definition put_wakeup (b : bool) : M unit :=
  fun v => (Done tt, mkVars (t_db v) (t_log v) (t_events v) b).
(** [x, err := f(...); if err != nil { return wrap(err) }] *)
Definition try {A} (wrap : error -> error) (r : result A) : M A :=
  match r with Ok a => mret a | Err e => fail (wrap e) end.

(** [s[i] = x] on a slice: a run-time panic when [i] is out of range. *)
Definition slice_set {A} (s : list A) (i : nat) (x : A) : M (list A) :=
  if decide (i < length s)%nat then mret (<[i:=x]> s)
  else crash "index out of range".

(** Local variables of the [for i, evt := range resp.Chunk] loop. *)
Record LoopVars : Type := mkLoop {
  eventRowIDs : list EventRowID;
  decryptionQueue : gmap SessionID SessionRequest;
  iOffset : nat
}.

(** One iteration of the loop at index [i]. *)
Definition loop_body (roomID : RoomID) (summary : LazyLoadSummary)
    (i : nat) (evt : RawEvent) (l : LoopVars) : M LoopVars :=
  d ← get_db;
  r ← try id (processEvent d evt summary (decryptionQueue l));
  let '(dbEvt, queue', d') := r in
  put_db d';;
  exists_ ← try (ErrWrap "failed to check if event exists in timeline")
                 (Timeline_Has d' roomID (RowID dbEvt));
  if (exists_ : bool) then
    (* iOffset++; continue *)
    mret (mkLoop (eventRowIDs l) queue' (S (iOffset l)))
  else
    events ← get_events;
    events' ← slice_set events (i - iOffset l) (Some dbEvt);
    put_events events';;
    match events' !! (i - iOffset l)%nat with
    | Some (Some e) =>
        rows' ← slice_set (eventRowIDs l) (i - iOffset l) (RowID e);
        mret (mkLoop rows' queue' (iOffset l))
    | _ => crash "nil pointer dereference"
    end.

Fixpoint loop (roomID : RoomID) (summary : LazyLoadSummary)
    (i : nat) (chunk : list RawEvent) (l : LoopVars) : M LoopVars :=
  match chunk with
  | [] => mret l
  | evt :: rest =>
      l' ← loop_body roomID summary i evt l;
      loop roomID summary (S i) rest l'
  end.

(** [for _, entry := range decryptionQueue { Put }].  Go iterates a map
    in an unspecified order; the model takes the order of [map_to_list]. *)
Fixpoint put_all (entries : list (SessionID * SessionRequest)) : M unit :=
  match entries with
  | [] => mret tt
  | (sid, entry) :: rest =>
      d ← get_db;
      d' ← try (ErrWrap ("failed to save session request for " ++ sid))
                (SessionRequest_Put d entry);
      put_db d';;
      emit (ESessionRequestPut sid);;
      put_all rest
  end.

(** [for i, evt := range events { evt.TimelineRowID = tuples[i].Timeline }] *)
Fixpoint assign_timeline (i : nat) (events : list (option Event))
    (tuples : list TimelineRowTuple) : M (list (option Event)) :=
  match events with
  | [] => mret []
  | evt :: rest =>
      match tuples !! i with
      | None => crash "index out of range"
      | Some t =>
          match evt with
          | None => crash "nil pointer dereference"
          | Some e =>
              rest' ← assign_timeline (S i) rest tuples;
              mret (Some (set_TimelineRowID (Timeline t) e) :: rest')
          end
      end
  end.

(** Row IDs of a slice of event pointers, for the two [Fill...] calls,
    which read [evt.RowID] of every entry. *)
Definition row_ids (events : list (option Event)) : list EventRowID :=
  omap (fmap RowID) events.

(** A callee writing one field of every event a slice points to. *)
Definition update_each (f : Event -> Event) (events : list (option Event))
    : list (option Event) :=
  map (option_map f) events.

(** The closure passed to [h.DB.DoTxn] (lines 254-312). *)
Definition txn_closure (roomID : RoomID) (room_ID : RoomID)
    (summary : LazyLoadSummary) (chunk : list RawEvent) (End : string) : M unit :=
  match ctx_Err with
  | Some e => fail e
  | None =>
      l ← loop roomID summary 0 chunk
             (mkLoop (replicate (length chunk) 0) ∅ 0);
      events ← get_events;
      if decide (length events <= iOffset l)%nat then
        put_events (take 0 events);; mret tt
      else
        let events := take (length events - iOffset l) events in
        put_events events;;
        let eventRowIDs := take (length (eventRowIDs l) - iOffset l) (eventRowIDs l) in
        put_wakeup (bool_decide (0 < size (decryptionQueue l))%nat);;
        put_all (map_to_list (decryptionQueue l));;
        d ← get_db;
        f ← try (ErrWrap "failed to fill last edit row IDs")
                 (Event_FillReactionCounts d roomID (row_ids events));
        let events := update_each (fun e => set_Reactions (f (RowID e)) e) events in
        put_events events;;
        g ← try (ErrWrap "failed to fill last edit row IDs")
                 (Event_FillLastEditRowIDs d roomID (row_ids events));
        let events := update_each (fun e => set_LastEditRowID (g (RowID e)) e) events in
        put_events events;;
        emit (ESetPrevBatch true room_ID End);;
        d' ← try (ErrWrap "failed to set prev_batch")
                  (Room_SetPrevBatch d room_ID End);
        put_db d';;
        emit (EPrepend room_ID eventRowIDs);;
        r ← try (ErrWrap "failed to prepend events to timeline")
                 (Timeline_Prepend d' room_ID eventRowIDs);
        let '(tuples, d'') := r in
        put_db d'';;
        events' ← assign_timeline 0 events tuples;
        put_events events'
  end.

(** [h.DB.DoTxn(ctx, nil, fn)]: the closure runs on the database; its
    writes are kept only if it returns nil and the commit succeeds.  The
    captured Go variables and the call log are not rolled back. *)
Definition DoTxn (body : M unit) (v : TxnVars) : exit unit * TxnVars :=
  match Txn_Begin (t_db v) with
  | Some e => (Fail e, v)
  | None =>
      let '(r, v') := body v in
      let rollback := mkVars (t_db v) (t_log v') (t_events v') (t_wakeup v') in
      match r with
      | Done tt =>
          match Txn_Commit (t_db v') with
          | Some e => (Fail e, rollback)
          | None => (Done tt, v')
          end
      | Fail e => (Fail e, rollback)
      | Crash s => (Crash s, rollback)
      end
  end.

(** What [PaginateServer] hands back: a response pointer and an error;
    the last [return] sets both when the transaction failed. *)
Definition Returns : Type := option PaginationResponse * option error.

(** Lines 232-316: the function body after the deferred cleanup has been
    registered.  It works on the database and the log only. *)
Definition paginate_body (roomID : RoomID) (limit : Z)
    (d : DB) (lg : list effect) : completion Returns * DB * list effect :=
  match Room_Get d roomID with
  | Err e => (Returned (None, Some (ErrWrap "failed to get room from database" e)), d, lg)
  | Ok None => (Panicked "nil pointer dereference", d, lg)
  | Ok (Some (room_ID, PrevBatch, summary)) =>
      if decide (PrevBatch = PrevBatchPaginationComplete) then
        (Returned (Some (mkResp [] false), None), d, lg)
      else
        let lg := lg ++ [EMessages roomID PrevBatch limit] in
        match Client_Messages roomID PrevBatch limit with
        | Err e => (Returned (None, Some (ErrWrap "failed to get messages from server" e)), d, lg)
        | Ok (Chunk, End) =>
            let events : list (option Event) := replicate (length Chunk) None in
            let End := if decide (End = "") then PrevBatchPaginationComplete else End in
            if decide (End = PrevBatchPaginationComplete \/ length Chunk = 0%nat) then
              let lg := lg ++ [ESetPrevBatch false room_ID End] in
              match Room_SetPrevBatch d room_ID End with
              | Err e => (Returned (None, Some (ErrWrap "failed to set prev_batch" e)), d, lg)
              | Ok d' =>
                  (Returned (Some (mkResp events (negb (bool_decide (End = "")))), None), d', lg)
              end
            else
              let '(r, v) := DoTxn (txn_closure roomID room_ID summary Chunk End)
                                   (mkVars d lg events false) in
              match r with
              | Crash s => (Panicked s, t_db v, t_log v)
              | Done tt =>
                  let lg := if t_wakeup v then t_log v ++ [EWakeupRequestQueue] else t_log v in
                  (Returned (Some (mkResp (t_events v) true), None), t_db v, lg)
              | Fail e =>
                  (Returned (Some (mkResp (t_events v) true), Some e), t_db v, t_log v)
              end
        end
  end.

(** Lines 219-225, under [paginationInterrupterLock]: refuse when the
    room has an entry, insert one otherwise. *)
Definition register_pagination (cancel : Cancel) (roomID : RoomID)
    (m : gmap RoomID Cancel) : option (gmap RoomID Cancel) :=
  match m !! roomID with
  | Some _ => None
  | None => Some (<[roomID := cancel]> m)
  end.

(** Lines 226-230, the deferred function, under the same lock. *)
Definition unregister_pagination (roomID : RoomID)
    (m : gmap RoomID Cancel) : gmap RoomID Cancel :=
  delete roomID m.

(** [PaginateServer] (lines 217-317).  The two critical sections are
    atomic; the deferred function runs whatever way the body ends. *)
Definition PaginateServer (cancel : Cancel) (roomID : RoomID) (limit : Z)
    (w : World) : completion Returns * World :=
  match register_pagination cancel roomID (paginationInterrupter w) with
  | None => (Returned (None, Some ErrPaginationAlreadyInProgress), w)
  | Some inflight =>
      let '(r, d, lg) := paginate_body roomID limit (db w) (log w) in
      (r, mkWorld (unregister_pagination roomID inflight) d lg)
  end.

(** *** Concurrent callers

    Several goroutines may be inside [PaginateServer] at once.  The map
    is only touched in the two critical sections, so a run of the system
    is an interleaving of these atomic steps: a caller enters (and is
    admitted or refused), or an admitted caller leaves through the
    deferred function.  [in_flight] lists the admitted callers that have
    not left yet, with the room each one paginates. *)
Record Sys : Type := mkSys {
  sys_map : gmap RoomID Cancel;
  in_flight : list (nat * RoomID)
}.

Inductive sys_step : Sys -> Sys -> Prop :=
| step_admitted (s : Sys) (caller : nat) (cancel : Cancel) (roomID : RoomID)
    (m' : gmap RoomID Cancel) :
    caller ∉ (in_flight s).*1 ->
    register_pagination cancel roomID (sys_map s) = Some m' ->
    sys_step s (mkSys m' ((caller, roomID) :: in_flight s))
| step_refused (s : Sys) (cancel : Cancel) (roomID : RoomID) :
    register_pagination cancel roomID (sys_map s) = None ->
    sys_step s s
| step_left (s : Sys) (caller : nat) (roomID : RoomID) :
    (caller, roomID) ∈ in_flight s ->
    sys_step s (mkSys (unregister_pagination roomID (sys_map s))
                      (filter (fun c => c <> (caller, roomID)) (in_flight s))).

Inductive sys_reachable : Sys -> Prop :=
| reach_init : sys_reachable (mkSys ∅ [])
| reach_step s s' : sys_reachable s -> sys_step s s' -> sys_reachable s'.

(** *** Reading the call log *)

Fixpoint wakeups (lg : list effect) : nat :=
  match lg with
  | [] => 0
  | EWakeupRequestQueue :: rest => S (wakeups rest)
  | _ :: rest => wakeups rest
  end.

Fixpoint network_requests (lg : list effect) : nat :=
  match lg with
  | [] => 0
  | EMessages _ _ _ :: rest => S (network_requests rest)
  | _ :: rest => network_requests rest
  end.

Fixpoint saved_requests (lg : list effect) : list SessionID :=
  match lg with
  | [] => []
  | ESessionRequestPut sid :: rest => sid :: saved_requests rest
  | _ :: rest => saved_requests rest
  end.

Fixpoint prepended (lg : list effect) : list (list EventRowID) :=
  match lg with
  | [] => []
  | EPrepend _ rows :: rest => rows :: prepended rest
  | _ :: rest => prepended rest
  end.

(** *** What the compaction is meant to compute

    The page as a plain list: every chunk entry with the stored event the
    processor returned for it and the timeline's answer to "is this row
    already present?", threading the database and the decryption queue
    exactly as the loop does. *)
Fixpoint page_view (roomID : RoomID) (summary : LazyLoadSummary)
    (chunk : list RawEvent) (d : DB) (q : gmap SessionID SessionRequest)
    : option (list (Event * bool)) :=
  match chunk with
  | [] => Some []
  | evt :: rest =>
      match processEvent d evt summary q with
      | Err _ => None
      | Ok (dbEvt, q', d') =>
          match Timeline_Has d' roomID (RowID dbEvt) with
          | Err _ => None
          | Ok dup =>
              match page_view roomID summary rest d' q' with
              | None => None
              | Some tl => Some ((dbEvt, dup) :: tl)
              end
          end
      end
  end.

(** The decryption-queue accumulator once every entry of the chunk has
    gone through the event processor. *)
Fixpoint page_queue (roomID : RoomID) (summary : LazyLoadSummary)
    (chunk : list RawEvent) (d : DB) (q : gmap SessionID SessionRequest)
    : option (gmap SessionID SessionRequest) :=
  match chunk with
  | [] => Some q
  | evt :: rest =>
      match processEvent d evt summary q with
      | Err _ => None
      | Ok (dbEvt, q', d') =>
          match Timeline_Has d' roomID (RowID dbEvt) with
          | Err _ => None
          | Ok _ => page_queue roomID summary rest d' q'
          end
      end
  end.

(** The events of a page that are new to the timeline, in chunk order. *)
Definition fresh_events (view : list (Event * bool)) : list Event :=
  fst <$> filter (fun p => snd p = false) view.

(** The number of events of a page that the timeline already holds. *)
Definition duplicates (view : list (Event * bool)) : nat :=
  length (filter (fun p => snd p = true) view).

(** The calls the closure logs after the session requests, by how far
    it got: nothing, [SetPrevBatch], or [SetPrevBatch] and [Prepend]. *)
Definition closure_tail (room_ID End : string) (rows : list Z) (stage : nat)
    : list effect :=
  match stage with
  | O => []
  | 1%nat => [ESetPrevBatch true room_ID End]
  | _ => [ESetPrevBatch true room_ID End; EPrepend room_ID rows]
  end.

(** What one run of the closure leaves behind: [page_applied] when the
    loop went through the whole chunk. *)
Definition page_applied (room_ID End : string) (view : list (Event * bool))
    (q : gmap SessionID SessionRequest) (r : exit unit) (v v' : TxnVars) : Prop :=
  map (option_map RowID) (t_events v') =
    map (fun e => Some (RowID e)) (fresh_events view) /\
  ((fresh_events view = [] /\ r = Done tt /\
    t_log v' = t_log v /\ t_wakeup v' = t_wakeup v) \/
   (fresh_events view <> [] /\
    t_wakeup v' = bool_decide (0 < size q)%nat /\
    exists puts stage,
      t_log v' = t_log v ++ (ESessionRequestPut <$> puts) ++
                 closure_tail room_ID End (RowID <$> fresh_events view) stage /\
      (r = Done tt -> puts = (map_to_list q).*1 /\ stage = 2%nat))).

End Paginate.

End Hicli.

(** ** An in-memory instance of the collaborators

    A store that keeps, per room, the pagination cursor and the timeline
    rows, and a server that answers [Messages] from a table of pages.  It
    is used to run [PaginateServer] on concrete pages. *)

Module MemStore.
Import Hicli.

Record MemDB : Type := mkMemDB {
  prev_batch : gmap string string;
  timeline : gmap string (list Z);
  session_requests : list string
}.

(** A raw event: the row the store gives it and, when it cannot be
    decrypted yet, the session whose keys it waits for. *)
Record MemEvent : Type := mkMemEvent {
  me_row : Z;
  me_session : option string
}.

Definition mem_Room_Get (d : MemDB) (room : string)
    : result (option (string * string * unit)) :=
  Ok ((fun pb => (room, pb, tt)) <$> prev_batch d !! room).

Definition mem_processEvent (d : MemDB) (evt : MemEvent) (_ : unit)
    (q : gmap string SessionRequest)
    : result (Event * gmap string SessionRequest * MemDB) :=
  Ok (mkEvent (me_row evt) "" 0 None [],
      match me_session evt with
      | Some s => <[s := mkSessionRequest s 0]> q
      | None => q
      end,
      d).

Definition mem_Timeline_Has (d : MemDB) (room : string) (row : Z) : result bool :=
  Ok (bool_decide (row ∈ default [] (timeline d !! room))).

Definition mem_Put (d : MemDB) (r : SessionRequest) : result MemDB :=
  Ok (mkMemDB (prev_batch d) (timeline d) (session_requests d ++ [SessionID_of r])).

Definition mem_SetPrevBatch (d : MemDB) (room token : string) : result MemDB :=
  Ok (mkMemDB (<[room := token]> (prev_batch d)) (timeline d) (session_requests d)).

Definition mem_Prepend (d : MemDB) (room : string) (rows : list Z)
    : result (list TimelineRowTuple * MemDB) :=
  Ok (imap (fun i row => mkTuple (- Z.of_nat i) row) rows,
      mkMemDB (prev_batch d)
              (<[room := rows ++ default [] (timeline d !! room)]> (timeline d))
              (session_requests d)).

Definition MemEnv (server : string -> string -> Z -> result (list MemEvent * string))
    : Env := {|
  DB := MemDB;
  RawEvent := MemEvent;
  LazyLoadSummary := unit;
  Cancel := unit;
  PrevBatchPaginationComplete := "fake";
  Room_Get := mem_Room_Get;
  Client_Messages := server;
  processEvent := mem_processEvent;
  Timeline_Has := mem_Timeline_Has;
  SessionRequest_Put := mem_Put;
  Event_FillReactionCounts := fun _ _ _ => Ok (fun _ => []);
  Event_FillLastEditRowIDs := fun _ _ _ => Ok (fun _ => None);
  Room_SetPrevBatch := mem_SetPrevBatch;
  Timeline_Prepend := mem_Prepend;
  ctx_Err := None;
  Txn_Begin := fun _ => None;
  Txn_Commit := fun _ => None
|}.

(** Room [!r] with cursor [tokenA] and rows 4 and 5 in its timeline. *)
Definition db0 : MemDB :=
  mkMemDB {["!r" := "tokenA"]} {["!r" := [4; 5]]} [].

(** The server's answer for [tokenA]: three events, of which row 4 is
    already in the timeline and row 2 waits for session [s1]. *)
Definition server1 (room from : string) (limit : Z)
    : result (list MemEvent * string) :=
  if decide (from = "tokenA")
  then Ok ([mkMemEvent 1 None; mkMemEvent 4 None; mkMemEvent 2 (Some "s1")], "tokenB")
  else Err (ErrOther "unknown token").

(** The server's last page: one event and no [end] token. *)
Definition server_last (room from : string) (limit : Z)
    : result (list MemEvent * string) :=
  if decide (from = "tokenA")
  then Ok ([mkMemEvent 1 None], "")
  else Err (ErrOther "unknown token").

(** A page on which the only event is in the timeline already. *)
Definition server_dup (room from : string) (limit : Z)
    : result (list MemEvent * string) :=
  if decide (from = "tokenA")
  then Ok ([mkMemEvent 4 (Some "s1")], "tokenB")
  else Err (ErrOther "unknown token").

(** A page that holds the event of row 1 twice; the timeline does not
    hold row 1. *)
Definition server_twice (room from : string) (limit : Z)
    : result (list MemEvent * string) :=
  if decide (from = "tokenA")
  then Ok ([mkMemEvent 1 None; mkMemEvent 1 None], "tokenB")
  else Err (ErrOther "unknown token").

Definition world0 (server : string -> string -> Z -> result (list MemEvent * string))
    : @World (MemEnv server) :=
  @mkWorld (MemEnv server) ∅ db0 [].

End MemStore.

(** ** Part II: [web/src/api/statestore]: [StateStore.applySync] *)

Module Statestore.

Abbreviation RoomID := string.

(** [MemDBEvent]: the fields the room list reads. *)
Record MemDBEvent : Type := mkMemDBEvent {
  rowid : Z;
  sender : string
}.

(** [DBRoom], the [meta] of a [SyncRoom].  Timestamps, counters and row
    identifiers are JS numbers that hold integers. *)
Record DBRoom : Type := mkDBRoom {
  room_id : RoomID;
  name : option string;
  avatar : option string;
  sorting_timestamp : Z;
  unread_messages : Z;
  unread_notifications : Z;
  unread_highlights : Z;
  preview_event_rowid : Z
}.

(** [SyncRoom]: [meta] and [events] are what [StateStore] itself reads
    (the rest is handed to [RoomStateStore.applySync]; [notifications]
    only feed the browser's [Notification] API). *)
Record SyncRoom : Type := mkSyncRoom {
  meta : DBRoom;
  events : list MemDBEvent
}.

Record RoomListEntry : Type := mkEntry {
  e_room_id : RoomID;
  e_sorting_timestamp : Z;
  e_preview_event : option MemDBEvent;
  e_preview_sender : option MemDBEvent;
  e_name : string;
  e_search_name : string;
  e_avatar : option string;
  e_unread_messages : Z;
  e_unread_notifications : Z;
  e_unread_highlights : Z
}.

(** [sync.rooms] is a JS object: [Object.entries] and [Object.values]
    enumerate it in insertion order, every key once. *)
Definition SyncCompleteData : Type := list (RoomID * SyncRoom).

(** A payload as the backend builds it: every key once, and each room
    filed under its own ID. *)
Definition sync_wf (sync : SyncCompleteData) : Prop :=
  NoDup sync.*1 /\ Forall (fun kv => room_id (meta kv.2) = kv.1) sync.

(** What [StateStore] uses of [./room.ts] and of [unhomoglyph], neither
    of which is part of the sources at hand. *)
Class RoomStore : Type := {
  RoomStateStore : Type;
  RoomStateStore_new : DBRoom -> RoomStateStore;
  meta_current : RoomStateStore -> DBRoom;
  RoomStateStore_applySync : RoomStateStore -> SyncRoom -> RoomStateStore;
  eventsByRowID_get : RoomStateStore -> Z -> option MemDBEvent;
  getStateEvent : RoomStateStore -> string -> string -> option MemDBEvent;
  toSearchableString : string -> string
}.

(** JS [Array.prototype.findIndex] and [findLastIndex]: the index of the
    first (last) element that satisfies [p], or -1. *)
Fixpoint findIndex_from {A} (p : A -> bool) (i : Z) (l : list A) : Z :=
  match l with
  | [] => -1
  | x :: rest => if p x then i else findIndex_from p (i + 1) rest
  end.
Definition findIndex {A} (p : A -> bool) (l : list A) : Z := findIndex_from p 0 l.

Fixpoint findLastIndex_from {A} (p : A -> bool) (i : Z) (l : list A) : Z :=
  match l with
  | [] => -1
  | x :: rest =>
      let j := findLastIndex_from p (i + 1) rest in
      if (0 <=? j) then j else if p x then i else -1
  end.
Definition findLastIndex {A} (p : A -> bool) (l : list A) : Z :=
  findLastIndex_from p 0 l.

(** [arr.splice(start, 0, x)] for [0 <= start <= arr.length]. *)
Definition splice_in {A} (l : list A) (start : Z) (x : A) : list A :=
  take (Z.to_nat start) l ++ x :: drop (Z.to_nat start) l.

(** [arr.sort((r1, r2) => r1.sorting_timestamp - r2.sorting_timestamp)]:
    the sort is stable (ECMAScript 2019), so it is the stable insertion
    of every element, from the last to the first, into the sorted rest. *)
Fixpoint sort_insert (x : RoomListEntry) (sorted : list RoomListEntry)
    : list RoomListEntry :=
  match sorted with
  | [] => [x]
  | y :: rest =>
      if (e_sorting_timestamp x <=? e_sorting_timestamp y) then x :: y :: rest
      else y :: sort_insert x rest
  end.
Definition sort_by_timestamp (l : list RoomListEntry) : list RoomListEntry :=
  foldr sort_insert [] l.

(** A JS [Map] as the list of its entries in insertion order:
    [set] replaces the value of a present key in place. *)
Fixpoint Map_set {V} (m : list (RoomID * V)) (k : RoomID) (v : V) : list (RoomID * V) :=
  match m with
  | [] => [(k, v)]
  | (k', v') :: rest =>
      if decide (k' = k) then (k, v) :: rest else (k', v') :: Map_set rest k v
  end.
Definition Map_has {V} (m : list (RoomID * V)) (k : RoomID) : bool :=
  bool_decide (k ∈ m.*1).

Section StateStore.
Context `{RS : RoomStore}.

(** The two fields of [StateStore] that [applySync] works on;
    [roomList] is [this.roomList.current]. *)
Record StateStore : Type := mkStore {
  rooms : gmap RoomID RoomStateStore;
  roomList : list RoomListEntry
}.

(** [new StateStore()] *)
Definition StateStore_new : StateStore := mkStore ∅ [].

(** [#roomListEntryChanged] (lines 132-139) *)
Definition roomListEntryChanged (entry : SyncRoom) (oldEntry : RoomStateStore) : bool :=
  let cur := meta_current oldEntry in
  negb (sorting_timestamp (meta entry) =? sorting_timestamp cur) ||
  negb (unread_messages (meta entry) =? unread_messages cur) ||
  negb (unread_notifications (meta entry) =? unread_notifications cur) ||
  negb (unread_highlights (meta entry) =? unread_highlights cur) ||
  negb (preview_event_rowid (meta entry) =? preview_event_rowid cur) ||
  negb (findIndex (fun evt => rowid evt =? preview_event_rowid (meta entry))
                  (events entry) =? -1).

(** [#makeRoomListEntry] (lines 141-160) *)
Definition makeRoomListEntry (rs : gmap RoomID RoomStateStore)
    (entry : SyncRoom) (room : option RoomStateStore) : RoomListEntry :=
  let room := match room with
              | Some r => Some r
              | None => rs !! room_id (meta entry)
              end in
  let preview_event :=
    r ← room; eventsByRowID_get r (preview_event_rowid (meta entry)) in
  let preview_sender :=
    ev ← preview_event; r ← room; getStateEvent r "m.room.member" (sender ev) in
  let name := default "Unnamed room" (name (meta entry)) in
  mkEntry (room_id (meta entry)) (sorting_timestamp (meta entry))
          preview_event preview_sender name (toSearchableString name)
          (avatar (meta entry)) (unread_messages (meta entry))
          (unread_notifications (meta entry)) (unread_highlights (meta entry)).

(** One turn of [for (const [roomID, data] of Object.entries(sync.rooms))]
    (lines 165-184), on [this.rooms] and [changedRoomListEntries]. *)
Definition sync_room (resyncRoomList : bool)
    (acc : gmap RoomID RoomStateStore * list (RoomID * RoomListEntry))
    (kv : RoomID * SyncRoom)
    : gmap RoomID RoomStateStore * list (RoomID * RoomListEntry) :=
  let '(rs, changedRoomListEntries) := acc in
  let '(roomID, data) := kv in
  let '(room, isNewRoom) :=
    match rs !! roomID with
    | Some room => (room, false)
    | None => (RoomStateStore_new (meta data), true)
    end in
  let roomListEntryChanged :=
    negb resyncRoomList && (isNewRoom || roomListEntryChanged data room) in
  let room := RoomStateStore_applySync room data in
  let rs := <[roomID := room]> rs in
  (rs,
   if roomListEntryChanged
   then Map_set changedRoomListEntries roomID (makeRoomListEntry rs data (Some room))
   else changedRoomListEntries).

(** The body of [for (const entry of changedRoomListEntries.values())]
    (lines 193-203). *)
Definition insert_entry (updatedRoomList : list RoomListEntry)
    (entry : RoomListEntry) : list RoomListEntry :=
  let ts := e_sorting_timestamp entry in
  match last updatedRoomList, head updatedRoomList with
  | Some tail_, Some head_ =>
      if (e_sorting_timestamp tail_ <=? ts) then updatedRoomList ++ [entry]
      else if (ts <=? 0) || (ts <? e_sorting_timestamp head_) then entry :: updatedRoomList
      else
        let indexToPushAt :=
          findLastIndex (fun val => e_sorting_timestamp val <=? ts) updatedRoomList in
        splice_in updatedRoomList (indexToPushAt + 1) entry
  | _, _ => updatedRoomList ++ [entry]
  end.

(** [applySync] (lines 162-209): the new store and, when
    [this.roomList.emit] is called, the list it is called with ([emit]
    makes it [roomList.current]). *)
Definition applySync (st : StateStore) (sync : SyncCompleteData)
    : StateStore * option (list RoomListEntry) :=
  let resyncRoomList := bool_decide (length (roomList st) = 0%nat) in
  let '(rs, changedRoomListEntries) :=
    foldl (sync_room resyncRoomList) (rooms st, []) sync in
  let updatedRoomList :=
    if resyncRoomList then
      Some (sort_by_timestamp ((fun kv => makeRoomListEntry rs kv.2 None) <$> sync))
    else if (0 <? Z.of_nat (length changedRoomListEntries)) then
      Some (foldl insert_entry
              (List.filter (fun entry => negb (Map_has changedRoomListEntries (e_room_id entry)))
                           (roomList st))
              changedRoomListEntries.*2)
    else None in
  match updatedRoomList with
  | Some l => (mkStore rs l, Some l)
  | None => (mkStore rs (roomList st), None)
  end.

(** The store after a sequence of sync payloads. *)
Definition applySyncs (st : StateStore) (syncs : list SyncCompleteData) : StateStore :=
  foldl (fun st sync => (applySync st sync).1) st syncs.

(** *** The statements the room list is checked against *)

Definition sorted_by_timestamp (l : list RoomListEntry) : Prop :=
  StronglySorted (fun a b => e_sorting_timestamp a <= e_sorting_timestamp b) l.

(** Exactly one entry per known room. *)
Definition one_entry_per_room (st : StateStore) : Prop :=
  NoDup (e_room_id <$> roomList st) /\
  forall r, r ∈ (e_room_id <$> roomList st) <-> is_Some (rooms st !! r).

(** The insertion the specification describes: append when the entry is
    not smaller than the tail, prepend when it is smaller than the head,
    otherwise right after the last element that is not larger. *)
Definition spec_insert (l : list RoomListEntry) (entry : RoomListEntry)
    : list RoomListEntry :=
  let ts := e_sorting_timestamp entry in
  match last l, head l with
  | Some tail_, Some head_ =>
      if (e_sorting_timestamp tail_ <=? ts) then l ++ [entry]
      else if (ts <? e_sorting_timestamp head_) then entry :: l
      else splice_in l (findLastIndex (fun val => e_sorting_timestamp val <=? ts) l + 1) entry
  | _, _ => l ++ [entry]
  end.

(** A touched room whose entry compares as changed against the stored
    one. *)
Definition some_entry_changed (st : StateStore) (sync : SyncCompleteData) : Prop :=
  exists roomID data old,
    (roomID, data) ∈ sync /\ rooms st !! roomID = Some old /\
    roomListEntryChanged data old = true.

(** A touched room the store has not seen before. *)
Definition some_room_new (st : StateStore) (sync : SyncCompleteData) : Prop :=
  exists roomID data, (roomID, data) ∈ sync /\ rooms st !! roomID = None.

Definition timestamps_nonneg (sync : SyncCompleteData) : Prop :=
  Forall (fun kv => 0 <= sorting_timestamp (meta kv.2)) sync.

(** Whether the loop files the room under the changed entries: the room
    is new, or it compares as changed against the stored one. *)
Definition changed_at (rs : gmap string RoomStateStore) (k : string) (d : SyncRoom) : bool :=
  match rs !! k with
  | None => true
  | Some old => roomListEntryChanged d old
  end.

End StateStore.

(** A reading of [./room.ts] that is enough to run [applySync]: a room
    store keeps the last [meta] and the events it was given. *)
Record SimpleRoom : Type := mkSimpleRoom {
  sr_meta : DBRoom;
  sr_events : list MemDBEvent
}.

Definition SimpleRoomStore : RoomStore := {|
  RoomStateStore := SimpleRoom;
  RoomStateStore_new := fun m => mkSimpleRoom m [];
  meta_current := sr_meta;
  RoomStateStore_applySync := fun r d => mkSimpleRoom (meta d) (sr_events r ++ events d);
  eventsByRowID_get := fun r id => List.find (fun e => rowid e =? id) (sr_events r);
  getStateEvent := fun _ _ _ => None;
  toSearchableString := fun s => s
|}.

(** A room with the given ID and sorting timestamp, nothing unread. *)
Definition room_at (id : RoomID) (ts : Z) : RoomID * SyncRoom :=
  (id, mkSyncRoom (mkDBRoom id None None ts 0 0 0 0) []).

End Statestore.

(** ** Part III: [websocket.go]: [sendInitialData] *)

Module Websocket.

(** [database.Room]: the fields [sendInitialData] reads.  Timestamps are
    milliseconds since the epoch. *)
Record Room : Type := mkRoom {
  ID : string;
  SortingTimestamp : Z;
  PreviewEventRowID : Z
}.

(** [database.Event] *)
Record Event : Type := mkEvent {
  RowID : Z;
  LastEditRowID : option Z
}.

(** [hicli.SyncRoom] as [sendInitialData] fills it ([Timeline] stays
    empty). *)
Record SyncRoom : Type := mkSyncRoom {
  Meta : Room;
  Events : list Event
}.

(** [hicli.SyncComplete.Rooms] *)
Abbreviation Payload := (gmap string SyncRoom).

Inductive result (A : Type) : Type :=
| Ok (a : A)
| Err (msg : string).
Arguments Ok {A} a.
Arguments Err {A} msg.

(** The storage engine and the connection, as [sendInitialData] uses
    them.  [batch] counts the turns of the outer loop, so that a call may
    succeed in one turn and fail in a later one (the context was
    cancelled, the peer went away). *)
Class Conn : Type := {
  Room_GetBySortTS : nat -> Z -> nat -> result (list Room);
  Event_GetByRowID : nat -> Z -> result (option Event);
  json_Marshal : Payload -> result unit;
  writeCmd : nat -> Payload -> result unit
}.

Definition BatchSize : nat := 100.

Section SendInitialData.
Context `{C : Conn}.

(** The inner loop (lines 218-247) from some room of the batch on:
    [last_ts] is [rooms[len(rooms)-1].SortingTimestamp].  It returns the
    payload and [maxTS], or the error that makes the function return. *)
Fixpoint fill_payload (batch : nat) (last_ts : Z) (rooms : list Room)
    (payload : Payload) (maxTS : Z) : result (Payload * Z) :=
  match rooms with
  | [] => Ok (payload, maxTS)
  | room :: rest =>
      if decide (SortingTimestamp room = last_ts) then Ok (payload, maxTS)
      else
        let maxTS := SortingTimestamp room in
        let continue_with (evts : list Event) :=
          fill_payload batch last_ts rest
            (<[ID room := mkSyncRoom room evts]> payload) maxTS in
        if decide (PreviewEventRowID room = 0) then continue_with []
        else
          match Event_GetByRowID batch (PreviewEventRowID room) with
          | Err e => Err e
          | Ok None => continue_with []
          | Ok (Some previewEvent) =>
              match LastEditRowID previewEvent with
              | None => continue_with [previewEvent]
              | Some editRow =>
                  match Event_GetByRowID batch editRow with
                  | Err e => Err e
                  | Ok None => continue_with [previewEvent]
                  | Ok (Some lastEdit) => continue_with [previewEvent; lastEdit]
                  end
              end
          end
  end.

(** How [sendInitialData] ends: it logs "Sent initial rooms to client"
    with the room count, or it returns early on an error. *)
Inductive stop : Type :=
| Completed (roomCount : nat)
| Aborted (msg : string).

(** The outer loop (lines 206-265).  [fuel] bounds the number of turns:
    [None] means the loop is still running after [fuel] turns.  The
    result is the list of [sync_complete] payloads written, oldest
    first. *)
Fixpoint send_loop (fuel : nat) (batch : nat) (maxTS : Z) (roomCount : nat)
    (sent : list Payload) : option (list Payload * stop) :=
  match fuel with
  | O => None
  | S fuel =>
      match Room_GetBySortTS batch maxTS BatchSize with
      | Err e => Some (sent, Aborted e)
      | Ok rooms =>
          let roomCount := (roomCount + length rooms)%nat in
          let last_ts := default 0 (SortingTimestamp <$> last rooms) in
          match fill_payload batch last_ts rooms ∅ maxTS with
          | Err e => Some (sent, Aborted e)
          | Ok (payload, maxTS) =>
              match json_Marshal payload with
              | Err e => Some (sent, Aborted e)
              | Ok _ =>
                  match writeCmd batch payload with
                  | Err e => Some (sent, Aborted e)
                  | Ok _ =>
                      let sent := sent ++ [payload] in
                      if decide (length rooms < BatchSize)%nat
                      then Some (sent, Completed roomCount)
                      else send_loop fuel (S batch) maxTS roomCount sent
                  end
              end
          end
      end
  end.

(** [sendInitialData] (lines 201-267); [now] is [time.Now()] in
    milliseconds. *)
Definition sendInitialData (fuel : nat) (now : Z) : option (list Payload * stop) :=
  send_loop fuel 0 (now + 3600000) 0 [].

End SendInitialData.

(** Modelled from the spec: [Room.GetBySortTS], whose query is not part of
    the sources.  "Batches of at most 100 rooms, descending by sorting
    timestamp", with the rooms that were deferred coming back in the next
    batch: the stored rooms with a sorting timestamp below [maxTS], latest
    first, cut at [limit]. *)
Fixpoint insert_desc (r : Room) (sorted : list Room) : list Room :=
  match sorted with
  | [] => [r]
  | x :: rest =>
      if (SortingTimestamp x <=? SortingTimestamp r) then r :: x :: rest
      else x :: insert_desc r rest
  end.

Definition GetBySortTS_of (stored : list Room) (maxTS : Z) (limit : nat) : list Room :=
  take limit
    (foldr insert_desc []
       (List.filter (fun r => SortingTimestamp r <? maxTS) stored)).

(** A hundred rooms that were all last active at the same millisecond. *)
Definition same_time_rooms : list Room :=
  (fun i => mkRoom ("!room" ++ pretty i) 1000 0) <$> seq 0 100.

(** A connection that never fails, over a fixed set of stored rooms and
    no stored events. *)
Definition StoredRooms (stored : list Room) : Conn := {|
  Room_GetBySortTS := fun _ maxTS limit => Ok (GetBySortTS_of stored maxTS limit);
  Event_GetByRowID := fun _ _ => Ok None;
  json_Marshal := fun _ => Ok tt;
  writeCmd := fun _ _ => Ok tt
|}.

End Websocket.

(** ** Part IV: [server.go]: the auth token *)

Module Server.

(** *** [encoding/base64], [RawURLEncoding]

    Bytes are [ascii] values, byte strings are [string]s.  A sextet is a
    byte whose two high bits are clear. *)

Definition encodeURL : string :=
  "ABCDEFGHIJKLMNOPQRSTUVWXYZabcdefghijklmnopqrstuvwxyz0123456789-_".

(** The character of a sextet. *)
Definition enc_char (sextet : ascii) : ascii :=
  default "A"%char (String.get (nat_of_ascii sextet) encodeURL).

Fixpoint index_from (c : ascii) (i : nat) (alphabet : string) : option nat :=
  match alphabet with
  | EmptyString => None
  | String x rest => if Ascii.eqb x c then Some i else index_from c (S i) rest
  end.

(** The sextet of a character, if it is in the alphabet. *)
Definition dec_char (c : ascii) : option ascii :=
  ascii_of_nat <$> index_from c 0 encodeURL.

(** Three bytes as four sextets, and back (the shifts and masks of the
    encoder, bit by bit; [Ascii] lists the low bit first). *)
Definition sextets (a b c : ascii) : ascii * ascii * ascii * ascii :=
  let '(Ascii a0 a1 a2 a3 a4 a5 a6 a7) := a in
  let '(Ascii b0 b1 b2 b3 b4 b5 b6 b7) := b in
  let '(Ascii c0 c1 c2 c3 c4 c5 c6 c7) := c in
  (Ascii a2 a3 a4 a5 a6 a7 false false,
   Ascii b4 b5 b6 b7 a0 a1 false false,
   Ascii c6 c7 b0 b1 b2 b3 false false,
   Ascii c0 c1 c2 c3 c4 c5 false false).

Definition octets (s1 s2 s3 s4 : ascii) : ascii * ascii * ascii :=
  let '(Ascii p0 p1 p2 p3 p4 p5 _ _) := s1 in
  let '(Ascii q0 q1 q2 q3 q4 q5 _ _) := s2 in
  let '(Ascii r0 r1 r2 r3 r4 r5 _ _) := s3 in
  let '(Ascii t0 t1 t2 t3 t4 t5 _ _) := s4 in
  (Ascii q4 q5 p0 p1 p2 p3 p4 p5,
   Ascii r2 r3 r4 r5 q0 q1 q2 q3,
   Ascii t0 t1 t2 t3 t4 t5 r0 r1).

(** [RawURLEncoding.EncodeToString]: no padding. *)
Fixpoint EncodeToString (src : string) : string :=
  match src with
  | String a (String b (String c rest)) =>
      let '(s1, s2, s3, s4) := sextets a b c in
      String (enc_char s1) (String (enc_char s2) (String (enc_char s3)
        (String (enc_char s4) (EncodeToString rest))))
  | String a (String b EmptyString) =>
      let '(s1, s2, s3, _) := sextets a b zero in
      String (enc_char s1) (String (enc_char s2) (String (enc_char s3) EmptyString))
  | String a EmptyString =>
      let '(s1, s2, _, _) := sextets a zero zero in
      String (enc_char s1) (String (enc_char s2) EmptyString)
  | EmptyString => EmptyString
  end.

(** The decoder skips carriage returns and line feeds. *)
Fixpoint strip_newlines (s : string) : string :=
  match s with
  | EmptyString => EmptyString
  | String c rest =>
      if Ascii.eqb c "013"%char || Ascii.eqb c "010"%char then strip_newlines rest
      else String c (strip_newlines rest)
  end.

Fixpoint decode_quanta (s : string) : option string :=
  match s with
  | String c1 (String c2 (String c3 (String c4 rest))) =>
      s1 ← dec_char c1; s2 ← dec_char c2; s3 ← dec_char c3; s4 ← dec_char c4;
      tl ← decode_quanta rest;
      let '(a, b, c) := octets s1 s2 s3 s4 in
      Some (String a (String b (String c tl)))
  | String c1 (String c2 (String c3 EmptyString)) =>
      s1 ← dec_char c1; s2 ← dec_char c2; s3 ← dec_char c3;
      let '(a, b, _) := octets s1 s2 s3 zero in
      Some (String a (String b EmptyString))
  | String c1 (String c2 EmptyString) =>
      s1 ← dec_char c1; s2 ← dec_char c2;
      let '(a, _, _) := octets s1 s2 zero zero in
      Some (String a EmptyString)
  | String c1 EmptyString => None
  | EmptyString => Some EmptyString
  end.

(** [RawURLEncoding.DecodeString]; [None] is a [CorruptInputError]. *)
Definition DecodeString (s : string) : option string :=
  decode_quanta (strip_newlines s).

(** No character of the alphabet is a dot, a carriage return or a line
    feed. *)
Definition plain (c : ascii) : bool :=
  negb (Ascii.eqb c "."%char) && negb (Ascii.eqb c "013"%char) &&
  negb (Ascii.eqb c "010"%char).

Fixpoint all_plain (s : string) : bool :=
  match s with
  | EmptyString => true
  | String c rest => plain c && all_plain rest
  end.

(** *** [strings.Split] with a one-byte separator *)
Fixpoint Split (s : string) (sep : ascii) : list string :=
  match s with
  | EmptyString => [EmptyString]
  | String c rest =>
      if Ascii.eqb c sep then EmptyString :: Split rest sep
      else match Split rest sep with
           | part :: parts => String c part :: parts
           | [] => [String c EmptyString]
           end
  end.

(** *** The token *)

(** [tokenData].  [Expiry] is a [jsontime.Unix]: on the wire it is the
    Unix time in whole seconds, and that is what [validateAuth] gets
    back. *)
Record tokenData : Type := mkTokenData {
  Username : string;
  Expiry : Z
}.

(** [gmx.Config.Web] *)
Record Config : Type := mkConfig {
  cfg_Username : string;
  cfg_TokenKey : string
}.

(** [crypto/hmac] with [crypto/sha256], and [encoding/json] on
    [tokenData]: library code outside the repository. *)
Class Crypto : Type := {
  hmac_sha256 : string -> string -> string;       (* key, message *)
  json_Marshal : tokenData -> string;
  json_Unmarshal : string -> option tokenData
}.

(** Times are nanoseconds since the epoch. *)
Definition second : Z := 1000000000.
Definition week : Z := 7 * 24 * 3600 * second.

Section Token.
Context `{CR : Crypto}.

(** [generateToken] (lines 112-122); [now] is [time.Now()]. *)
Definition generateToken (cfg : Config) (now : Z) : string * Z :=
  let expiry := now + week in
  let data := json_Marshal (mkTokenData (cfg_Username cfg) (expiry / second)) in
  let checksum := hmac_sha256 (cfg_TokenKey cfg) data in
  (EncodeToString data +:+ "." +:+ EncodeToString checksum, expiry).

(** [validateAuth] (lines 85-110); [now] is [time.Now()]. *)
Definition validateAuth (cfg : Config) (now : Z) (token : string) : bool :=
  if (100 <? String.length token)%nat then false
  else
    match Split token "."%char with
    | [part0; part1] =>
        match DecodeString part0 with
        | None => false
        | Some rawJSON =>
            match DecodeString part1 with
            | None => false
            | Some checksum =>
                if negb (String.eqb (hmac_sha256 (cfg_TokenKey cfg) rawJSON) checksum)
                then false
                else
                  match json_Unmarshal rawJSON with
                  | None => false
                  | Some td =>
                      String.eqb (Username td) (cfg_Username cfg) &&
                      (now <? Expiry td * second)
                  end
            end
        end
    | _ => false
    end.

(** The [tokenData] that [generateToken] signs at time [now]. *)
Definition token_data (cfg : Config) (now : Z) : tokenData :=
  mkTokenData (cfg_Username cfg) ((now + week) / second).

End Token.

(** A stand-in for the two libraries, to run the functions on concrete
    input: JSON of the shape [encoding/json] gives a [tokenData] whose
    username needs no escaping, and a 32-byte "checksum" cut from the key
    and the message. *)
Definition quote : string := String "034"%char EmptyString.

Fixpoint strip_prefix (prefix s : string) : option string :=
  match prefix, s with
  | EmptyString, _ => Some s
  | String p prefix, String c s => if Ascii.eqb p c then strip_prefix prefix s else None
  | _, EmptyString => None
  end.

Fixpoint span_until (stop : ascii) (s : string) : string * string :=
  match s with
  | EmptyString => (EmptyString, EmptyString)
  | String c rest =>
      if Ascii.eqb c stop then (EmptyString, s)
      else let '(word, rest') := span_until stop rest in (String c word, rest')
  end.

Fixpoint parse_digits (acc : Z) (s : string) : option Z :=
  match s with
  | EmptyString => Some acc
  | String c rest =>
      let d := Z.of_nat (nat_of_ascii c) - 48 in
      if (0 <=? d) && (d <=? 9) then parse_digits (10 * acc + d) rest else None
  end.

Definition toy_Marshal (td : tokenData) : string :=
  "{" +:+ quote +:+ "username" +:+ quote +:+ ":" +:+ quote +:+ Username td +:+ quote
  +:+ "," +:+ quote +:+ "expiry" +:+ quote +:+ ":" +:+ pretty (Expiry td) +:+ "}".

Definition toy_Unmarshal (s : string) : option tokenData :=
  rest ← strip_prefix ("{" +:+ quote +:+ "username" +:+ quote +:+ ":" +:+ quote) s;
  let '(name, rest) := span_until "034"%char rest in
  rest ← strip_prefix (quote +:+ "," +:+ quote +:+ "expiry" +:+ quote +:+ ":") rest;
  let '(digits, rest) := span_until "}"%char rest in
  expiry ← parse_digits 0 digits;
  if String.eqb rest "}" then Some (mkTokenData name expiry) else None.

Definition ToyCrypto : Crypto := {|
  hmac_sha256 := fun key msg =>
    substring 0 32 (key +:+ msg +:+ "0123456789abcdef0123456789abcdef");
  json_Marshal := toy_Marshal;
  json_Unmarshal := toy_Unmarshal
|}.

End Server.

(** ** Part V: [pkg/hicli/paginate.go]: [Paginate] *)

Module HicliPaginate.
Import Hicli.

(** The collaborators of [Paginate] besides those of [PaginateServer]:
    the timeline query and [ReprocessExistingEvent], which may rewrite the
    event it is handed and its stored copy. *)
Class LocalTimeline `{E : Env} : Type := {
  Timeline_Get : DB -> RoomID -> Z -> TimelineRowID -> result (list Event);
  ReprocessExistingEvent : DB -> Event -> Event * DB
}.

Section Paginate.
Context `{L : LocalTimeline}.

(** [for _, evt := range evts { h.ReprocessExistingEvent(ctx, evt) }] *)
Fixpoint reprocess_all (d : DB) (evts : list Event) : list Event * DB :=
  match evts with
  | [] => ([], d)
  | evt :: rest =>
      let '(evt', d') := ReprocessExistingEvent d evt in
      let '(rest', d'') := reprocess_all d' rest in
      (evt' :: rest', d'')
  end.

(** [Paginate] (lines 203-215). *)
Definition Paginate (cancel : Cancel) (roomID : RoomID) (maxTimelineID : TimelineRowID)
    (limit : Z) (w : World) : completion Returns * World :=
  match Timeline_Get (db w) roomID limit maxTimelineID with
  | Err e => (Returned (None, Some e), w)
  | Ok evts =>
      if decide (0 < length evts)%nat then
        let '(evts', d') := reprocess_all (db w) evts in
        (Returned (Some (mkResp (Some <$> evts') true), None),
         mkWorld (paginationInterrupter w) d' (log w))
      else PaginateServer cancel roomID limit w
  end.

End Paginate.

End HicliPaginate.

Module MemTimeline.
Import Hicli HicliPaginate MemStore.

(** The stored timeline of a room as events: the first [limit] rows
    before [maxTimelineID]; nothing is reprocessed. *)
Definition MemLocal (server : string -> string -> Z -> result (list MemEvent * string))
    : @LocalTimeline (MemEnv server) := {|
  Timeline_Get := fun (d : @DB (MemEnv server)) room limit maxTimelineID =>
    Ok ((fun row => mkEvent row "" row None []) <$>
          take (Z.to_nat limit)
            (List.filter (fun row => row <? maxTimelineID) (default [] (timeline d !! room))));
  ReprocessExistingEvent := fun d evt => (evt, d)
|}.

End MemTimeline.

(** ** Part VI: [web/src/api/statestore]: [applyDecrypted] and the rooms of [applySync] *)

Module StatestoreDecrypt.
Import Statestore.

(** [EventsDecryptedData]: [preview_event_rowid] is optional; the
    decrypted events themselves only go to the room store. *)
Record EventsDecryptedData : Type := mkDecrypted {
  d_room_id : RoomID;
  d_preview_event_rowid : option Z
}.

(** [RoomStateStore.applyDecrypted] of [./room.ts]. *)
Class RoomDecrypt `{RS : RoomStore} : Type := {
  RoomStateStore_applyDecrypted : RoomStateStore -> EventsDecryptedData -> RoomStateStore
}.

(** [{...entry, preview_event: evt}] *)
Definition set_preview_event (entry : RoomListEntry) (evt : option MemDBEvent)
    : RoomListEntry :=
  mkEntry (e_room_id entry) (e_sorting_timestamp entry) evt (e_preview_sender entry)
          (e_name entry) (e_search_name entry) (e_avatar entry)
          (e_unread_messages entry) (e_unread_notifications entry)
          (e_unread_highlights entry).

Section ApplyDecrypted.
Context `{RD : RoomDecrypt}.

(** [applyDecrypted] (lines 254-272): the new store and, when
    [this.roomList.emit] is called, the list it is called with.  The row
    ID is tested for truthiness: it has to be there and not be 0. *)
Definition applyDecrypted (st : StateStore) (decrypted : EventsDecryptedData)
    : StateStore * option (list RoomListEntry) :=
  match rooms st !! d_room_id decrypted with
  | None => (st, None)
  | Some room =>
      let room := RoomStateStore_applyDecrypted room decrypted in
      let rs := <[d_room_id decrypted := room]> (rooms st) in
      match d_preview_event_rowid decrypted with
      | Some rowid =>
          if negb (rowid =? 0) then
            let idx := findIndex (fun entry => String.eqb (e_room_id entry) (d_room_id decrypted))
                                 (roomList st) in
            if negb (idx =? -1) then
              let updatedRoomList :=
                alter (fun entry => set_preview_event entry (eventsByRowID_get room rowid))
                      (Z.to_nat idx) (roomList st) in
              (mkStore rs updatedRoomList, Some updatedRoomList)
            else (mkStore rs (roomList st), None)
          else (mkStore rs (roomList st), None)
      | None => (mkStore rs (roomList st), None)
      end
  end.

(** The room store of [roomID] after the turn of [applySync]'s loop for
    [(roomID, data)] (lines 167-174): the stored one, or a new one made
    from the payload's [meta], with the payload applied. *)
Definition room_after_sync (rs : gmap RoomID RoomStateStore) (roomID : RoomID)
    (data : SyncRoom) : RoomStateStore :=
  RoomStateStore_applySync (default (RoomStateStore_new (meta data)) (rs !! roomID)) data.

(** Whether no entry of the payload makes the loop of [applySync] file
    the room [roomID] under the changed entries. *)
Definition unchanged_in (rs : gmap RoomID RoomStateStore) (sync : SyncCompleteData)
    (roomID : RoomID) : bool :=
  forallb (fun kv => negb (bool_decide (kv.1 = roomID) && changed_at rs kv.1 kv.2)) sync.

End ApplyDecrypted.

(** The simple room store keeps the events it has; decryption changes
    none of the fields read here. *)
Definition SimpleRoomDecrypt : @RoomDecrypt SimpleRoomStore := {|
  RoomStateStore_applyDecrypted := fun (r : @RoomStateStore SimpleRoomStore) _ => r
|}.

End StatestoreDecrypt.

(** ** Part VII: [websocket.go]: what one batch sends *)

Module WebsocketBatch.
Import Websocket.

(** The rooms the inner loop of [sendInitialData] gets to before its
    [break]: those in front of the first room that has the timestamp of
    the last room of the batch. *)
Fixpoint before_ts (last_ts : Z) (rooms : list Room) : list Room :=
  match rooms with
  | [] => []
  | room :: rest =>
      if decide (SortingTimestamp room = last_ts) then []
      else room :: before_ts last_ts rest
  end.

(** Every room of the payload [later] is older than every room of the
    payload [earlier]. *)
Definition all_older (earlier later : Payload) : Prop :=
  forall id id' sr sr',
    earlier !! id = Some sr -> later !! id' = Some sr' ->
    SortingTimestamp (Meta sr') < SortingTimestamp (Meta sr).

(** Latest first. *)
Definition latest_first (rooms : list Room) : Prop :=
  StronglySorted (fun a b => SortingTimestamp b <= SortingTimestamp a) rooms.

(** Strictly latest first: no two rooms share a timestamp. *)
Definition strictly_latest_first (rooms : list Room) : Prop :=
  StronglySorted (fun a b => SortingTimestamp b < SortingTimestamp a) rooms.

(** Three stored rooms, not in the order of their timestamps. *)
Definition three_rooms : list Room :=
  [mkRoom "!a" 1000 0; mkRoom "!b" 3000 0; mkRoom "!c" 2000 0].

End WebsocketBatch.

(** ** Part VIII: [server.go]: the login handler and the auth middleware *)

Module Http.
Import Server.

(** [http.Cookie], the fields the handlers set. *)
Record Cookie : Type := mkCookie {
  Name : string;
  Value : string;
  Expires : Z;
  HttpOnly : bool
}.

(** What the handlers read of a [*http.Request]: the headers, the path,
    the cookies by name and the credentials of [r.BasicAuth()] ([None]
    when its [ok] is false). *)
Record Request : Type := mkRequest {
  Header : gmap string string;
  URL_Path : string;
  Cookies : gmap string string;
  BasicAuth : option (string * string)
}.

(** [Header.Get]: the empty string for a header that is not there. *)
Definition Header_Get (header : gmap string string) (key : string) : string :=
  default EmptyString (header !! key).

(** [r.Cookie(name)]: [None] is [http.ErrNoCookie]. *)
Definition Request_Cookie (r : Request) (name : string) : option string :=
  Cookies r !! name.

(** What the handlers write to a [http.ResponseWriter]. *)
Record ResponseWriter : Type := mkResponseWriter {
  StatusCode_written : option Z;
  Header_written : gmap string string;
  Cookies_written : list Cookie
}.

Definition empty_response : ResponseWriter := mkResponseWriter None ∅ [].

Definition SetCookie (w : ResponseWriter) (c : Cookie) : ResponseWriter :=
  mkResponseWriter (StatusCode_written w) (Header_written w) (Cookies_written w ++ [c]).

Definition Header_Set (w : ResponseWriter) (key value : string) : ResponseWriter :=
  mkResponseWriter (StatusCode_written w) (<[key := value]> (Header_written w))
    (Cookies_written w).

Definition WriteHeader (w : ResponseWriter) (code : Z) : ResponseWriter :=
  mkResponseWriter (Some code) (Header_written w) (Cookies_written w).

Definition StatusOK : Z := 200.
Definition StatusCreated : Z := 201.
Definition StatusBadRequest : Z := 400.
Definition StatusUnauthorized : Z := 401.
Definition StatusForbidden : Z := 403.

(** [mautrix.RespError] *)
Record RespError : Type := mkRespError {
  ErrCode : string;
  Err : string;
  StatusCode : Z
}.

Definition WithMessage (e : RespError) (msg : string) : RespError :=
  mkRespError (ErrCode e) msg (StatusCode e).

Definition ErrInvalidHeader : RespError :=
  mkRespError "FI.MAU.GOMUKS.INVALID_HEADER" EmptyString StatusBadRequest.
Definition ErrMissingCookie : RespError :=
  mkRespError "FI.MAU.GOMUKS.MISSING_COOKIE" "Missing gomuks_auth cookie" StatusUnauthorized.
Definition ErrInvalidCookie : RespError :=
  mkRespError "FI.MAU.GOMUKS.INVALID_COOKIE" "Invalid gomuks_auth cookie" StatusUnauthorized.

(** [gmx.Config.Web] with the password hash. *)
Record Gomuks : Type := mkGomuks {
  Config_Web : Config;
  PasswordHash : string
}.

(** [crypto/sha256]'s [Sum256] and [bcrypt.CompareHashAndPassword]
    ([true] when it returns no error): library code outside the
    repository. *)
Class Passwords : Type := {
  sha256_Sum256 : string -> string;
  bcrypt_CompareHashAndPassword : string -> string -> bool   (* hash, password *)
}.

Section Handlers.
Context `{CR : Crypto} `{PW : Passwords}.

(** [writeTokenCookie] (lines 124-132); [now] is the [time.Now()] of
    [generateToken]. *)
Definition writeTokenCookie (gmx : Gomuks) (now : Z) (w : ResponseWriter) : ResponseWriter :=
  let '(token, expiry) := generateToken (Config_Web gmx) now in
  SetCookie w (mkCookie "gomuks_auth" token expiry true).

(** [Authenticate] (lines 134-154).  The clock is read twice: [now] by
    [validateAuth], [now'] by [generateToken]. *)
Definition Authenticate (gmx : Gomuks) (now now' : Z) (r : Request) (w : ResponseWriter)
    : ResponseWriter :=
  let authCookie := Request_Cookie r "gomuks_auth" in
  if match authCookie with
     | Some value => validateAuth (Config_Web gmx) now value
     | None => false
     end
  then WriteHeader (writeTokenCookie gmx now' w) StatusOK
  else
    match BasicAuth r with
    | None =>
        WriteHeader
          (Header_Set w "WWW-Authenticate"
             ("Basic realm=" +:+ quote +:+ "gomuks web" +:+ quote +:+ " charset="
                +:+ quote +:+ "UTF-8" +:+ quote))
          StatusUnauthorized
    | Some (username, password) =>
        let usernameHash := sha256_Sum256 username in
        let expectedUsernameHash := sha256_Sum256 (cfg_Username (Config_Web gmx)) in
        let usernameCorrect := String.eqb usernameHash expectedUsernameHash in
        let passwordCorrect := bcrypt_CompareHashAndPassword (PasswordHash gmx) password in
        if usernameCorrect && passwordCorrect
        then WriteHeader (writeTokenCookie gmx now' w) StatusCreated
        else WriteHeader w StatusForbidden
    end.

(** [isUserFetch] (lines 156-161) *)
Definition isUserFetch (header : gmap string string) : bool :=
  String.eqb (Header_Get header "Sec-Fetch-Site") "none" &&
  String.eqb (Header_Get header "Sec-Fetch-Mode") "navigate" &&
  String.eqb (Header_Get header "Sec-Fetch-Dest") "document" &&
  String.eqb (Header_Get header "Sec-Fetch-User") "?1".

(** What the middleware does with a request: it answers with an error,
    or it calls [next.ServeHTTP]. *)
Inductive handled : Type :=
  | WriteError (e : RespError)
  | ServeNext.

(** [AuthMiddleware] (lines 163-181); [now] is the [time.Now()] of
    [validateAuth]. *)
Definition AuthMiddleware (gmx : Gomuks) (now : Z) (r : Request) : handled :=
  if negb (String.eqb (Header_Get (Header r) "Sec-Fetch-Site") "same-origin") &&
     negb (isUserFetch (Header r))
  then WriteError (WithMessage ErrInvalidHeader "Invalid Sec-Fetch-Site header")
  else
    if negb (String.eqb (URL_Path r) "/auth")
    then
      match Request_Cookie r "gomuks_auth" with
      | None => WriteError ErrMissingCookie
      | Some value =>
          if negb (validateAuth (Config_Web gmx) now value)
          then WriteError ErrInvalidCookie
          else ServeNext
      end
    else ServeNext.

End Handlers.

(** A stand-in for the two password functions, to run the handlers on
    concrete input: the "hash" of a string is the string. *)
Definition ToyPasswords : Passwords := {|
  sha256_Sum256 := fun s => s;
  bcrypt_CompareHashAndPassword := fun hash password => String.eqb hash password
|}.

End Http.

(** ** Part IX: [pkg/hicli/paginate.go]: [processGetRoomState] and [GetRoomState] *)

Module HicliState.
Import Hicli.

(** [event.Type] of the protocol library: a name and a class; the two
    types [processGetRoomState] compares with. *)
Inductive TypeClass : Type :=
| UnknownEventType | MessageEventType | StateEventType
| EphemeralEventType | AccountDataEventType | ToDeviceEventType.

Record EventType : Type := mkType {
  Type_name : string;
  Type_class : TypeClass
}.

#[global] Instance TypeClass_eq_dec : EqDecision TypeClass.
Proof. solve_decision. Defined.
#[global] Instance EventType_eq_dec : EqDecision EventType.
Proof. solve_decision. Defined.

Definition StateMember : EventType := mkType "m.room.member" StateEventType.
Definition StateRoomAvatar : EventType := mkType "m.room.avatar" StateEventType.

(** [*event.Event], what [processGetRoomState] reads of it.  The three
    content fields are [evt.Content.Raw[...]] asserted to be a string:
    [None] when the key is missing or holds something else. *)
Record StateEvent : Type := mkStateEvent {
  Type_ : EventType;
  StateKey : option string;
  Raw_membership : option string;
  Raw_avatar_url : option string;
  Raw_url : option string
}.

(** [id.ContentURI] *)
Record ContentURI : Type := mkContentURI {
  Homeserver : string;
  FileID : string
}.

(** [database.CurrentStateEntry] *)
Record CurrentStateEntry : Type := mkCurrentStateEntry {
  cs_EventType : EventType;
  cs_StateKey : string;
  cs_EventRowID : EventRowID;
  cs_Membership : string
}.

(** [database.MediaReference] *)
Record MediaReference : Type := mkMediaReference {
  mr_EventRowID : EventRowID;
  mr_MediaMXC : ContentURI
}.

(** The collaborators: the protocol client, the converters of the
    [database] and [id] packages and the storage engine.  [None] from the
    two client calls is a nil slice.  [MassUpsertState] writes the row ID
    into every event it is handed: it answers with the row ID by index.
    [processImportantEvent] writes into [updatedRoom];
    [CheckChangesAndCopyInto] answers whether anything changed and writes
    into [room]. *)
Class StateEnv : Type := {
  SDB : Type;
  DBEvent : Type;
  DBRoom : Type;
  Room_ID : DBRoom -> RoomID;
  Room_with_member_list : RoomID -> DBRoom;   (* &database.Room{ID: id, HasMemberList: true} *)
  Client_StateAsArray : RoomID -> result (option (list StateEvent));
  Client_Members : RoomID -> result (option (list StateEvent));
  MautrixToEvent : StateEvent -> DBEvent;
  ParseOrIgnore : string -> ContentURI;
  IsValid : ContentURI -> bool;
  State_Room_Get : SDB -> RoomID -> result (option DBRoom);
  Event_MassUpsertState : SDB -> list DBEvent -> result ((nat -> EventRowID) * SDB);
  processImportantEvent : StateEvent -> DBRoom -> DBRoom -> DBRoom;
  Media_AddMany : SDB -> list ContentURI -> result SDB;
  Media_AddManyReferences : SDB -> list MediaReference -> result SDB;
  CurrentState_AddMany : SDB -> RoomID -> bool -> list CurrentStateEntry -> result SDB;
  CheckChangesAndCopyInto : DBRoom -> DBRoom -> bool * DBRoom;
  Room_Upsert : SDB -> DBRoom -> result SDB;
  CurrentState_GetAllExceptMembers : SDB -> RoomID -> result (list DBEvent);
  CurrentState_GetAll : SDB -> RoomID -> result (list DBEvent);
  State_Txn_Begin : SDB -> option error;
  State_Txn_Commit : SDB -> option error
}.

Section RoomState.
Context `{SE : StateEnv}.

(** The calls of one run, oldest first, with what they are handed. *)
Inductive state_effect : Type :=
| EStateAsArray (room : RoomID)
| EMembers (room : RoomID)
| EMassUpsertState (evts : list DBEvent)
| EMediaAddMany (entries : list ContentURI)
| EMediaAddManyReferences (entries : list MediaReference)
| ECurrentStateAddMany (room : RoomID) (deleteOld : bool) (entries : list CurrentStateEntry)
| ERoomUpsert (room : DBRoom)
| EEventHandler (roomID : RoomID) (meta : DBRoom)
| EBackground (roomID : RoomID) (fetchMembers refetch dispatchEvt : bool).

Record StateWorld : Type := mkStateWorld {
  sdb : SDB;
  slog : list state_effect
}.

(** Lines 70-86: which events to work on; [None] is the nil slice. *)
Definition fetch_state (roomID : RoomID) (fetchMembers refetch : bool)
    (lg : list state_effect) : result (option (list StateEvent)) * list state_effect :=
  if refetch then
    match Client_StateAsArray roomID with
    | Err e => (Err (ErrWrap "failed to refetch state" e), lg ++ [EStateAsArray roomID])
    | Ok resp => (Ok resp, lg ++ [EStateAsArray roomID])
    end
  else if fetchMembers then
    match Client_Members roomID with
    | Err e => (Err (ErrWrap "failed to fetch members" e), lg ++ [EMembers roomID])
    | Ok resp => (Ok resp, lg ++ [EMembers roomID])
    end
  else (Ok None, lg).

(** One turn of the first loop (lines 91-110): the current state entry
    of the event and its media, if it has a valid one.  [None] is a
    run-time panic: a nil [StateKey] is dereferenced, or the membership
    of a member event is not a string. *)
Definition state_entry (evt : StateEvent) : option (CurrentStateEntry * option ContentURI) :=
  match StateKey evt with
  | None => None
  | Some key =>
      let with_media (membership mediaURL : string) :=
        let mxc := ParseOrIgnore mediaURL in
        Some (mkCurrentStateEntry (Type_ evt) key 0 membership,
              if IsValid mxc then Some mxc else None) in
      if decide (Type_ evt = StateMember) then
        match Raw_membership evt with
        | None => None
        | Some membership => with_media membership (default "" (Raw_avatar_url evt))
        end
      else if decide (Type_ evt = StateRoomAvatar) then
        with_media "" (default "" (Raw_url evt))
      else with_media "" ""
  end.

(** The four arrays after the first loop: [dbEvts],
    [currentStateEntries], [mediaReferenceEntries] (with its nil holes)
    and [mediaCacheEntries]. *)
Record Arrays : Type := mkArrays {
  dbEvts : list DBEvent;
  currentStateEntries : list CurrentStateEntry;
  mediaReferenceEntries : list (option MediaReference);
  mediaCacheEntries : list ContentURI
}.

Fixpoint build_arrays (evts : list StateEvent) : option Arrays :=
  match evts with
  | [] => Some (mkArrays [] [] [] [])
  | evt :: rest =>
      match state_entry evt with
      | None => None
      | Some (entry, media) =>
          match build_arrays rest with
          | None => None
          | Some a =>
              Some (mkArrays (MautrixToEvent evt :: dbEvts a)
                             (entry :: currentStateEntries a)
                             ((mkMediaReference 0 <$> media) :: mediaReferenceEntries a)
                             (match media with
                              | Some mxc => mxc :: mediaCacheEntries a
                              | None => mediaCacheEntries a
                              end))
          end
      end
  end.

(** The second loop (lines 124-132), from index [i] on: the row IDs
    are written into the entries and the references, and every event that
    is not a member event goes through [processImportantEvent]. *)
Fixpoint assign_rows (rows : nat -> EventRowID) (i : nat) (evts : list StateEvent)
    (entries : list CurrentStateEntry) (refs : list (option MediaReference))
    (room updatedRoom : DBRoom)
    : list CurrentStateEntry * list (option MediaReference) * DBRoom :=
  match evts, entries, refs with
  | evt :: evts', entry :: entries', ref :: refs' =>
      let entry := mkCurrentStateEntry (cs_EventType entry) (cs_StateKey entry) (rows i)
                                       (cs_Membership entry) in
      let ref := (fun r => mkMediaReference (rows i) (mr_MediaMXC r)) <$> ref in
      let updatedRoom :=
        if decide (Type_ evt = StateMember) then updatedRoom
        else processImportantEvent evt room updatedRoom in
      let '(entries'', refs'', updatedRoom) :=
        assign_rows rows (S i) evts' entries' refs' room updatedRoom in
      (entry :: entries'', ref :: refs'', updatedRoom)
  | _, _, _ => ([], [], updatedRoom)
  end.

(** The closure passed to [DoTxn] (lines 111-173) on the database and
    the log. *)
Definition state_closure (roomID : RoomID) (refetch dispatchEvt : bool)
    (evts : list StateEvent) (a : Arrays) (d : SDB) (lg : list state_effect)
    : exit unit * SDB * list state_effect :=
  match State_Room_Get d roomID with
  | Err e => (Fail (ErrWrap "failed to get room from database" e), d, lg)
  | Ok None => (Crash "nil pointer dereference", d, lg)
  | Ok (Some room) =>
      let updatedRoom := Room_with_member_list (Room_ID room) in
      let lg := lg ++ [EMassUpsertState (dbEvts a)] in
      match Event_MassUpsertState d (dbEvts a) with
      | Err e => (Fail (ErrWrap "failed to save events" e), d, lg)
      | Ok (rows, d) =>
          let '(entries, refs, updatedRoom) :=
            assign_rows rows 0 evts (currentStateEntries a) (mediaReferenceEntries a)
                        room updatedRoom in
          let lg := lg ++ [EMediaAddMany (mediaCacheEntries a)] in
          match Media_AddMany d (mediaCacheEntries a) with
          | Err e => (Fail (ErrWrap "failed to save media cache entries" e), d, lg)
          | Ok d =>
              (* slices.DeleteFunc(mediaReferenceEntries, reference == nil) *)
              let refs := omap id refs in
              let lg := lg ++ [EMediaAddManyReferences refs] in
              match Media_AddManyReferences d refs with
              | Err e => (Fail (ErrWrap "failed to save media reference entries" e), d, lg)
              | Ok d =>
                  let lg := lg ++ [ECurrentStateAddMany (Room_ID room) refetch entries] in
                  match CurrentState_AddMany d (Room_ID room) refetch entries with
                  | Err e => (Fail (ErrWrap "failed to save current state entries" e), d, lg)
                  | Ok d =>
                      let '(roomChanged, room) := CheckChangesAndCopyInto updatedRoom room in
                      if roomChanged then
                        let lg := lg ++ [ERoomUpsert updatedRoom] in
                        match Room_Upsert d updatedRoom with
                        | Err e => (Fail (ErrWrap "failed to save room data" e), d, lg)
                        | Ok d =>
                            if dispatchEvt
                            then (Done tt, d, lg ++ [EEventHandler roomID room])
                            else (Done tt, d, lg)
                        end
                      else (Done tt, d, lg)
                  end
              end
          end
      end
  end.

(** [h.DB.DoTxn]: the writes of the closure are kept only if it returns
    nil and the commit succeeds; the calls it made stay made. *)
Definition state_DoTxn (body : SDB -> list state_effect -> exit unit * SDB * list state_effect)
    (d : SDB) (lg : list state_effect) : exit unit * SDB * list state_effect :=
  match State_Txn_Begin d with
  | Some e => (Fail e, d, lg)
  | None =>
      let '(r, d', lg') := body d lg in
      match r with
      | Done tt =>
          match State_Txn_Commit d' with
          | Some e => (Fail e, d, lg')
          | None => (Done tt, d', lg')
          end
      | Fail e => (Fail e, d, lg')
      | Crash s => (Crash s, d, lg')
      end
  end.

(** [processGetRoomState] (lines 69-174): it returns an error or nil,
    or it panics. *)
Definition processGetRoomState (roomID : RoomID) (fetchMembers refetch dispatchEvt : bool)
    (w : StateWorld) : completion (option error) * StateWorld :=
  let '(fetched, lg) := fetch_state roomID fetchMembers refetch (slog w) in
  match fetched with
  | Err e => (Returned (Some e), mkStateWorld (sdb w) lg)
  | Ok None => (Returned None, mkStateWorld (sdb w) lg)
  | Ok (Some evts) =>
      match build_arrays evts with
      | None => (Panicked "invalid memory address or interface conversion", mkStateWorld (sdb w) lg)
      | Some a =>
          let '(r, d, lg) :=
            state_DoTxn (state_closure roomID refetch dispatchEvt evts a) (sdb w) lg in
          (match r with
           | Done tt => Returned None
           | Fail e => Returned (Some e)
           | Crash s => Panicked s
           end, mkStateWorld d lg)
      end
  end.

(** [GetRoomState] (lines 176-196).  The goroutine it starts when the
    members are not asked for is logged as started; its run is a call of
    [processGetRoomState] of its own, at a time of the scheduler's
    choosing. *)
Definition GetRoomState (roomID : RoomID) (includeMembers fetchMembers refetch : bool)
    (w : StateWorld) : completion (result (list DBEvent)) * StateWorld :=
  let read (w : StateWorld) :=
    (Returned (if negb includeMembers
               then CurrentState_GetAllExceptMembers (sdb w) roomID
               else CurrentState_GetAll (sdb w) roomID), w) in
  if fetchMembers || refetch then
    if negb includeMembers then
      read (mkStateWorld (sdb w) (slog w ++ [EBackground roomID fetchMembers refetch true]))
    else
      match processGetRoomState roomID fetchMembers refetch false w with
      | (Panicked s, w') => (Panicked s, w')
      | (Returned (Some e), w') => (Returned (Err e), w')
      | (Returned None, w') => read w'
      end
  else read w.

(** *** What the arrays are meant to hold *)

(** The membership the first loop files an event under. *)
Definition membership_of (evt : StateEvent) : string :=
  if decide (Type_ evt = StateMember) then default "" (Raw_membership evt) else "".

(** The media of the events that have a valid one, in the order of the
    events, each with the index of its event. *)
Fixpoint media_of (i : nat) (evts : list StateEvent) : list (nat * ContentURI) :=
  match evts with
  | [] => []
  | evt :: rest =>
      match state_entry evt with
      | Some (_, Some mxc) => (i, mxc) :: media_of (S i) rest
      | _ => media_of (S i) rest
      end
  end.

(** The calls of the event handler in a log. *)
Fixpoint dispatched (lg : list state_effect) : list (RoomID * DBRoom) :=
  match lg with
  | [] => []
  | EEventHandler roomID meta :: rest => (roomID, meta) :: dispatched rest
  | _ :: rest => dispatched rest
  end.

(** [updatedRoom] after the second loop. *)
Definition important_events (evts : list StateEvent) (room updatedRoom : DBRoom) : DBRoom :=
  foldl (fun updated evt =>
           if decide (Type_ evt = StateMember) then updated
           else processImportantEvent evt room updated) updatedRoom evts.

(** The ways the closure ends, with the calls it has made: before
    anything is saved, at the first save, at one of the four saves after
    it (by [stage]), or with nil. *)
Inductive closure_end (roomID : RoomID) (refetch dispatchEvt : bool)
    (evts : list StateEvent) (d : SDB) (r : exit unit) (new : list state_effect) : Prop :=
| end_no_room :
    (exists e, r = Fail e) \/ (exists s, r = Crash s) -> new = [] ->
    closure_end roomID refetch dispatchEvt evts d r new
| end_saving room rows d1 entries (stage : nat) :
    State_Room_Get d roomID = Ok (Some room) ->
    Event_MassUpsertState d (MautrixToEvent <$> evts) = Ok (rows, d1) ->
    (exists e, r = Fail e) ->
    new = EMassUpsertState (MautrixToEvent <$> evts) ::
          take (S stage)
            [EMediaAddMany (media_of 0 evts).*2;
             EMediaAddManyReferences
               ((fun p => mkMediaReference (rows p.1) p.2) <$> media_of 0 evts);
             ECurrentStateAddMany (Room_ID room) refetch entries;
             ERoomUpsert (important_events evts room (Room_with_member_list (Room_ID room)))] ->
    closure_end roomID refetch dispatchEvt evts d r new
| end_upsert_failed :
    (exists e, r = Fail e) -> new = [EMassUpsertState (MautrixToEvent <$> evts)] ->
    closure_end roomID refetch dispatchEvt evts d r new
| end_done room rows d1 entries tail :
    State_Room_Get d roomID = Ok (Some room) ->
    Event_MassUpsertState d (MautrixToEvent <$> evts) = Ok (rows, d1) ->
    r = Done tt ->
    new = [EMassUpsertState (MautrixToEvent <$> evts);
           EMediaAddMany (media_of 0 evts).*2;
           EMediaAddManyReferences
             ((fun p => mkMediaReference (rows p.1) p.2) <$> media_of 0 evts);
           ECurrentStateAddMany (Room_ID room) refetch entries] ++ tail ->
    length entries = length evts ->
    (forall j evt, evts !! j = Some evt ->
       exists key, StateKey evt = Some key /\
         entries !! j = Some (mkCurrentStateEntry (Type_ evt) key (rows j) (membership_of evt))) ->
    (let updated := important_events evts room (Room_with_member_list (Room_ID room)) in
     let changed := CheckChangesAndCopyInto updated room in
     tail = if changed.1
            then ERoomUpsert updated ::
                 (if dispatchEvt then [EEventHandler roomID changed.2] else [])
            else []) ->
    closure_end roomID refetch dispatchEvt evts d r new.

End RoomState.

(** A stand-in for the collaborators, to run the functions on concrete
    events: the store is the list of the state events saved so far, a
    room is its ID and whether anything important was seen, and a media
    URL is valid when it is not empty; [commit] is what every commit
    answers. *)
Definition ToyStateEnv (server : list StateEvent) (commit : option error) : StateEnv := {|
  SDB := list StateEvent;
  DBEvent := StateEvent;
  DBRoom := RoomID * bool;
  Room_ID := fst;
  Room_with_member_list := fun id => (id, false);
  Client_StateAsArray := fun _ => Ok (Some server);
  Client_Members := fun _ =>
    Ok (Some (List.filter (fun evt => bool_decide (Type_ evt = StateMember)) server));
  MautrixToEvent := fun evt => evt;
  ParseOrIgnore := fun url => mkContentURI "example.org" url;
  IsValid := fun mxc => negb (String.eqb (FileID mxc) "");
  State_Room_Get := fun _ id => Ok (Some (id, false));
  Event_MassUpsertState := fun d evts => Ok (fun i => Z.of_nat (length d + i) + 1, d ++ evts);
  processImportantEvent := fun _ _ updated => (updated.1, true);
  Media_AddMany := fun d _ => Ok d;
  Media_AddManyReferences := fun d _ => Ok d;
  CurrentState_AddMany := fun d _ _ _ => Ok d;
  CheckChangesAndCopyInto := fun updated room => (updated.2, (room.1, updated.2));
  Room_Upsert := fun d _ => Ok d;
  CurrentState_GetAllExceptMembers := fun d _ =>
    Ok (List.filter (fun evt => negb (bool_decide (Type_ evt = StateMember))) d);
  CurrentState_GetAll := fun d _ => Ok d;
  State_Txn_Begin := fun _ => None;
  State_Txn_Commit := fun _ => commit
|}.

(** A member with an avatar, the room name, and the room avatar. *)
Definition toy_state : list StateEvent :=
  [mkStateEvent StateMember (Some "@a:example.org") (Some "join") (Some "mxc://a") None;
   mkStateEvent (mkType "m.room.name" StateEventType) (Some "") None None None;
   mkStateEvent StateRoomAvatar (Some "") None None (Some "mxc://r")].

End HicliState.

(** * Properties *)

(** ** Properties of [PaginateServer] *)

Module HicliSpec.
Import Hicli.

Section PaginateProofs.
Context `{E : Env}.

Ltac msimpl :=
  repeat (cbn [mbind mret M_bind M_ret fail crash get_db put_db emit get_events
                 put_events put_wakeup try slice_set t_db t_log t_events t_wakeup
                 eventRowIDs decryptionQueue iOffset id fst snd];
          unfold mbind, mret, M_bind, M_ret, fail, crash, get_db, put_db, emit,
                 get_events, put_events, put_wakeup, try, slice_set).

#[local] Arguments fresh_events : simpl never.
#[local] Arguments duplicates : simpl never.

Ltac psimpl :=
  cbn [t_db t_log t_events t_wakeup eventRowIDs decryptionQueue iOffset] in *.

Lemma fresh_events_cons_dup e tl :
  fresh_events ((e, true) :: tl) = fresh_events tl.
Proof. reflexivity. Qed.

Lemma fresh_events_cons_new e tl :
  fresh_events ((e, false) :: tl) = e :: fresh_events tl.
Proof. reflexivity. Qed.

Lemma duplicates_cons_dup e tl :
  duplicates ((e, true) :: tl) = S (duplicates tl).
Proof. reflexivity. Qed.

Lemma duplicates_cons_new e tl :
  duplicates ((e, false) :: tl) = duplicates tl.
Proof. reflexivity. Qed.

Lemma fresh_plus_duplicates view :
  (length (fresh_events view) + duplicates view = length view)%nat.
Proof.
  induction view as [|[e [|]] tl IH].
  - reflexivity.
  - rewrite fresh_events_cons_dup, duplicates_cons_dup. simpl. lia.
  - rewrite fresh_events_cons_new, duplicates_cons_new. simpl. lia.
Qed.

Lemma page_view_length roomID summary chunk d q view :
  page_view roomID summary chunk d q = Some view -> length view = length chunk.
Proof.
  revert d q view. induction chunk as [|evt rest IH]; intros d q view; simpl.
  - intros [= <-]. reflexivity.
  - destruct (processEvent d evt summary q) as [[[dbEvt q'] d']|]; [|discriminate].
    destruct (Timeline_Has d' roomID (RowID dbEvt)) as [dup|]; [|discriminate].
    destruct (page_view roomID summary rest d' q') as [tl|] eqn:Htl; [|discriminate].
    intros [= <-]. simpl. f_equal. eauto.
Qed.

(** The loop invariant: after the entries before index [i] have been
    handled, the first [i - iOffset] slots of both arrays hold what was
    kept so far; the remaining entries are appended to that prefix. *)
Lemma loop_spec roomID summary chunk : forall i l v view n,
  (iOffset l <= i)%nat ->
  (i + length chunk = n)%nat ->
  length (t_events v) = n ->
  length (eventRowIDs l) = n ->
  page_view roomID summary chunk (t_db v) (decryptionQueue l) = Some view ->
  exists l' v',
    loop roomID summary i chunk l v = (Done l', v') /\
    iOffset l' = (iOffset l + duplicates view)%nat /\
    t_log v' = t_log v /\ t_wakeup v' = t_wakeup v /\
    length (t_events v') = n /\ length (eventRowIDs l') = n /\
    take (i - iOffset l + length (fresh_events view)) (t_events v') =
      take (i - iOffset l) (t_events v) ++ (Some <$> fresh_events view) /\
    take (i - iOffset l + length (fresh_events view)) (eventRowIDs l') =
      take (i - iOffset l) (eventRowIDs l) ++ (RowID <$> fresh_events view) /\
    page_queue roomID summary chunk (t_db v) (decryptionQueue l) =
      Some (decryptionQueue l').
Proof.
  induction chunk as [|evt rest IH]; intros i l v view n Hoff Hn Hev Hrows Hview.
  - simpl in Hview. injection Hview as <-. exists l, v. simpl.
    rewrite Nat.add_0_r, !app_nil_r. unfold duplicates. simpl.
    rewrite Nat.add_0_r. repeat split; auto.
  - simpl in Hview.
    destruct (processEvent (t_db v) evt summary (decryptionQueue l))
      as [[[dbEvt q'] d']|] eqn:Hproc; [|discriminate].
    destruct (Timeline_Has d' roomID (RowID dbEvt)) as [dup|] eqn:Hhas; [|discriminate].
    destruct (page_view roomID summary rest d' q') as [tl|] eqn:Htl; [|discriminate].
    injection Hview as <-.
    simpl in Hn.
    destruct dup.
    + (* the row is already in the timeline: iOffset++ *)
      set (l1 := mkLoop (eventRowIDs l) q' (S (iOffset l))).
      set (v1 := mkVars d' (t_log v) (t_events v) (t_wakeup v)).
      destruct (IH (S i) l1 v1 tl n) as (l' & v' & Hrun & Hoff' & Hlog & Hw & Hlen & Hlen' & Hev' & Hrows' & Hq');
        subst l1 v1; psimpl; auto; try lia.
      exists l', v'.
      rewrite fresh_events_cons_dup, duplicates_cons_dup. psimpl.
      assert (Hq : page_queue roomID summary (evt :: rest) (t_db v) (decryptionQueue l)
                   = Some (decryptionQueue l')).
      { cbn [page_queue]. rewrite Hproc, Hhas. exact Hq'. }
      repeat split; auto; try lia.
      cbn [loop]. unfold loop_body. msimpl. rewrite Hproc. msimpl. rewrite Hhas. msimpl.
      exact Hrun.
    + (* a new row: write it at index i - iOffset *)
      set (idx := (i - iOffset l)%nat).
      assert (Hidx : (idx < n)%nat) by (subst idx; lia).
      set (l1 := mkLoop (<[idx := RowID dbEvt]> (eventRowIDs l)) q' (iOffset l)).
      set (v1 := mkVars d' (t_log v) (<[idx := Some dbEvt]> (t_events v)) (t_wakeup v)).
      destruct (IH (S i) l1 v1 tl n) as (l' & v' & Hrun & Hoff' & Hlog & Hw & Hlen & Hlen' & Hev' & Hrows' & Hq');
        subst l1 v1; psimpl; auto; try lia.
      { rewrite length_insert. exact Hev. }
      { rewrite length_insert. exact Hrows. }
      exists l', v'.
      rewrite fresh_events_cons_new, duplicates_cons_new. psimpl.
      replace (S i - iOffset l)%nat with (S idx) in * by (subst idx; lia).
      fold idx.
      assert (Hq : page_queue roomID summary (evt :: rest) (t_db v) (decryptionQueue l)
                   = Some (decryptionQueue l')).
      { cbn [page_queue]. rewrite Hproc, Hhas. exact Hq'. }
      repeat split; auto.
      * cbn [loop]. unfold loop_body. msimpl. rewrite Hproc. msimpl. rewrite Hhas. msimpl.
        fold idx.
        destruct (decide (idx < length (t_events v))%nat) as [_|Hno]; [|lia].
        msimpl. rewrite list_lookup_insert_eq by lia.
        destruct (decide (idx < length (eventRowIDs l))%nat) as [_|Hno]; [|lia].
        msimpl. exact Hrun.
      * simpl length. replace (idx + S (length (fresh_events tl)))%nat
          with (S idx + length (fresh_events tl))%nat by lia.
        rewrite Hev'.
        rewrite (take_S_r _ _ (Some dbEvt)) by (apply list_lookup_insert_eq; lia).
        rewrite take_insert_ge by lia.
        rewrite <- app_assoc. reflexivity.
      * simpl length. replace (idx + S (length (fresh_events tl)))%nat
          with (S idx + length (fresh_events tl))%nat by lia.
        rewrite Hrows'.
        rewrite (take_S_r _ _ (RowID dbEvt)) by (apply list_lookup_insert_eq; lia).
        rewrite take_insert_ge by lia.
        rewrite <- app_assoc. reflexivity.
Qed.


(** Writes by callees keep every row identifier. *)
Lemma update_each_rows f events :
  (forall e, RowID (f e) = RowID e) ->
  map (option_map RowID) (update_each f events) = map (option_map RowID) events.
Proof.
  intros Hf. unfold update_each. rewrite map_map. apply map_ext.
  intros [e|]; simpl; [rewrite Hf|]; reflexivity.
Qed.

Lemma put_all_spec entries : forall v r v',
  put_all entries v = (r, v') ->
  t_events v' = t_events v /\ t_wakeup v' = t_wakeup v /\
  (r = Done tt \/ exists e, r = Fail e) /\
  exists puts, t_log v' = t_log v ++ (ESessionRequestPut <$> puts) /\
               (r = Done tt -> puts = entries.*1).
Proof.
  induction entries as [|[sid entry] rest IH]; intros v r v'.
  - intros [= <- <-]. repeat split; eauto. exists []. simpl.
    rewrite app_nil_r. auto.
  - cbn [put_all]. msimpl.
    destruct (SessionRequest_Put (t_db v) entry) as [d'|e] eqn:Hput; msimpl.
    + intros Hrun. apply IH in Hrun as (Hev & Hw & Hr & puts & Hlog & Hall).
      psimpl. repeat split; auto.
      exists (sid :: puts). rewrite Hlog, <- app_assoc. split; [reflexivity|].
      intros Hdone. simpl. f_equal. auto.
    + intros [= <- <-]. repeat split; eauto. exists []. simpl.
      rewrite app_nil_r. split; [reflexivity | discriminate].
Qed.

Lemma assign_timeline_spec events tuples : forall i v r v',
  assign_timeline i events tuples v = (r, v') ->
  v' = v /\
  forall events', r = Done events' ->
    map (option_map RowID) events' = map (option_map RowID) events.
Proof.
  induction events as [|evt rest IH]; intros i v r v'.
  - intros [= <- <-]. split; [reflexivity|]. intros ? [= <-]. reflexivity.
  - cbn [assign_timeline].
    destruct (tuples !! i) as [t|]; [|intros [= <- <-]; split; [reflexivity | discriminate]].
    destruct evt as [e|]; [|intros [= <- <-]; split; [reflexivity | discriminate]].
    msimpl.
    destruct (assign_timeline (S i) rest tuples v) as [r0 v0] eqn:Hrest.
    apply IH in Hrest as [-> Hrows].
    destruct r0 as [rest'| |]; intros [= <- <-]; split; try reflexivity; try discriminate.
    intros ? [= <-]. simpl. f_equal. apply Hrows. reflexivity.
Qed.


Lemma bind_done {A B} (m : M A) (k : A -> M B) v a v1 :
  m v = (Done a, v1) -> (m ≫= k) v = k a v1.
Proof. intros H. unfold mbind, M_bind. rewrite H. reflexivity. Qed.

Lemma txn_closure_spec roomID room_ID summary chunk End v view q r v' :
  ctx_Err = None ->
  t_events v = replicate (length chunk) None ->
  page_view roomID summary chunk (t_db v) ∅ = Some view ->
  page_queue roomID summary chunk (t_db v) ∅ = Some q ->
  txn_closure roomID room_ID summary chunk End v = (r, v') ->
  map (option_map RowID) (t_events v') =
    map (fun e => Some (RowID e)) (fresh_events view) /\
  ((fresh_events view = [] /\ r = Done tt /\
    t_log v' = t_log v /\ t_wakeup v' = t_wakeup v) \/
   (fresh_events view <> [] /\
    t_wakeup v' = bool_decide (0 < size q)%nat /\
    exists puts stage,
      t_log v' = t_log v ++ (ESessionRequestPut <$> puts) ++
                 closure_tail room_ID End (RowID <$> fresh_events view) stage /\
      (r = Done tt -> puts = (map_to_list q).*1 /\ stage = 2%nat))).
Proof.
  intros Hctx Hev Hview Hq. unfold txn_closure. rewrite Hctx.
  destruct (loop_spec roomID summary chunk 0
              (mkLoop (replicate (length chunk) 0) ∅ 0) v view (length chunk))
    as (l' & v1 & Hrun & Hoff & Hlog & Hw & Hlen & Hlen' & Hev' & Hrows' & Hq');
    psimpl; try lia; auto.
  { rewrite Hev. apply length_replicate. }
  { apply length_replicate. }
  rewrite Hq in Hq'. injection Hq' as ->.
  rewrite (bind_done _ _ _ _ _ Hrun).
  cbn [Nat.sub Nat.add] in Hev', Hrows'. rewrite take_0 in Hev'. rewrite take_0 in Hrows'.
  cbn [app] in Hev', Hrows'. simpl in Hoff.
  pose proof (fresh_plus_duplicates view) as Hsum.
  pose proof (page_view_length _ _ _ _ _ _ Hview) as Hvl.
  msimpl.
  destruct (decide (length (t_events v1) <= iOffset l')%nat) as [Hall|Hsome].
  - (* every event of the page is already in the timeline *)
    intros [= <- <-]. psimpl.
    assert (Hnil : fresh_events view = []).
    { apply length_zero_iff_nil. lia. }
    rewrite Hnil. split; [reflexivity|]. left. auto.
  - assert (Hk : (length (t_events v1) - iOffset l' = length (fresh_events view))%nat) by lia.
    assert (Hk' : (length (eventRowIDs l') - iOffset l' = length (fresh_events view))%nat) by lia.
    rewrite Hk, Hk', Hev', Hrows'.
    assert (Hne : fresh_events view <> []).
    { intros Hnil. rewrite Hnil in Hk. simpl in Hk. lia. }
    set (evs := Some <$> fresh_events view).
    assert (Hevs : map (option_map RowID) evs =
                   map (fun e => Some (RowID e)) (fresh_events view)).
    { subst evs. rewrite map_map. reflexivity. }
    destruct (put_all _ _) as [r0 v0] eqn:Hputs.
    apply put_all_spec in Hputs as (Hev0 & Hw0 & Hr0 & puts & Hlog0 & Hputs).
    psimpl.
    assert (Hrows1 : forall f, map (option_map RowID)
              (update_each (fun e => set_Reactions (f (RowID e)) e) evs) =
              map (fun e => Some (RowID e)) (fresh_events view)).
    { intros f. rewrite update_each_rows; auto. }
    assert (Hrows2 : forall f g, map (option_map RowID)
              (update_each (fun e => set_LastEditRowID (g (RowID e)) e)
                 (update_each (fun e => set_Reactions (f (RowID e)) e) evs)) =
              map (fun e => Some (RowID e)) (fresh_events view)).
    { intros f g. rewrite update_each_rows; auto. }
    destruct Hr0 as [-> | [e ->]].
    + specialize (Hputs eq_refl).
      destruct (Event_FillReactionCounts _ _ _) as [f|e].
      2:{ intros [= <- <-]. rewrite Hev0. split; [exact Hevs|]. right.
          repeat split; auto. exists puts, 0%nat. rewrite Hlog0, Hlog.
          split; [simpl; rewrite app_nil_r; reflexivity | discriminate]. }
      destruct (Event_FillLastEditRowIDs _ _ _) as [g|e].
      2:{ intros [= <- <-]. psimpl. split; [apply Hrows1|]. right.
          repeat split; auto. exists puts, 0%nat. rewrite Hlog0, Hlog.
          split; [simpl; rewrite app_nil_r; reflexivity | discriminate]. }
      destruct (Room_SetPrevBatch _ _ _) as [d'|e].
      2:{ intros [= <- <-]. psimpl. split; [apply Hrows2|]. right.
          repeat split; auto. exists puts, 1%nat. rewrite Hlog0, Hlog.
          split; [simpl; rewrite <- app_assoc; reflexivity | discriminate]. }
      destruct (Timeline_Prepend _ _ _) as [[tuples d'']|e].
      2:{ intros [= <- <-]. psimpl. split; [apply Hrows2|]. right.
          repeat split; auto. exists puts, 2%nat. rewrite Hlog0, Hlog.
          split; [simpl; rewrite <- !app_assoc; reflexivity | discriminate]. }
      psimpl.
      destruct (assign_timeline _ _ _ _) as [r5 v5] eqn:Hassign.
      apply assign_timeline_spec in Hassign as [-> Hrows5].
      destruct r5 as [events'| |]; intros [= <- <-]; psimpl.
      * split; [rewrite (Hrows5 _ eq_refl); apply Hrows2|]. right.
        repeat split; auto. exists puts, 2%nat. rewrite Hlog0, Hlog.
        split; [simpl; rewrite <- !app_assoc; reflexivity | auto].
      * split; [apply Hrows2|]. right.
        repeat split; auto. exists puts, 2%nat. rewrite Hlog0, Hlog.
        split; [simpl; rewrite <- !app_assoc; reflexivity | discriminate].
      * split; [apply Hrows2|]. right.
        repeat split; auto. exists puts, 2%nat. rewrite Hlog0, Hlog.
        split; [simpl; rewrite <- !app_assoc; reflexivity | discriminate].
    + intros [= <- <-]. rewrite Hev0. split; [exact Hevs|]. right.
      repeat split; auto. exists puts, 0%nat. rewrite Hlog0, Hlog.
      split; [simpl; rewrite app_nil_r; reflexivity | discriminate].
Qed.


(** When the processor or the timeline lookup fails on some entry, the
    loop returns that error (it never panics: every index it writes is in
    range). *)
Lemma loop_fails roomID summary chunk : forall i l v n,
  (iOffset l <= i)%nat ->
  (i + length chunk = n)%nat ->
  length (t_events v) = n ->
  length (eventRowIDs l) = n ->
  page_view roomID summary chunk (t_db v) (decryptionQueue l) = None ->
  exists e v', loop roomID summary i chunk l v = (Fail e, v').
Proof.
  induction chunk as [|evt rest IH]; intros i l v n Hoff Hn Hev Hrows Hview.
  - discriminate.
  - cbn [page_view] in Hview. cbn [loop]. unfold loop_body. msimpl.
    simpl in Hn.
    destruct (processEvent (t_db v) evt summary (decryptionQueue l))
      as [[[dbEvt q'] d']|e] eqn:Hproc; msimpl; [|eauto].
    destruct (Timeline_Has d' roomID (RowID dbEvt)) as [dup|e] eqn:Hhas; msimpl; [|eauto].
    destruct (page_view roomID summary rest d' q') as [tl|] eqn:Htl; [discriminate|].
    destruct dup; msimpl.
    + apply (IH (S i) (mkLoop (eventRowIDs l) q' (S (iOffset l)))
                (mkVars d' (t_log v) (t_events v) (t_wakeup v)) n);
        psimpl; auto; lia.
    + set (idx := (i - iOffset l)%nat).
      destruct (decide (idx < length (t_events v))%nat) as [_|Hno]; [|subst idx; lia].
      msimpl. rewrite list_lookup_insert_eq by (subst idx; lia).
      destruct (decide (idx < length (eventRowIDs l))%nat) as [_|Hno]; [|subst idx; lia].
      msimpl.
      apply (IH (S i) (mkLoop (<[idx := RowID dbEvt]> (eventRowIDs l)) q' (iOffset l))
                (mkVars d' (t_log v) (<[idx := Some dbEvt]> (t_events v)) (t_wakeup v)) n);
        psimpl; auto; try lia; rewrite length_insert; auto.
Qed.

(** The path of [paginate_body] that applies a page in a transaction. *)
Lemma paginate_body_txn roomID limit d lg room_ID PrevBatch summary Chunk End :
  Room_Get d roomID = Ok (Some (room_ID, PrevBatch, summary)) ->
  PrevBatch <> PrevBatchPaginationComplete ->
  Client_Messages roomID PrevBatch limit = Ok (Chunk, End) ->
  End <> "" -> End <> PrevBatchPaginationComplete -> Chunk <> [] ->
  paginate_body roomID limit d lg =
    let '(r, v) := DoTxn (txn_closure roomID room_ID summary Chunk End)
                     (mkVars d (lg ++ [EMessages roomID PrevBatch limit])
                             (replicate (length Chunk) None) false) in
    match r with
    | Crash s => (Panicked s, t_db v, t_log v)
    | Done tt =>
        (Returned (Some (mkResp (t_events v) true), None), t_db v,
         if t_wakeup v then t_log v ++ [EWakeupRequestQueue] else t_log v)
    | Fail e => (Returned (Some (mkResp (t_events v) true), Some e), t_db v, t_log v)
    end.
Proof.
  intros Hroom Hpb Hmsg Hend1 Hend2 Hchunk. unfold paginate_body.
  rewrite Hroom. destruct (decide (PrevBatch = _)) as [|_]; [contradiction|].
  rewrite Hmsg. destruct (decide (End = "")) as [|_]; [contradiction|].
  destruct (decide (_ \/ _)) as [[|Hlen]|_]; [contradiction| |reflexivity].
  destruct Chunk; [contradiction | discriminate].
Qed.


(** The loop calls nothing that is logged and does not touch
    [wakeupSessionRequests], however it ends. *)
Lemma loop_log roomID summary chunk : forall i l v r v',
  loop roomID summary i chunk l v = (r, v') ->
  t_log v' = t_log v /\ t_wakeup v' = t_wakeup v.
Proof.
  induction chunk as [|evt rest IH]; intros i l v r v'.
  - intros [= <- <-]. auto.
  - cbn [loop]. unfold loop_body. msimpl.
    destruct (processEvent (t_db v) evt summary (decryptionQueue l))
      as [[[dbEvt q'] d']|e]; msimpl; [|intros [= <- <-]; auto].
    destruct (Timeline_Has d' roomID (RowID dbEvt)) as [dup|e]; msimpl;
      [|intros [= <- <-]; auto].
    destruct dup; msimpl.
    + intros Hrun. apply IH in Hrun. exact Hrun.
    + destruct (decide (_ < _)%nat); msimpl; [|intros [= <- <-]; auto].
      destruct (_ !! _) as [[e|]|]; msimpl; try (intros [= <- <-]; auto).
      destruct (decide (_ < _)%nat); msimpl; [|intros [= <- <-]; auto].
      intros Hrun. apply IH in Hrun. exact Hrun.
Qed.

Lemma page_view_queue roomID summary chunk : forall d q view,
  page_view roomID summary chunk d q = Some view ->
  exists q', page_queue roomID summary chunk d q = Some q'.
Proof.
  induction chunk as [|evt rest IH]; intros d q view; simpl.
  - eauto.
  - destruct (processEvent d evt summary q) as [[[dbEvt q'] d']|]; [|discriminate].
    destruct (Timeline_Has d' roomID (RowID dbEvt)) as [dup|]; [|discriminate].
    destruct (page_view roomID summary rest d' q') as [tl|] eqn:Htl; [|discriminate].
    intros _. eauto.
Qed.

Lemma txn_closure_cases roomID room_ID summary chunk End v r v' :
  t_events v = replicate (length chunk) None ->
  txn_closure roomID room_ID summary chunk End v = (r, v') ->
  ((exists e, r = Fail e) /\ t_log v' = t_log v /\ t_wakeup v' = t_wakeup v) \/
  (exists view q,
     page_view roomID summary chunk (t_db v) ∅ = Some view /\
     page_queue roomID summary chunk (t_db v) ∅ = Some q /\
     page_applied room_ID End view q r v v').
Proof.
  intros Hev Hrun.
  destruct ctx_Err as [e|] eqn:Hctx.
  { left. unfold txn_closure in Hrun. rewrite Hctx in Hrun.
    injection Hrun as <- <-. eauto. }
  destruct (page_view roomID summary chunk (t_db v) ∅) as [view|] eqn:Hview.
  - right. destruct (page_view_queue _ _ _ _ _ _ Hview) as [q Hq].
    exists view, q. repeat split; auto;
      eapply txn_closure_spec; eauto.
  - left. unfold txn_closure in Hrun. rewrite Hctx in Hrun.
    destruct (loop_fails roomID summary chunk 0
                (mkLoop (replicate (length chunk) 0) ∅ 0) v (length chunk))
      as (e & v1 & Hloop); psimpl; auto; try lia.
    { rewrite Hev. apply length_replicate. }
    { apply length_replicate. }
    unfold mbind, M_bind in Hrun. rewrite Hloop in Hrun.
    injection Hrun as <- <-. apply loop_log in Hloop. split; [eauto|exact Hloop].
Qed.


Lemma DoTxn_cases roomID room_ID summary chunk End v r v' :
  t_events v = replicate (length chunk) None ->
  DoTxn (txn_closure roomID room_ID summary chunk End) v = (r, v') ->
  ((exists e, r = Fail e) /\ t_log v' = t_log v /\ t_wakeup v' = t_wakeup v) \/
  (exists view q r0,
     page_view roomID summary chunk (t_db v) ∅ = Some view /\
     page_queue roomID summary chunk (t_db v) ∅ = Some q /\
     (r = Done tt -> r0 = Done tt) /\
     page_applied room_ID End view q r0 v v').
Proof.
  intros Hev. unfold DoTxn.
  destruct (Txn_Begin (t_db v)) as [e|].
  { intros [= <- <-]. left. eauto. }
  destruct (txn_closure roomID room_ID summary chunk End v) as [r0 v0] eqn:Hrun.
  apply txn_closure_cases in Hrun as [( [e ->] & Hlog & Hw)|(view & q & Hview & Hq & Happ)];
    [| |exact Hev].
  - intros [= <- <-]. left. eauto.
  - intros Hout. right. exists view, q, r0.
    assert (Hsame : t_events v' = t_events v0 /\ t_log v' = t_log v0 /\
                    t_wakeup v' = t_wakeup v0 /\ (r = Done tt -> r0 = Done tt)).
    { destruct r0 as [[]| |]; [destruct (Txn_Commit (t_db v0))| |];
        injection Hout as <- <-; repeat split; auto; discriminate. }
    destruct Hsame as (He & Hl & Hw & Hr).
    unfold page_applied in *. rewrite He, Hl, Hw. auto.
Qed.


(** *** Reading the log of a transaction *)

Lemma wakeups_app l1 l2 : wakeups (l1 ++ l2) = (wakeups l1 + wakeups l2)%nat.
Proof. induction l1 as [|[] l1 IH]; simpl; auto. Qed.

Lemma prepended_app l1 l2 : prepended (l1 ++ l2) = prepended l1 ++ prepended l2.
Proof. induction l1 as [|[] l1 IH]; simpl; auto. f_equal. auto. Qed.

Lemma saved_requests_app l1 l2 :
  saved_requests (l1 ++ l2) = saved_requests l1 ++ saved_requests l2.
Proof. induction l1 as [|[] l1 IH]; simpl; auto. f_equal. auto. Qed.

Lemma puts_log (puts : list string) :
  wakeups (ESessionRequestPut <$> puts) = 0%nat /\
  prepended (ESessionRequestPut <$> puts) = [] /\
  saved_requests (ESessionRequestPut <$> puts) = puts.
Proof.
  induction puts as [|sid puts (Hw & Hp & Hs)]; simpl; auto.
  repeat split; auto. f_equal. exact Hs.
Qed.

Lemma closure_tail_log room_ID End rows stage :
  wakeups (closure_tail room_ID End rows stage) = 0%nat /\
  saved_requests (closure_tail room_ID End rows stage) = [] /\
  (forall rows', rows' ∈ prepended (closure_tail room_ID End rows stage) -> rows' = rows) /\
  (stage = 2%nat -> prepended (closure_tail room_ID End rows stage) = [rows]).
Proof.
  destruct stage as [|[|[|stage]]]; simpl; repeat split; auto; try discriminate;
    intros rows' Hin; try (apply list_elem_of_singleton in Hin; exact Hin);
    inversion Hin.
Qed.

Lemma sublist_map {A B} (f : A -> B) (l1 l2 : list A) :
  l1 `sublist_of` l2 -> (f <$> l1) `sublist_of` (f <$> l2).
Proof.
  induction 1; simpl; [constructor | apply sublist_skip | apply sublist_cons]; auto.
Qed.

Lemma fresh_events_sublist view : fresh_events view `sublist_of` view.*1.
Proof. unfold fresh_events. apply sublist_map, sublist_filter. Qed.

Lemma fresh_events_elem view e :
  e ∈ fresh_events view <-> (e, false) ∈ view.
Proof.
  unfold fresh_events. rewrite list_elem_of_fmap. split.
  - intros ([e' dup] & -> & Hin). apply list_elem_of_filter in Hin as [Hdup Hin].
    simpl in *. subst dup. exact Hin.
  - intros Hin. exists (e, false). split; [reflexivity|].
    apply list_elem_of_filter. auto.
Qed.

(** What the log and the captured variables say once [PaginateServer]
    has gone through its transactional path. *)
Lemma PaginateServer_txn cancel roomID limit w room_ID PrevBatch summary Chunk End c w' :
  Room_Get (db w) roomID = Ok (Some (room_ID, PrevBatch, summary)) ->
  PrevBatch <> PrevBatchPaginationComplete ->
  Client_Messages roomID PrevBatch limit = Ok (Chunk, End) ->
  End <> "" -> End <> PrevBatchPaginationComplete -> Chunk <> [] ->
  PaginateServer cancel roomID limit w = (c, w') ->
  (c = Returned (None, Some ErrPaginationAlreadyInProgress) /\ w' = w) \/
  (exists r v,
     DoTxn (txn_closure roomID room_ID summary Chunk End)
           (mkVars (db w) (log w ++ [EMessages roomID PrevBatch limit])
                   (replicate (length Chunk) None) false) = (r, v) /\
     log w' = (if r is Done _ then if t_wakeup v then t_log v ++ [EWakeupRequestQueue]
                                   else t_log v
               else t_log v) /\
     c = match r with
         | Crash s => Panicked s
         | Done _ => Returned (Some (mkResp (t_events v) true), None)
         | Fail e => Returned (Some (mkResp (t_events v) true), Some e)
         end).
Proof.
  intros Hroom Hpb Hmsg He1 He2 Hchunk. unfold PaginateServer.
  destruct (register_pagination _ _ _) as [inflight|]; [|intros [= <- <-]; auto].
  rewrite (paginate_body_txn _ _ _ _ _ _ _ _ _ Hroom Hpb Hmsg He1 He2 Hchunk).
  destruct (DoTxn _ _) as [r v] eqn:Htxn.
  intros Hout. right. exists r, v. split; [reflexivity|].
  destruct r as [[]| |]; injection Hout as <- <-; auto.
Qed.


(** C1, as the code has it.  When [PaginateServer] has applied one
    server page and returns without error, the returned events and the
    row IDs handed to [Timeline.Prepend] are the page with the events the
    timeline already held left out: in the order of the chunk, entry [k]
    of the row IDs is the [RowID] of entry [k] of the events, the list has
    one entry for every event of the chunk that the timeline did not hold
    and none of them is nil.  The test against the timeline is the only
    one: the row IDs are free of duplicates provided the rows of the
    chunk are pairwise distinct. *)
Theorem PaginateServer_compaction cancel roomID limit w
    room_ID PrevBatch summary Chunk End resp w' :
  Room_Get (db w) roomID = Ok (Some (room_ID, PrevBatch, summary)) ->
  PrevBatch <> PrevBatchPaginationComplete ->
  Client_Messages roomID PrevBatch limit = Ok (Chunk, End) ->
  End <> "" -> End <> PrevBatchPaginationComplete -> Chunk <> [] ->
  PaginateServer cancel roomID limit w = (Returned (Some resp, None), w') ->
  exists view new,
    page_view roomID summary Chunk (db w) ∅ = Some view /\
    log w' = log w ++ new /\
    (forall rows, rows ∈ prepended new -> rows = RowID <$> fresh_events view) /\
    map (option_map RowID) (Events resp) =
      map (fun e => Some (RowID e)) (fresh_events view) /\
    length (Events resp) = (length Chunk - duplicates view)%nat /\
    Forall is_Some (Events resp) /\
    (forall rows k e, rows ∈ prepended new ->
       Events resp !! k = Some (Some e) -> rows !! k = Some (RowID e)) /\
    (forall e, e ∈ fresh_events view <-> (e, false) ∈ view) /\
    fresh_events view `sublist_of` view.*1 /\
    (NoDup (RowID <$> view.*1) -> NoDup (RowID <$> fresh_events view)).
Proof.
  intros Hroom Hpb Hmsg He1 He2 Hchunk Hrun.
  destruct (PaginateServer_txn _ _ _ _ _ _ _ _ _ _ _ Hroom Hpb Hmsg He1 He2 Hchunk Hrun)
    as [[Hc _]|(r & v & Htxn & Hlog & Hc)]; [discriminate|].
  destruct r as [[]|e|msg]; try discriminate. injection Hc as ->.
  apply DoTxn_cases in Htxn as [([e He] & _)|(view & q & r0 & Hview & Hq & Hr0 & Hrows & Hcase)];
    [discriminate| |reflexivity].
  specialize (Hr0 eq_refl). subst r0. psimpl.
  assert (Hmap : map (option_map RowID) (Events (mkResp (t_events v) true)) =
                 map (fun e => Some (RowID e)) (fresh_events view)) by exact Hrows.
  assert (Hlen : length (t_events v) = length (fresh_events view)).
  { rewrite <- (length_map (option_map RowID)), Hrows. apply length_map. }
  assert (Hnew : exists new, log w' = log w ++ new /\
            forall rows, rows ∈ prepended new -> rows = RowID <$> fresh_events view).
  { destruct Hcase as [(_ & _ & Hl & Hw)|(_ & Hw & puts & stage & Hl & _)].
    - exists [EMessages roomID PrevBatch limit]. rewrite Hlog, Hw, Hl.
      split; [reflexivity|]. simpl. intros rows Hin. inversion Hin.
    - exists ([EMessages roomID PrevBatch limit] ++ (ESessionRequestPut <$> puts) ++
              closure_tail room_ID End (RowID <$> fresh_events view) stage ++
              (if t_wakeup v then [EWakeupRequestQueue] else [])).
      split.
      + rewrite Hlog, Hl. destruct (t_wakeup v); rewrite <- ?app_assoc;
          rewrite ?app_nil_r; reflexivity.
      + intros rows. rewrite !prepended_app.
        destruct (puts_log puts) as (_ & -> & _).
        destruct (closure_tail_log room_ID End (RowID <$> fresh_events view) stage)
          as (_ & _ & Hpre & _).
        simpl. rewrite elem_of_app. intros [Hin|Hin]; [auto|].
        destruct (t_wakeup v); inversion Hin. }
  destruct Hnew as (new & Hnew & Hpre).
  pose proof (fresh_plus_duplicates view) as Hsum.
  pose proof (page_view_length _ _ _ _ _ _ Hview) as Hvl.
  exists view, new. repeat split; auto.
  - simpl. lia.
  - simpl. apply Forall_forall. intros [e|] Hin; [eauto|].
    apply (list_elem_of_fmap_2 (option_map RowID)) in Hin.
    change (option_map RowID <$> t_events v) with
      (map (option_map RowID) (t_events v)) in Hin.
    rewrite Hrows in Hin. apply list_elem_of_fmap in Hin as (? & ? & _).
    discriminate.
  - intros rows k e Hin Hk. rewrite (Hpre rows Hin). simpl in Hk.
    assert (Hk' : map (option_map RowID) (t_events v) !! k = Some (Some (RowID e))).
    { change (map (option_map RowID) (t_events v)) with
        (option_map RowID <$> t_events v).
      rewrite list_lookup_fmap, Hk. reflexivity. }
    rewrite Hrows in Hk'.
    change (map (fun e => Some (RowID e)) (fresh_events view)) with
      ((fun e => Some (RowID e)) <$> fresh_events view) in Hk'.
    rewrite list_lookup_fmap in Hk'. rewrite list_lookup_fmap.
    destruct (fresh_events view !! k); simpl in *; congruence.
  - apply fresh_events_elem.
  - apply fresh_events_elem.
  - apply fresh_events_sublist.
  - intros Hnd. eapply sublist_NoDup; [exact Hnd|].
    apply sublist_map, fresh_events_sublist.
Qed.


(** C7, as the code has it.  A [PaginateServer] call that applies a
    page through the transaction calls [WakeupRequestQueue] at most once.
    It calls it exactly once when the call returned without error (the
    transaction committed), the event processor has queued at least one
    event of the page for decryption and at least one event of the page
    was new to the timeline; it does not call it otherwise.  When every
    event of the page is in the timeline already, the closure returns
    before it looks at the queue.  Put with the calls made: exactly once
    when the call returned without error and session requests were saved
    for the page. *)
Theorem PaginateServer_wakeup_once cancel roomID limit w
    room_ID PrevBatch summary Chunk End c w' :
  Room_Get (db w) roomID = Ok (Some (room_ID, PrevBatch, summary)) ->
  PrevBatch <> PrevBatchPaginationComplete ->
  Client_Messages roomID PrevBatch limit = Ok (Chunk, End) ->
  End <> "" -> End <> PrevBatchPaginationComplete -> Chunk <> [] ->
  PaginateServer cancel roomID limit w = (c, w') ->
  exists new,
    log w' = log w ++ new /\
    (wakeups new <= 1)%nat /\
    (wakeups new = 1%nat <->
       exists resp view q,
         c = Returned (Some resp, None) /\
         page_view roomID summary Chunk (db w) ∅ = Some view /\
         page_queue roomID summary Chunk (db w) ∅ = Some q /\
         q <> ∅ /\ fresh_events view <> []) /\
    (wakeups new = 1%nat <->
       (exists resp, c = Returned (Some resp, None)) /\ saved_requests new <> []).
Proof.
  intros Hroom Hpb Hmsg He1 He2 Hchunk Hrun.
  destruct (PaginateServer_txn _ _ _ _ _ _ _ _ _ _ _ Hroom Hpb Hmsg He1 He2 Hchunk Hrun)
    as [[-> ->]|(r & v & Htxn & Hlog & Hc)].
  { exists []. rewrite app_nil_r. simpl. repeat split; auto; try lia;
      try discriminate; [intros (resp & ? & ? & [=] & _)|intros [[resp [=]] _]]. }
  apply DoTxn_cases in Htxn
    as [([e ->] & Hl & Hw)|(view & q & r0 & Hview & Hq & Hr0 & Hrows & Hcase)];
    [| |reflexivity]; psimpl.
  { (* the transaction did not start, or the loop failed *)
    exists [EMessages roomID PrevBatch limit]. rewrite Hlog, Hl. simpl.
    repeat split; auto; try lia; try discriminate;
      subst c; [intros (resp & ? & ? & [=] & _)|intros [[resp [=]] _]]. }
  destruct Hcase as [(Hnil & -> & Hl & Hw)|(Hne & Hw & puts & stage & Hl & Hdone)].
  { (* every event was already in the timeline *)
    exists [EMessages roomID PrevBatch limit].
    assert (Hlog' : log w' = log w ++ [EMessages roomID PrevBatch limit]).
    { rewrite Hlog, Hw, Hl. destruct r; reflexivity. }
    split; [exact Hlog'|]. simpl.
    split; [lia|]. split.
    - split; [discriminate|]. intros (resp & view' & q' & _ & Hview' & _ & _ & H).
      rewrite Hview in Hview'. injection Hview' as <-. contradiction.
    - split; [discriminate|]. intros [_ H]. contradiction. }
  (* some event was new: the closure went past the truncation *)
  set (tail := closure_tail room_ID End (RowID <$> fresh_events view) stage) in *.
  destruct (puts_log puts) as (Hpw & _ & Hps).
  destruct (closure_tail_log room_ID End (RowID <$> fresh_events view) stage)
    as (Htw & Hts & _ & _). fold tail in Htw, Hts.
  assert (Hsize : bool_decide (0 < size q)%nat = true <-> q <> ∅).
  { rewrite bool_decide_eq_true, <- map_size_non_empty_iff. lia. }
  assert (Hkeys : (map_to_list q).*1 <> [] <-> q <> ∅).
  { rewrite <- map_to_list_empty_iff. destruct (map_to_list q); simpl; split; congruence. }
  destruct r as [[]|e|msg].
  - (* committed *)
    destruct (Hdone (Hr0 eq_refl)) as [-> ->].
    exists ([EMessages roomID PrevBatch limit] ++ (ESessionRequestPut <$> (map_to_list q).*1)
            ++ tail ++ (if t_wakeup v then [EWakeupRequestQueue] else [])).
    split.
    { rewrite Hlog, Hl. destruct (t_wakeup v); rewrite <- ?app_assoc;
        rewrite ?app_nil_r; reflexivity. }
    rewrite !wakeups_app, !saved_requests_app, Hpw, Htw, Hps, Hts. simpl.
    assert (Hwk : wakeups (if t_wakeup v then [EWakeupRequestQueue] else []) = 1%nat
                  <-> q <> ∅).
    { rewrite <- Hsize, <- Hw. destruct (t_wakeup v); simpl; split; congruence. }
    assert (Hsv : saved_requests (if t_wakeup v then [EWakeupRequestQueue] else []) = []).
    { destruct (t_wakeup v); reflexivity. }
    rewrite Hsv, !app_nil_r. split; [destruct (t_wakeup v); simpl; lia|].
    split.
    + rewrite Hwk. subst c. split.
      * intros Hq0. eexists _, view, q. eauto.
      * intros (resp & view' & q' & _ & _ & Hq' & Hq0 & _).
        rewrite Hq in Hq'. injection Hq' as <-. exact Hq0.
    + rewrite Hwk, Hkeys. subst c. split; [eauto|tauto].
  - (* the transaction failed *)
    exists ([EMessages roomID PrevBatch limit] ++ (ESessionRequestPut <$> puts) ++ tail).
    split; [rewrite Hlog, Hl, <- app_assoc; reflexivity|].
    rewrite !wakeups_app, Hpw, Htw. simpl.
    repeat split; try lia; try discriminate; subst c;
      [intros (resp & ? & ? & [=] & _)|intros [[resp [=]] _]].
  - (* the closure panicked *)
    exists ([EMessages roomID PrevBatch limit] ++ (ESessionRequestPut <$> puts) ++ tail).
    split; [rewrite Hlog, Hl, <- app_assoc; reflexivity|].
    rewrite !wakeups_app, Hpw, Htw. simpl.
    repeat split; try lia; try discriminate; subst c;
      [intros (resp & ? & ? & [=] & _)|intros [[resp [=]] _]].
Qed.


(** *** Single flight *)

Lemma register_pagination_taken cancel roomID (m : gmap string Cancel) :
  is_Some (m !! roomID) -> register_pagination cancel roomID m = None.
Proof. intros [c Hc]. unfold register_pagination. rewrite Hc. reflexivity. Qed.

Lemma register_pagination_free cancel roomID (m : gmap string Cancel) :
  m !! roomID = None ->
  register_pagination cancel roomID m = Some (<[roomID := cancel]> m).
Proof. intros Hc. unfold register_pagination. rewrite Hc. reflexivity. Qed.

Lemma unregister_register cancel roomID (m : gmap string Cancel) :
  m !! roomID = None ->
  unregister_pagination roomID (<[roomID := cancel]> m) = m.
Proof.
  intros Hc. unfold unregister_pagination.
  rewrite delete_insert_eq. apply delete_id, Hc.
Qed.

(** Among the callers in flight no two paginate the same room, and the
    map holds an entry for exactly the rooms being paginated. *)
Lemma sys_invariant s :
  sys_reachable s ->
  NoDup (in_flight s).*2 /\
  dom (sys_map s) = list_to_set (in_flight s).*2.
Proof.
  induction 1 as [|s s' _ [Hnd Hdom] Hstep].
  - simpl. split; [constructor | apply dom_empty_L].
  - destruct Hstep as [s caller cancel roomID m' Hfresh Hreg|s cancel roomID Hreg
                      |s caller roomID Hin]; simpl.
    + unfold register_pagination in Hreg.
      destruct (sys_map s !! roomID) eqn:Hlook; [discriminate|].
      injection Hreg as <-. split.
      * constructor; [|exact Hnd].
        intros Hin. apply not_elem_of_dom in Hlook. apply Hlook.
        rewrite Hdom. apply elem_of_list_to_set. exact Hin.
      * rewrite dom_insert_L, Hdom. reflexivity.
    + auto.
    + assert (Hother : forall c, c ∈ in_flight s -> c <> (caller, roomID) -> c.2 <> roomID).
      { revert Hnd Hin. generalize (in_flight s). intros l.
        induction l as [|[c0 r0] l IH]; intros Hnd Hin c Hc Hne; [inversion Hc|].
        simpl in Hnd. apply NoDup_cons in Hnd as [Hr0 Hnd].
        apply elem_of_cons in Hc as [->|Hc]; apply elem_of_cons in Hin as [Heq|Hin].
        - congruence.
        - simpl. intros ->. apply Hr0.
          apply list_elem_of_fmap. exists (caller, roomID). auto.
        - injection Heq as <- <-. intros Heq. apply Hr0.
          apply list_elem_of_fmap. exists c. auto.
        - auto. }
      split.
      * eapply sublist_NoDup; [exact Hnd|]. apply sublist_map, sublist_filter.
      * unfold unregister_pagination. rewrite dom_delete_L, Hdom.
        apply set_eq. intros r.
        rewrite elem_of_difference, !elem_of_list_to_set, elem_of_singleton,
          !list_elem_of_fmap.
        split.
        -- intros [(c & -> & Hc) Hne]. exists c. split; [reflexivity|].
           apply list_elem_of_filter. split; [|exact Hc].
           intros ->. apply Hne. reflexivity.
        -- intros (c & -> & Hc). apply list_elem_of_filter in Hc as [Hne Hc].
           split; [eauto | apply Hother; auto].
Qed.

(** C2.  A call for a room that has an entry returns
    [ErrPaginationAlreadyInProgress] and leaves the map, the database and
    the call log as they were.  A call that inserts its entry removes it
    again however the body ends (a response, an error, a panic), so the
    next call for the room is admitted.  In every interleaving of the
    critical sections of concurrent callers, no two admitted callers
    paginate the same room. *)
Theorem PaginateServer_single_flight cancel roomID limit w :
  (is_Some (paginationInterrupter w !! roomID) ->
     PaginateServer cancel roomID limit w =
       (Returned (None, Some ErrPaginationAlreadyInProgress), w)) /\
  (paginationInterrupter w !! roomID = None ->
     forall r w', PaginateServer cancel roomID limit w = (r, w') ->
       paginate_body roomID limit (db w) (log w) = (r, db w', log w') /\
       paginationInterrupter w' = paginationInterrupter w /\
       register_pagination cancel roomID (paginationInterrupter w') <> None) /\
  (forall s, sys_reachable s ->
     NoDup (in_flight s).*2 /\ dom (sys_map s) = list_to_set (in_flight s).*2).
Proof.
  split; [|split].
  - intros Hsome. unfold PaginateServer.
    rewrite register_pagination_taken by exact Hsome. reflexivity.
  - intros Hnone r w'. unfold PaginateServer.
    rewrite register_pagination_free by exact Hnone.
    destruct (paginate_body roomID limit (db w) (log w)) as [[r0 d] lg].
    intros [= <- <-]. simpl. rewrite unregister_register by exact Hnone.
    repeat split. rewrite register_pagination_free by exact Hnone. discriminate.
  - apply sys_invariant.
Qed.

(** C3.  When the stored cursor of the room is the terminal sentinel, a
    [PaginateServer] call leaves the world as it is, so [Messages] is not
    called, and, unless the single-flight guard refuses it, it returns an
    empty event list with [has_more = false]. *)
Theorem PaginateServer_history_complete cancel roomID limit w room_ID summary :
  Room_Get (db w) roomID = Ok (Some (room_ID, PrevBatchPaginationComplete, summary)) ->
  (forall r w', PaginateServer cancel roomID limit w = (r, w') ->
     w' = w /\ network_requests (log w') = network_requests (log w) /\
     (r = Returned (Some (mkResp [] false), None) \/
      is_Some (paginationInterrupter w !! roomID))) /\
  (paginationInterrupter w !! roomID = None ->
     PaginateServer cancel roomID limit w =
       (Returned (Some (mkResp [] false), None), w)).
Proof.
  intros Hroom.
  assert (Hfree : paginationInterrupter w !! roomID = None ->
     PaginateServer cancel roomID limit w =
       (Returned (Some (mkResp [] false), None), w)).
  { intros Hnone. unfold PaginateServer, paginate_body.
    rewrite register_pagination_free by exact Hnone. rewrite Hroom.
    destruct (decide (_ = _)) as [_|Hne]; [|contradiction].
    rewrite unregister_register by exact Hnone. destruct w; reflexivity. }
  split; [|exact Hfree].
  intros r w' Hrun.
  destruct (paginationInterrupter w !! roomID) as [c|] eqn:Hlook.
  - unfold PaginateServer in Hrun.
    rewrite register_pagination_taken in Hrun by (rewrite Hlook; eauto).
    injection Hrun as <- <-. eauto.
  - rewrite Hfree in Hrun by reflexivity. injection Hrun as <- <-. auto.
Qed.

(** The branch of lines 242-251: the server sent no [end] token or an
    empty chunk.  [SetPrevBatch] runs outside [DoTxn]; the response holds
    the [events] slice as [make] left it, one nil entry per event of the
    chunk, and [HasMore] is true because the emptiness test comes after
    the substitution of the sentinel. *)
Lemma PaginateServer_exhausted cancel roomID limit w room_ID PrevBatch summary
    Chunk End d' :
  let End' := if decide (End = "") then PrevBatchPaginationComplete else End in
  PrevBatchPaginationComplete <> "" ->
  paginationInterrupter w !! roomID = None ->
  Room_Get (db w) roomID = Ok (Some (room_ID, PrevBatch, summary)) ->
  PrevBatch <> PrevBatchPaginationComplete ->
  Client_Messages roomID PrevBatch limit = Ok (Chunk, End) ->
  End' = PrevBatchPaginationComplete \/ Chunk = [] ->
  Room_SetPrevBatch (db w) room_ID End' = Ok d' ->
  PaginateServer cancel roomID limit w =
    (Returned (Some (mkResp (replicate (length Chunk) None) true), None),
     mkWorld (paginationInterrupter w) d'
             (log w ++ [EMessages roomID PrevBatch limit;
                        ESetPrevBatch false room_ID End'])).
Proof.
  intros End' Hsent Hnone Hroom Hpb Hmsg Hbranch Hset.
  unfold PaginateServer, paginate_body.
  rewrite register_pagination_free by exact Hnone. rewrite Hroom.
  destruct (decide (PrevBatch = _)) as [|_]; [contradiction|].
  rewrite Hmsg. fold End'.
  destruct (decide (End' = PrevBatchPaginationComplete \/ length Chunk = 0%nat))
    as [_|Hno].
  - rewrite Hset. rewrite unregister_register by exact Hnone.
    rewrite <- app_assoc. simpl.
    assert (Hne : End' <> "").
    { subst End'. destruct (decide (End = "")); auto. }
    rewrite bool_decide_eq_false_2 by exact Hne. reflexivity.
  - exfalso. apply Hno. destruct Hbranch as [H|H]; [left; exact H|].
    right. rewrite H. reflexivity.
Qed.

End PaginateProofs.

(** *** The theorems on concrete pages *)

Import MemStore.

Ltac mem_neq := let H := fresh in intros H; vm_compute in H; discriminate H.

Lemma PaginateServer_compaction_witness :
  exists resp w' view,
    @PaginateServer (MemEnv server1) tt "!r" 10 (world0 server1) =
      (Returned (Some resp, None), w') /\
    map (option_map RowID) (Events resp) =
      map (fun e => Some (RowID e)) (fresh_events view) /\
    length (Events resp) = (3 - duplicates view)%nat.
Proof.
  assert (Hrun : exists resp w',
            @PaginateServer (MemEnv server1) tt "!r" 10 (world0 server1) =
              (Returned (Some resp, None), w')).
  { vm_compute. eexists _, _. reflexivity. }
  destruct Hrun as (resp & w' & Hrun).
  destruct (@PaginateServer_compaction (MemEnv server1) tt "!r" 10 (world0 server1)
              "!r" "tokenA" tt
              [mkMemEvent 1 None; mkMemEvent 4 None; mkMemEvent 2 (Some "s1")]
              "tokenB" resp w')
    as (view & new & _ & _ & _ & Hrows & Hlen & _);
    [reflexivity | mem_neq | reflexivity | mem_neq | mem_neq | mem_neq | exact Hrun |].
  exists resp, w', view. auto.
Defined.

Lemma PaginateServer_wakeup_once_witness :
  exists c w' new,
    @PaginateServer (MemEnv server1) tt "!r" 10 (world0 server1) = (c, w') /\
    log w' = log (world0 server1) ++ new /\ (wakeups new <= 1)%nat.
Proof.
  destruct (@PaginateServer (MemEnv server1) tt "!r" 10 (world0 server1))
    as [c w'] eqn:Hrun.
  destruct (@PaginateServer_wakeup_once (MemEnv server1) tt "!r" 10 (world0 server1)
              "!r" "tokenA" tt
              [mkMemEvent 1 None; mkMemEvent 4 None; mkMemEvent 2 (Some "s1")]
              "tokenB" c w')
    as (new & Hlog & Hle & _);
    [reflexivity | mem_neq | reflexivity | mem_neq | mem_neq | mem_neq | exact Hrun |].
  exists c, w', new. auto.
Defined.

Lemma PaginateServer_single_flight_witness :
  @PaginateServer (MemEnv server1) tt "!r" 10
     (@mkWorld (MemEnv server1) {["!r" := tt]} db0 []) =
    (Returned (None, Some ErrPaginationAlreadyInProgress),
     @mkWorld (MemEnv server1) {["!r" := tt]} db0 []).
Proof.
  apply (@PaginateServer_single_flight (MemEnv server1) tt "!r" 10
           (@mkWorld (MemEnv server1) {["!r" := tt]} db0 [])).
  simpl. rewrite lookup_singleton_eq. eauto.
Defined.

Lemma PaginateServer_history_complete_witness :
  let w := @mkWorld (MemEnv server1) ∅
             (mkMemDB {["!r" := "fake"]} {["!r" := [4; 5]]} []) [] in
  @PaginateServer (MemEnv server1) tt "!r" 10 w =
    (Returned (Some (mkResp [] false), None), w).
Proof.
  intros w.
  apply (@PaginateServer_history_complete (MemEnv server1) tt "!r" 10 w "!r" tt);
    reflexivity.
Defined.

(** C1 as stated fails.  The chunk holds the event of row 1 twice and
    the timeline holds rows 4 and 5: both copies pass the test against the
    timeline, the call returns the event twice and hands the rows [1; 1]
    to [Timeline.Prepend], and the timeline holds row 1 twice. *)
Lemma PaginateServer_repeated_event_counterexample :
  let run := @PaginateServer (MemEnv server_twice) tt "!r" 10 (world0 server_twice) in
  timeline db0 !! "!r" = Some [4; 5] /\
  run.1 = Returned (Some (mkResp [Some (mkEvent 1 "" 0 None []);
                                  Some (mkEvent 1 "" (-1) None [])] true), None) /\
  prepended (log run.2) = [[1; 1]] /\
  (exists rows, rows ∈ prepended (log run.2) /\ ~ NoDup rows) /\
  timeline (db run.2) !! "!r" = Some [1; 1; 4; 5].
Proof.
  cbv zeta.
  assert (Hpre : prepended (log (@PaginateServer (MemEnv server_twice) tt "!r" 10
                                   (world0 server_twice)).2) = [[1; 1]])
    by (vm_compute; reflexivity).
  split; [vm_compute; reflexivity|]. split; [vm_compute; reflexivity|].
  split; [exact Hpre|]. split; [|vm_compute; reflexivity].
  exists [1; 1]. rewrite Hpre. split; [apply list_elem_of_singleton; reflexivity|].
  intros Hnd. apply NoDup_cons in Hnd as [Hnotin _]. apply Hnotin. left.
Qed.

(** C7 as stated fails.  The only event of the page waits for session
    [s1], so the event processor queues it for decryption, and it is in
    the timeline already: the transaction commits, the call returns
    without error, and no wakeup is sent. *)
Lemma PaginateServer_queued_no_wakeup_counterexample :
  let run := @PaginateServer (MemEnv server_dup) tt "!r" 10 (world0 server_dup) in
  page_queue (E := MemEnv server_dup) "!r" tt [mkMemEvent 4 (Some "s1")] db0 ∅
    = Some {["s1" := mkSessionRequest "s1" 0]} /\
  (exists resp, run.1 = Returned (Some resp, None)) /\
  wakeups (log run.2) = 0%nat.
Proof.
  cbv zeta. split; [|split].
  - vm_compute. reflexivity.
  - vm_compute. eauto.
  - vm_compute. reflexivity.
Qed.

(** A page whose only event is already in the timeline, although the
    event processor has put a session request into the accumulator: the
    closure returns before it saves the request, advances the cursor or
    prepends anything, the call returns an empty list with
    [has_more = true], and no wakeup is sent. *)
Example PaginateServer_all_duplicates :
  let run := @PaginateServer (MemEnv server_dup) tt "!r" 10 (world0 server_dup) in
  run.1 = Returned (Some (mkResp [] true), None) /\
  log run.2 = [EMessages "!r" "tokenA" 10] /\
  prev_batch (db run.2) !! "!r" = Some "tokenA" /\
  size <$> page_queue (E := MemEnv server_dup) "!r" tt [mkMemEvent 4 (Some "s1")] db0 ∅
    = Some 1%nat.
Proof. vm_compute. auto. Qed.

(** C9.  The last page of a room: the server answers with one event and
    no [end] token.  The call stores the sentinel outside any transaction
    and returns [has_more = true], but the events list it returns is not
    empty: it holds one nil entry per event of the chunk. *)
Theorem PaginateServer_last_page_nil_events :
  let run := @PaginateServer (MemEnv server_last) tt "!r" 10 (world0 server_last) in
  run.1 = Returned (Some (mkResp [None] true), None) /\
  log run.2 = [EMessages "!r" "tokenA" 10; ESetPrevBatch false "!r" "fake"] /\
  prev_batch (db run.2) !! "!r" = Some "fake".
Proof. vm_compute. auto. Qed.


End HicliSpec.

(** ** Properties of [StateStore.applySync] *)

Module StatestoreSpec.
Import Statestore.

Abbreviation ts := e_sorting_timestamp.
Abbreviation le_ts := (fun a b : RoomListEntry => ts a <= ts b).

(** *** The stable sort of the first population *)

Lemma sort_insert_perm x l : sort_insert x l ≡ₚ x :: l.
Proof.
  induction l as [|y l IH]; simpl; [reflexivity|].
  destruct (ts x <=? ts y); [reflexivity|].
  rewrite IH. apply Permutation_swap.
Qed.

Lemma sort_by_timestamp_perm l : sort_by_timestamp l ≡ₚ l.
Proof.
  induction l as [|x l IH]; simpl; [reflexivity|].
  rewrite sort_insert_perm, IH. reflexivity.
Qed.

Lemma sort_insert_sorted x l :
  StronglySorted le_ts l -> StronglySorted le_ts (sort_insert x l).
Proof.
  induction l as [|y l IH]; simpl; intros Hs.
  - repeat constructor.
  - apply StronglySorted_cons in Hs as [Hy Hs].
    destruct (ts x <=? ts y) eqn:Hle.
    + apply Z.leb_le in Hle. constructor; [constructor; auto|].
      constructor; [exact Hle|].
      eapply Forall_impl; [exact Hy|]. simpl. intros z Hz. lia.
    + apply Z.leb_gt in Hle. constructor; [auto|].
      rewrite sort_insert_perm. constructor; [lia | exact Hy].
Qed.

Lemma sort_by_timestamp_sorted l : StronglySorted le_ts (sort_by_timestamp l).
Proof.
  induction l as [|x l IH]; simpl; [constructor | apply sort_insert_sorted, IH].
Qed.

(** Stability: entries with the same timestamp keep their order. *)
Lemma sort_insert_stable t x l :
  List.filter (fun e => ts e =? t) (sort_insert x l) =
  List.filter (fun e => ts e =? t) (x :: l).
Proof.
  induction l as [|y l IH]; [reflexivity|]. simpl in *.
  destruct (ts x <=? ts y) eqn:Hle; [reflexivity|].
  apply Z.leb_gt in Hle. simpl. rewrite IH.
  destruct (ts x =? t) eqn:Hx, (ts y =? t) eqn:Hy; try reflexivity.
  apply Z.eqb_eq in Hx, Hy. lia.
Qed.

Lemma sort_by_timestamp_stable t l :
  List.filter (fun e => ts e =? t) (sort_by_timestamp l) =
  List.filter (fun e => ts e =? t) l.
Proof.
  induction l as [|x l IH]; [reflexivity|].
  cbn [sort_by_timestamp foldr]. rewrite sort_insert_stable.
  simpl. fold (sort_by_timestamp l). rewrite IH. reflexivity.
Qed.

(** *** Insertion of a changed entry *)

Lemma filter_sorted (f : RoomListEntry -> bool) l :
  StronglySorted le_ts l -> StronglySorted le_ts (List.filter f l).
Proof.
  induction 1 as [|x l Hs IH Hx]; simpl; [constructor|].
  destruct (f x); [|exact IH]. constructor; [exact IH|].
  apply Forall_forall. intros y Hy. apply list_elem_of_In, filter_In in Hy as [Hy _].
  rewrite Forall_forall in Hx. apply Hx, list_elem_of_In, Hy.
Qed.

Lemma filter_none {A} (f : A -> bool) (l : list A) :
  Forall (fun x => f x = false) l -> List.filter f l = [].
Proof.
  induction 1 as [|x l Hx _ IH]; simpl; [reflexivity|]. rewrite Hx. exact IH.
Qed.

Lemma filter_all {A} (f : A -> bool) (l : list A) :
  Forall (fun x => f x = true) l -> List.filter f l = l.
Proof.
  induction 1 as [|x l Hx _ IH]; simpl; [reflexivity|]. rewrite Hx, IH. reflexivity.
Qed.

Section SplitAt.
Variable c : Z.
Let p := fun val : RoomListEntry => ts val <=? c.
Let count := fun l : list RoomListEntry => Z.of_nat (length (List.filter p l)).

(** In a sorted list the entries not larger than [c] form a prefix. *)
Lemma sorted_larger_tail x l :
  StronglySorted le_ts (x :: l) -> p x = false ->
  Forall (fun y => p y = false) l.
Proof.
  intros Hs Hx. apply StronglySorted_cons in Hs as [Hle _].
  eapply Forall_impl; [exact Hle|]. subst p. simpl in *. intros y Hy.
  apply Z.leb_gt in Hx. apply Z.leb_gt. lia.
Qed.

Lemma findLastIndex_sorted l : forall i,
  0 <= i -> StronglySorted le_ts l ->
  findLastIndex_from p i l = (if count l =? 0 then -1 else i + count l - 1).
Proof.
  induction l as [|x l IH]; intros i Hi Hs; [reflexivity|].
  cbn [findLastIndex_from]. pose proof Hs as Hs'.
  apply StronglySorted_cons in Hs' as [_ Hl].
  rewrite (IH (i + 1)) by (auto; lia).
  subst count. cbn [List.filter]. destruct (p x) eqn:Hx.
  - cbn [length]. rewrite Nat2Z.inj_succ.
    destruct (Z.of_nat (length (List.filter p l)) =? 0) eqn:Hz.
    + apply Z.eqb_eq in Hz. rewrite Hz. simpl.
      destruct (Z.succ 0 =? 0) eqn:H0; [apply Z.eqb_eq in H0; lia|]. lia.
    + apply Z.eqb_neq in Hz.
      destruct (0 <=? i + 1 + Z.of_nat (length (List.filter p l)) - 1) eqn:Hj;
        [|apply Z.leb_gt in Hj; lia].
      destruct (Z.succ _ =? 0) eqn:H0; [apply Z.eqb_eq in H0; lia|]. lia.
  - rewrite (filter_none p l) by (eapply sorted_larger_tail; eauto).
    reflexivity.
Qed.

Lemma take_drop_sorted l :
  StronglySorted le_ts l ->
  take (Z.to_nat (count l)) l = List.filter p l /\
  drop (Z.to_nat (count l)) l = List.filter (fun x => negb (p x)) l.
Proof.
  subst count. simpl. rewrite Nat2Z.id.
  induction l as [|x l IH]; intros Hs; [auto|].
  pose proof Hs as Hs'. apply StronglySorted_cons in Hs' as [_ Hl].
  cbn [List.filter]. destruct (p x) eqn:Hx; simpl.
  - destruct (IH Hl) as [-> ->]. auto.
  - pose proof (sorted_larger_tail _ _ Hs Hx) as Hall.
    rewrite (filter_none p l) by exact Hall. simpl. split; [reflexivity|].
    f_equal. symmetry. apply filter_all.
    eapply Forall_impl; [exact Hall|]. simpl. intros y ->. reflexivity.
Qed.

Lemma splice_sorted l e :
  StronglySorted le_ts l ->
  splice_in l (findLastIndex p l + 1) e =
    List.filter p l ++ e :: List.filter (fun x => negb (p x)) l.
Proof.
  intros Hs. unfold splice_in, findLastIndex.
  rewrite findLastIndex_sorted by (auto; lia).
  replace (Z.to_nat ((if count l =? 0 then -1 else 0 + count l - 1) + 1))
    with (Z.to_nat (count l)).
  - destruct (take_drop_sorted l Hs) as [-> ->]. reflexivity.
  - destruct (count l =? 0) eqn:Hz; [apply Z.eqb_eq in Hz; rewrite Hz; reflexivity|].
    f_equal. lia.
Qed.

End SplitAt.


Lemma sorted_last_max l t :
  StronglySorted le_ts l -> last l = Some t -> Forall (fun a => ts a <= ts t) l.
Proof.
  intros Hs Hlast. apply last_Some in Hlast as [l' ->].
  apply StronglySorted_app in Hs as (Hle & _ & _).
  apply Forall_app. split.
  - apply Forall_forall. intros a Ha. apply (Hle a t Ha). apply list_elem_of_singleton.
    reflexivity.
  - repeat constructor. lia.
Qed.

Lemma sorted_head_min l h :
  StronglySorted le_ts l -> head l = Some h -> Forall (fun a => ts h <= ts a) l.
Proof.
  intros Hs Hhead. apply head_Some in Hhead as [l' ->].
  apply StronglySorted_cons in Hs as [Hle _]. constructor; [lia | exact Hle].
Qed.

(** On a sorted list the insertion the specification describes puts the
    entry right after the entries that are not larger, in all three of
    its cases. *)
Lemma spec_insert_partition l e :
  StronglySorted le_ts l ->
  spec_insert l e =
    List.filter (fun val => ts val <=? ts e) l ++
    e :: List.filter (fun val => negb (ts val <=? ts e)) l.
Proof.
  intros Hs. unfold spec_insert.
  destruct (last l) as [t|] eqn:Hlast.
  2:{ apply last_None in Hlast. subst l. reflexivity. }
  destruct (head l) as [h|] eqn:Hhead.
  2:{ destruct l; [discriminate Hlast | discriminate Hhead]. }
  destruct (ts t <=? ts e) eqn:Htail.
  - apply Z.leb_le in Htail.
    pose proof (sorted_last_max l t Hs Hlast) as Hall.
    rewrite filter_all, filter_none; [reflexivity| |];
      (eapply Forall_impl; [exact Hall|]); simpl; intros a Ha.
    + apply negb_false_iff, Z.leb_le. lia.
    + apply Z.leb_le. lia.
  - destruct (ts e <? ts h) eqn:Hh.
    + apply Z.ltb_lt in Hh.
      pose proof (sorted_head_min l h Hs Hhead) as Hall.
      rewrite filter_none, filter_all; [reflexivity| |];
        (eapply Forall_impl; [exact Hall|]); simpl; intros a Ha.
      * apply negb_true_iff, Z.leb_gt. lia.
      * apply Z.leb_gt. lia.
    + apply splice_sorted. exact Hs.
Qed.

Lemma insert_entry_positive l e :
  0 < ts e -> insert_entry l e = spec_insert l e.
Proof.
  intros Hpos. unfold insert_entry, spec_insert.
  destruct (last l), (head l); try reflexivity.
  destruct (_ <=? ts e); [reflexivity|].
  destruct (ts e <=? 0) eqn:H0; [apply Z.leb_le in H0; lia|]. reflexivity.
Qed.

Lemma insert_entry_perm l e : insert_entry l e ≡ₚ e :: l.
Proof.
  assert (Hpush : l ++ [e] ≡ₚ e :: l).
  { rewrite Permutation_app_comm. reflexivity. }
  unfold insert_entry.
  destruct (last l), (head l); try exact Hpush.
  destruct (_ <=? ts e); [exact Hpush|].
  destruct (_ || _); [reflexivity|].
  unfold splice_in. rewrite <- Permutation_middle, take_drop. reflexivity.
Qed.

Lemma partition_sorted c l e :
  ts e = c -> StronglySorted le_ts l ->
  StronglySorted le_ts
    (List.filter (fun val => ts val <=? c) l ++
     e :: List.filter (fun val => negb (ts val <=? c)) l).
Proof.
  intros Hc Hs. apply StronglySorted_app_2.
  - intros a b Ha Hb. apply list_elem_of_In, filter_In in Ha as [_ Ha].
    apply Z.leb_le in Ha. apply elem_of_cons in Hb as [->|Hb]; [simpl; lia|].
    apply list_elem_of_In, filter_In in Hb as [_ Hb].
    apply negb_true_iff, Z.leb_gt in Hb. simpl. lia.
  - apply filter_sorted, Hs.
  - constructor; [apply filter_sorted, Hs|].
    apply Forall_forall. intros b Hb.
    apply list_elem_of_In, filter_In in Hb as [_ Hb].
    apply negb_true_iff, Z.leb_gt in Hb. simpl. lia.
Qed.

(** With no negative timestamps around, an insertion keeps the list
    sorted. *)
Lemma insert_entry_sorted l e :
  StronglySorted le_ts l -> Forall (fun a => 0 <= ts a) l -> 0 <= ts e ->
  StronglySorted le_ts (insert_entry l e).
Proof.
  intros Hs Hnn He.
  destruct (decide (0 < ts e)) as [Hpos|Hzero].
  { rewrite insert_entry_positive, spec_insert_partition by auto.
    apply partition_sorted; auto. }
  assert (ts e = 0) as H0 by lia.
  unfold insert_entry.
  destruct (last l) as [t|] eqn:Hlast.
  2:{ apply last_None in Hlast. subst l. repeat constructor. }
  destruct (head l) as [h|] eqn:Hhead.
  2:{ destruct l; [discriminate Hlast | discriminate Hhead]. }
  destruct (ts t <=? ts e) eqn:Htail.
  - apply Z.leb_le in Htail.
    pose proof (sorted_last_max l t Hs Hlast) as Hall.
    apply StronglySorted_app_2; [|exact Hs|repeat constructor].
    intros a b Ha Hb. apply list_elem_of_singleton in Hb as ->.
    rewrite Forall_forall in Hall. specialize (Hall a Ha). simpl in *. lia.
  - rewrite H0. simpl. constructor; [exact Hs|].
    eapply Forall_impl; [exact Hnn|]. simpl. intros a Ha. lia.
Qed.

Lemma insert_entries_perm changed : forall l,
  foldl insert_entry l changed ≡ₚ changed ++ l.
Proof.
  induction changed as [|e changed IH]; intros l; simpl; [reflexivity|].
  rewrite IH, insert_entry_perm. symmetry. apply Permutation_middle.
Qed.

Lemma insert_entries_sorted changed : forall l,
  StronglySorted le_ts l -> Forall (fun a => 0 <= ts a) l ->
  Forall (fun a => 0 <= ts a) changed ->
  StronglySorted le_ts (foldl insert_entry l changed).
Proof.
  induction changed as [|e changed IH]; intros l Hs Hnn Hch; simpl; [exact Hs|].
  apply Forall_cons in Hch as [He Hch].
  apply IH; [apply insert_entry_sorted; auto| |exact Hch].
  rewrite insert_entry_perm. constructor; auto.
Qed.


(** *** The JS [Map] of changed entries *)

Lemma Map_set_keys {V} (m : list (string * V)) k v :
  (Map_set m k v).*1 = if decide (k ∈ m.*1) then m.*1 else m.*1 ++ [k].
Proof.
  induction m as [|[k' v'] m IH]; cbn [Map_set].
  - destruct (decide _) as [Hin|_]; [inversion Hin | reflexivity].
  - destruct (decide (k' = k)) as [->|Hne].
    + rewrite !fmap_cons. cbn [fst]. clear IH.
      destruct (decide (k ∈ k :: m.*1)) as [_|Hno]; [reflexivity|].
      exfalso. apply Hno. left.
    + rewrite !fmap_cons, IH. cbn [fst].
      destruct (decide (k ∈ m.*1)) as [Hin|Hno];
        destruct (decide (k ∈ k' :: m.*1)) as [Hin'|Hno']; try reflexivity.
      * exfalso. apply Hno'. right. exact Hin.
      * apply elem_of_cons in Hin' as [->|Hin']; [congruence | contradiction].
Qed.

Lemma Map_set_elem {V} (m : list (string * V)) k v kv :
  kv ∈ Map_set m k v -> kv = (k, v) \/ kv ∈ m.
Proof.
  induction m as [|[k' v'] m IH]; simpl.
  - intros Hin. apply list_elem_of_singleton in Hin. auto.
  - destruct (decide (k' = k)) as [->|Hne].
    + intros Hin. apply elem_of_cons in Hin as [->|Hin]; [auto|].
      right. right. exact Hin.
    + intros Hin. apply elem_of_cons in Hin as [->|Hin]; [right; left|].
      destruct (IH Hin) as [->|Hin']; [auto|]. right. right. exact Hin'.
Qed.

Lemma Map_set_nonempty {V} (m : list (string * V)) k v : Map_set m k v <> [].
Proof. destruct m as [|[k' v'] m]; simpl; [|destruct (decide (k' = k))]; discriminate. Qed.

Lemma Map_set_NoDup {V} (m : list (string * V)) k v :
  NoDup m.*1 -> NoDup (Map_set m k v).*1.
Proof.
  intros Hnd. rewrite Map_set_keys. destruct (decide (k ∈ m.*1)); [exact Hnd|].
  apply NoDup_app. repeat split; auto.
  - intros x Hx Hk. apply list_elem_of_singleton in Hk as ->. contradiction.
  - apply NoDup_singleton.
Qed.

Section RoomList.
Context `{RS : RoomStore}.

Lemma sync_room_step b rs ch k d :
  exists room entry,
    sync_room b (rs, ch) (k, d) =
      (<[k := room]> rs,
       if negb b && changed_at rs k d then Map_set ch k entry else ch) /\
    e_room_id entry = room_id (meta d) /\
    ts entry = sorting_timestamp (meta d).
Proof.
  unfold sync_room, changed_at.
  destruct (rs !! k) as [old|]; eexists _, _; (split; [reflexivity|]);
    split; reflexivity.
Qed.

(** What the loop leaves in [this.rooms] and in the map of changed
    entries. *)
Lemma sync_rooms_spec b sync : forall rs ch rs' ch',
  foldl (sync_room b) (rs, ch) sync = (rs', ch') ->
  (forall r, is_Some (rs' !! r) <-> is_Some (rs !! r) \/ r ∈ sync.*1) /\
  (NoDup ch.*1 -> NoDup ch'.*1) /\
  (forall kv, kv ∈ ch' ->
     kv ∈ ch \/ (b = false /\ exists d, (kv.1, d) ∈ sync /\
                 e_room_id kv.2 = room_id (meta d) /\
                 ts kv.2 = sorting_timestamp (meta d))) /\
  (forall k, k ∈ ch.*1 -> k ∈ ch'.*1) /\
  (b = false -> forall k, k ∈ sync.*1 -> rs !! k = None -> k ∈ ch'.*1) /\
  (NoDup sync.*1 ->
     (ch' <> [] <-> ch <> [] \/
        (b = false /\ exists k d, (k, d) ∈ sync /\ changed_at rs k d = true))).
Proof.
  induction sync as [|[k d] sync IH]; intros rs ch rs' ch'.
  - simpl. intros [= <- <-]. repeat split; auto.
    + intros [Hr|Hr]; [auto | inversion Hr].
    + intros _ k Hk. inversion Hk.
    + intros [Hc|(_ & k & d & Hc & _)]; [auto | inversion Hc].
  - cbn [foldl]. destruct (sync_room_step b rs ch k d) as (room & entry & -> & Hid & Hts).
    intros Hrun. apply IH in Hrun as (Hdom & Hnd & Hch & Hkeep & Hnew & Hne).
    set (ch1 := if negb b && changed_at rs k d then Map_set ch k entry else ch) in *.
    assert (Hkeep1 : forall k', k' ∈ ch.*1 -> k' ∈ ch1.*1).
    { intros k' Hk'. subst ch1. destruct (negb b && _); [|exact Hk'].
      rewrite Map_set_keys. destruct (decide (k ∈ ch.*1)); [exact Hk'|].
      apply elem_of_app. auto. }
    split; [|split; [|split; [|split; [|split]]]].
    + intros r. split.
      * intros Hr. apply Hdom in Hr as [Hr|Hr].
        -- destruct (decide (k = r)) as [->|Hkr]; [right; left|].
           rewrite lookup_insert_ne in Hr by exact Hkr. auto.
        -- right. right. exact Hr.
      * intros [Hr|Hr]; apply Hdom.
        -- destruct (decide (k = r)) as [->|Hkr].
           ++ left. rewrite lookup_insert_eq. eauto.
           ++ left. rewrite lookup_insert_ne by exact Hkr. exact Hr.
        -- simpl in Hr. apply elem_of_cons in Hr as [->|Hr]; [|auto].
           left. rewrite lookup_insert_eq. eauto.
    + intros Hnd0. apply Hnd. subst ch1. destruct (negb b && _); [|exact Hnd0].
      apply Map_set_NoDup, Hnd0.
    + intros kv Hkv. destruct (Hch kv Hkv) as [Hin|(Hb & d' & Hd' & Hrest)].
      * subst ch1. destruct (negb b && changed_at rs k d) eqn:Hcond; [|auto].
        apply Map_set_elem in Hin as [->|Hin]; [|auto].
        right. apply andb_true_iff in Hcond as [Hb _].
        apply negb_true_iff in Hb. split; [exact Hb|].
        exists d. simpl. repeat split; auto. left.
      * right. split; [exact Hb|]. exists d'. split; [right; exact Hd'|exact Hrest].
    + intros k' Hk'. apply Hkeep, Hkeep1, Hk'.
    + intros Hb k' Hk' Hnone. simpl in Hk'.
      destruct (decide (k' = k)) as [->|Hkk].
      * apply Hkeep. subst ch1. unfold changed_at. rewrite Hnone, Hb. simpl.
        rewrite Map_set_keys. destruct (decide (k ∈ ch.*1)); [assumption|].
        apply elem_of_app. right. left.
      * apply elem_of_cons in Hk' as [->|Hk']; [contradiction|].
        apply (Hnew Hb k' Hk'). rewrite lookup_insert_ne by auto. exact Hnone.
    + intros Hnd0. simpl in Hnd0. apply NoDup_cons in Hnd0 as [Hk Hnd0].
      assert (Hsame : forall k' d', (k', d') ∈ sync ->
                changed_at (<[k := room]> rs) k' d' = changed_at rs k' d').
      { intros k' d' Hin. unfold changed_at. rewrite lookup_insert_ne; [reflexivity|].
        intros ->. apply Hk. apply list_elem_of_fmap. exists (k', d'). auto. }
      rewrite (Hne Hnd0). split.
      * intros [Hch1|(Hb & k' & d' & Hin & Hc)].
        -- subst ch1. destruct (negb b && changed_at rs k d) eqn:Hcond; [|auto].
           right. apply andb_true_iff in Hcond as [Hb Hc].
           apply negb_true_iff in Hb. split; [exact Hb|]. exists k, d.
           split; [left | exact Hc].
        -- right. split; [exact Hb|]. exists k', d'.
           split; [right; exact Hin|]. rewrite <- Hsame by exact Hin. exact Hc.
      * intros [Hch0|(Hb & k' & d' & Hin & Hc)].
        -- left. subst ch1. destruct (negb b && _); [apply Map_set_nonempty | exact Hch0].
        -- apply elem_of_cons in Hin as [[= -> ->]|Hin].
           ++ left. subst ch1. rewrite Hb, Hc. simpl. apply Map_set_nonempty.
           ++ right. split; [exact Hb|]. exists k', d'. split; [exact Hin|].
              rewrite Hsame by exact Hin. exact Hc.
Qed.

(** The three ways [applySync] ends: first population, some entries
    changed, nothing changed. *)
Lemma applySync_cases st sync :
  exists rs' ch',
    foldl (sync_room (bool_decide (length (roomList st) = 0%nat)))
          (rooms st, []) sync = (rs', ch') /\
    ((roomList st = [] /\
      let l := sort_by_timestamp ((fun kv => makeRoomListEntry rs' kv.2 None) <$> sync) in
      applySync st sync = (mkStore rs' l, Some l)) \/
     (roomList st <> [] /\ ch' <> [] /\
      let l := foldl insert_entry
                 (List.filter (fun entry => negb (Map_has ch' (e_room_id entry)))
                              (roomList st)) ch'.*2 in
      applySync st sync = (mkStore rs' l, Some l)) \/
     (roomList st <> [] /\ ch' = [] /\
      applySync st sync = (mkStore rs' (roomList st), None))).
Proof.
  unfold applySync.
  destruct (foldl _ _ sync) as [rs' ch'] eqn:Hfold. exists rs', ch'.
  split; [reflexivity|].
  destruct (roomList st) as [|e l] eqn:Hl.
  - left. split; [reflexivity|]. reflexivity.
  - right. rewrite bool_decide_eq_false_2 by discriminate.
    destruct ch' as [|kv ch'].
    + right. repeat split; auto; discriminate.
    + left. repeat split; auto; discriminate.
Qed.

Lemma filter_ids_NoDup (f : RoomListEntry -> bool) l :
  NoDup (e_room_id <$> l) -> NoDup (e_room_id <$> List.filter f l).
Proof.
  intros Hnd. eapply sublist_NoDup; [exact Hnd|].
  induction l as [|x l IH]; simpl; [constructor|].
  apply NoDup_cons in Hnd as [_ Hnd].
  destruct (f x); [apply sublist_skip | apply sublist_cons]; auto.
Qed.

(** [applySync] keeps exactly one entry per known room. *)
Lemma applySync_one_entry st sync :
  sync_wf sync -> one_entry_per_room st -> one_entry_per_room (applySync st sync).1.
Proof.
  intros [Hkeys Hfiled] [Hnd Hdom].
  destruct (applySync_cases st sync) as (rs' & ch' & Hfold & Hcase).
  apply sync_rooms_spec in Hfold as (Hrs & Hchnd & Hch & _ & Hnew & _).
  assert (Hids : (fun kv : string * SyncRoom => room_id (meta kv.2)) <$> sync = sync.*1).
  { apply list_fmap_ext. intros i kv Hi. rewrite Forall_forall in Hfiled.
    apply Hfiled. eapply list_elem_of_lookup_2. exact Hi. }
  destruct Hcase as [[Hempty Hrun]|[(Hne & Hchne & Hrun)|(Hne & Hchnil & Hrun)]];
    rewrite Hrun; unfold one_entry_per_room; cbn [fst rooms roomList].
  - (* first population *)
    assert (Hperm : e_room_id <$> sort_by_timestamp
                      ((fun kv => makeRoomListEntry rs' kv.2 None) <$> sync) ≡ₚ sync.*1).
    { rewrite sort_by_timestamp_perm, <- list_fmap_compose, <- Hids. reflexivity. }
    split; [rewrite Hperm; exact Hkeys|].
    intros r. rewrite Hperm, Hrs, <- Hdom, Hempty. simpl. split; [auto|].
    intros [H|H]; [inversion H | exact H].
  - (* some entries changed *)
    set (kept := List.filter (fun entry => negb (Map_has ch' (e_room_id entry)))
                             (roomList st)).
    assert (Hcons : e_room_id <$> ch'.*2 = ch'.*1).
    { rewrite <- list_fmap_compose. apply list_fmap_ext. intros i kv Hi.
      destruct (Hch kv) as [Hin|(_ & d & Hd & Hid & _)];
        [eapply list_elem_of_lookup_2; exact Hi | inversion Hin |].
      simpl. rewrite Hid. rewrite Forall_forall in Hfiled.
      apply (Hfiled (kv.1, d) Hd). }
    assert (Hperm : e_room_id <$> foldl insert_entry kept ch'.*2 ≡ₚ
                    ch'.*1 ++ (e_room_id <$> kept)).
    { rewrite insert_entries_perm, fmap_app, Hcons. reflexivity. }
    assert (Hkept : forall r, r ∈ (e_room_id <$> kept) <->
                      r ∈ (e_room_id <$> roomList st) /\ r ∉ ch'.*1).
    { intros r. subst kept. split.
      - intros Hr. apply list_elem_of_fmap in Hr as (e & -> & He).
        apply list_elem_of_In, filter_In in He as [He Hno].
        apply negb_true_iff in Hno. unfold Map_has in Hno.
        apply bool_decide_eq_false in Hno. split; [|exact Hno].
        apply list_elem_of_fmap. exists e. split; [reflexivity | apply list_elem_of_In, He].
      - intros [Hr Hno]. apply list_elem_of_fmap in Hr as (e & -> & He).
        apply list_elem_of_fmap. exists e. split; [reflexivity|].
        apply list_elem_of_In, filter_In. split; [apply list_elem_of_In, He|].
        apply negb_true_iff. unfold Map_has. apply bool_decide_eq_false. exact Hno. }
    assert (Hsub : forall r, r ∈ ch'.*1 -> r ∈ sync.*1).
    { intros r Hr. apply list_elem_of_fmap in Hr as (kv & -> & Hkv).
      destruct (Hch kv Hkv) as [Hin|(_ & d & Hd & _)]; [inversion Hin|].
      apply list_elem_of_fmap. exists (kv.1, d). auto. }
    split.
    + rewrite Hperm. apply NoDup_app. repeat split.
      * apply Hchnd. constructor.
      * intros r Hr Hr'. apply Hkept in Hr' as [_ Hno]. contradiction.
      * apply filter_ids_NoDup, Hnd.
    + intros r. rewrite Hperm, elem_of_app, Hkept, Hrs, <- Hdom. split.
      * intros [Hr|[Hr _]]; auto.
      * intros [Hr|Hr].
        -- destruct (decide (r ∈ ch'.*1)); auto.
        -- destruct (decide (r ∈ (e_room_id <$> roomList st))) as [Hin|Hout].
           ++ destruct (decide (r ∈ ch'.*1)); auto.
           ++ left. apply Hnew; auto.
              { apply bool_decide_eq_false_2. destruct (roomList st); [contradiction|].
                discriminate. }
              destruct (rooms st !! r) eqn:Hlook; [|reflexivity].
              exfalso. apply Hout, Hdom. eauto.
  - (* nothing changed *)
    split; [exact Hnd|].
    intros r. rewrite Hrs, <- Hdom. split; [auto|].
    intros [Hr|Hr]; [exact Hr|].
    destruct (rooms st !! r) eqn:Hlook; [apply Hdom; eauto|].
    exfalso. assert (Hin : r ∈ ch'.*1).
    { apply Hnew; auto. apply bool_decide_eq_false_2.
      destruct (roomList st); [contradiction | discriminate]. }
    rewrite Hchnil in Hin. inversion Hin.
Qed.

(** With no negative timestamp in the list or in the payload,
    [applySync] keeps the list sorted. *)
Lemma applySync_sorted st sync :
  timestamps_nonneg sync ->
  sorted_by_timestamp (roomList st) /\ Forall (fun a => 0 <= ts a) (roomList st) ->
  sorted_by_timestamp (roomList (applySync st sync).1) /\
  Forall (fun a => 0 <= ts a) (roomList (applySync st sync).1).
Proof.
  intros Hts [Hs Hnn]. unfold timestamps_nonneg in Hts.
  destruct (applySync_cases st sync) as (rs' & ch' & Hfold & Hcase).
  apply sync_rooms_spec in Hfold as (_ & _ & Hch & _ & _ & _).
  destruct Hcase as [[Hempty Hrun]|[(Hne & Hchne & Hrun)|(Hne & Hchnil & Hrun)]];
    rewrite Hrun; cbn [fst rooms roomList].
  - split; [apply sort_by_timestamp_sorted|].
    rewrite sort_by_timestamp_perm. apply Forall_fmap.
    eapply Forall_impl; [exact Hts|]. simpl. auto.
  - assert (Hchts : Forall (fun a => 0 <= ts a) ch'.*2).
    { apply Forall_fmap, Forall_forall. intros kv Hkv. simpl.
      destruct (Hch kv Hkv) as [Hin|(_ & d & Hd & _ & ->)]; [inversion Hin|].
      rewrite Forall_forall in Hts. apply (Hts (kv.1, d) Hd). }
    assert (Hkept : forall f, Forall (fun a => 0 <= ts a) (List.filter f (roomList st))).
    { intros f. apply Forall_forall. intros a Ha.
      apply list_elem_of_In, filter_In in Ha as [Ha _].
      rewrite Forall_forall in Hnn. apply Hnn, list_elem_of_In, Ha. }
    split.
    + apply insert_entries_sorted; auto. apply filter_sorted, Hs.
    + rewrite insert_entries_perm. apply Forall_app. auto.
  - auto.
Qed.

Lemma StateStore_new_one_entry : one_entry_per_room StateStore_new.
Proof.
  split; [constructor|]. intros r. simpl. rewrite lookup_empty. split.
  - intros H. inversion H.
  - intros [x Hx]. discriminate.
Qed.

Lemma applySyncs_one_entry syncs : forall st,
  Forall sync_wf syncs -> one_entry_per_room st ->
  one_entry_per_room (applySyncs st syncs).
Proof.
  induction syncs as [|sync syncs IH]; intros st Hwf Hinv; [exact Hinv|].
  apply Forall_cons in Hwf as [Hwf Hwfs]. cbn [applySyncs foldl].
  apply IH; [exact Hwfs | apply applySync_one_entry; auto].
Qed.

Lemma applySyncs_sorted syncs : forall st,
  Forall timestamps_nonneg syncs ->
  sorted_by_timestamp (roomList st) /\ Forall (fun a => 0 <= ts a) (roomList st) ->
  sorted_by_timestamp (roomList (applySyncs st syncs)).
Proof.
  induction syncs as [|sync syncs IH]; intros st Hts Hinv; [apply Hinv|].
  apply Forall_cons in Hts as [Hts Htss]. cbn [applySyncs foldl].
  apply IH; [exact Htss | apply applySync_sorted; auto].
Qed.

Lemma insert_entry_nonpositive l e :
  ts e <= 0 ->
  insert_entry l e =
    match last l with
    | Some tail_ => if ts tail_ <=? ts e then l ++ [e] else e :: l
    | None => l ++ [e]
    end.
Proof.
  intros Hle. unfold insert_entry.
  destruct (last l) as [t|] eqn:Hlast; [|reflexivity].
  destruct (head l) as [h|] eqn:Hhead.
  2:{ destruct l; [discriminate Hlast | discriminate Hhead]. }
  destruct (ts t <=? ts e); [reflexivity|].
  apply Z.leb_le in Hle. rewrite Hle. reflexivity.
Qed.

(** C4, as the code has it.  After any sequence of well-formed sync
    payloads fed to a new [StateStore], [roomList] holds exactly one entry
    per known room, and it is sorted ascending by [sorting_timestamp]
    provided no payload carries a negative timestamp.  The first
    population is sorted, stably, whatever the timestamps.  A changed
    entry with a positive timestamp goes where the rule says (after the
    tail, before the head, or right after the last entry that is not
    larger), which on a sorted list is right after all entries that are
    not larger; an entry with a timestamp of zero or less is appended when
    it is not smaller than the tail and prepended otherwise. *)
Theorem applySync_room_list syncs :
  Forall sync_wf syncs ->
  one_entry_per_room (applySyncs StateStore_new syncs) /\
  (Forall timestamps_nonneg syncs ->
     sorted_by_timestamp (roomList (applySyncs StateStore_new syncs))) /\
  (forall sync,
     let l := roomList (applySync StateStore_new sync).1 in
     sorted_by_timestamp l /\
     forall t, List.filter (fun e => ts e =? t) l =
               List.filter (fun e => ts e =? t)
                 ((fun kv => makeRoomListEntry (applySync StateStore_new sync).1.(rooms)
                                               kv.2 None) <$> sync)) /\
  (forall l e, 0 < ts e ->
     insert_entry l e = spec_insert l e /\
     (sorted_by_timestamp l ->
        insert_entry l e =
          List.filter (fun val => ts val <=? ts e) l ++
          e :: List.filter (fun val => negb (ts val <=? ts e)) l)) /\
  (forall l e, ts e <= 0 ->
     insert_entry l e =
       match last l with
       | Some tail_ => if ts tail_ <=? ts e then l ++ [e] else e :: l
       | None => l ++ [e]
       end).
Proof.
  intros Hwf. split; [|split; [|split; [|split]]].
  - apply applySyncs_one_entry; [exact Hwf | apply StateStore_new_one_entry].
  - intros Hts. apply applySyncs_sorted; [exact Hts|]. simpl.
    split; constructor.
  - intros sync.
    destruct (applySync_cases StateStore_new sync) as (rs' & ch' & _ & Hcase).
    destruct Hcase as [[_ Hrun]|[(Hne & _)|(Hne & _)]];
      [|exfalso; apply Hne; reflexivity ..].
    cbv zeta in Hrun. rewrite Hrun. cbn [fst rooms roomList].
    split; [apply sort_by_timestamp_sorted|].
    intros t. apply sort_by_timestamp_stable.
  - intros l e Hpos. split; [apply insert_entry_positive, Hpos|].
    intros Hs. rewrite insert_entry_positive by exact Hpos.
    apply spec_insert_partition, Hs.
  - apply insert_entry_nonpositive.
Qed.

Lemma changed_at_true (rs : gmap string RoomStateStore) k d :
  changed_at rs k d = true <->
  rs !! k = None \/ exists old, rs !! k = Some old /\ roomListEntryChanged d old = true.
Proof.
  unfold changed_at. destruct (rs !! k) as [old|]; split; auto.
  - intros H. right. eauto.
  - intros [H|(old' & [= <-] & H)]; [discriminate | exact H].
Qed.

(** C5, as the code has it.  [applySync] calls [roomList.emit] exactly
    when the current list is empty, or a touched room is new to the store,
    or a touched room compares as changed against its stored entry.  What
    it emits is the new list; without an emit the list stays as it is. *)
Theorem applySync_emits_iff st sync :
  sync_wf sync ->
  (is_Some (applySync st sync).2 <->
     roomList st = [] \/ some_room_new st sync \/ some_entry_changed st sync) /\
  (forall l, (applySync st sync).2 = Some l -> roomList (applySync st sync).1 = l) /\
  ((applySync st sync).2 = None -> roomList (applySync st sync).1 = roomList st).
Proof.
  intros [Hkeys _].
  destruct (applySync_cases st sync) as (rs' & ch' & Hfold & Hcase).
  apply sync_rooms_spec in Hfold as (_ & _ & _ & _ & _ & Hne).
  specialize (Hne Hkeys).
  assert (Hchanged : (exists k d, (k, d) ∈ sync /\ changed_at (rooms st) k d = true) <->
                     some_room_new st sync \/ some_entry_changed st sync).
  { unfold some_room_new, some_entry_changed. split.
    - intros (k & d & Hin & Hc). apply changed_at_true in Hc as [Hc|(old & Hold & Hc)].
      + left. eauto.
      + right. exists k, d, old. auto.
    - intros [(k & d & Hin & Hc)|(k & d & old & Hin & Hold & Hc)];
        exists k, d; (split; [exact Hin|]); apply changed_at_true; eauto. }
  destruct Hcase as [[Hempty Hrun]|[(Hnl & Hchne & Hrun)|(Hnl & Hchnil & Hrun)]];
    cbv zeta in Hrun; rewrite Hrun; cbn [fst snd rooms roomList].
  - split; [|split].
    + split; [intros _; left; exact Hempty | eauto].
    + intros l [= <-]. reflexivity.
    + discriminate.
  - split; [|split].
    + split; [|eauto]. intros _. right. apply Hchanged.
      apply Hne in Hchne as [H|[_ H]]; [contradiction | exact H].
    + intros l [= <-]. reflexivity.
    + discriminate.
  - split; [|split].
    + split; [intros [x [=]]|].
      intros [H|H]; [contradiction|]. exfalso.
      apply Hchanged in H.
      assert (Hx : ch' <> []).
      { apply Hne. right. split; [|exact H].
        apply bool_decide_eq_false_2. destruct (roomList st); [contradiction|].
        discriminate. }
      contradiction.
    + discriminate.
    + reflexivity.
Qed.

End RoomList.

(** *** The room list on concrete payloads *)

Ltac by_decide := apply (bool_decide_unpack _); vm_compute; exact I.

Lemma sorted_timestamps l :
  sorted_by_timestamp l -> StronglySorted Z.le (ts <$> l).
Proof.
  unfold sorted_by_timestamp. induction 1 as [|x l Hs IH Hx]; simpl; constructor; auto.
  apply Forall_fmap. exact Hx.
Qed.

(** C4 as stated fails.  With a negative timestamp in the list, an entry
    with timestamp 0 is put in front of it, and the list is no longer
    sorted; with timestamps 0 and 10 in the list, an entry with timestamp
    0 is put in front of the equal one, not after it. *)
Lemma applySync_unsorted_counterexample :
  let syncs := [[room_at "!a" (-5); room_at "!b" 10]; [room_at "!c" 0]] in
  let l := roomList (@applySyncs SimpleRoomStore StateStore_new syncs) in
  let syncs0 := [[room_at "!a" 0; room_at "!b" 10]; [room_at "!c" 0]] in
  let l0 := roomList (@applySyncs SimpleRoomStore StateStore_new syncs0) in
  Forall sync_wf syncs /\ ~ sorted_by_timestamp l /\
  Forall sync_wf syncs0 /\ e_room_id <$> l0 = ["!c"; "!a"; "!b"].
Proof.
  cbv zeta. split; [|split; [|split]].
  - repeat constructor; by_decide.
  - intros Hs. apply sorted_timestamps in Hs.
    assert (Hl : ts <$> roomList (@applySyncs SimpleRoomStore StateStore_new
                   [[room_at "!a" (-5); room_at "!b" 10]; [room_at "!c" 0]])
                 = [0; -5; 10]) by (vm_compute; reflexivity).
    rewrite Hl in Hs. apply StronglySorted_cons in Hs as [Hall _].
    apply Forall_cons in Hall as [H _]. lia.
  - repeat constructor; by_decide.
  - vm_compute. reflexivity.
Qed.

Lemma applySync_room_list_witness :
  one_entry_per_room
    (@applySyncs SimpleRoomStore StateStore_new
       [[room_at "!a" 5; room_at "!b" 10]; [room_at "!c" 7]]).
Proof.
  apply (@applySync_room_list SimpleRoomStore
           [[room_at "!a" 5; room_at "!b" 10]; [room_at "!c" 7]]).
  repeat constructor; by_decide.
Defined.

(** C5 as stated fails.  A populated list and a payload with a room the
    store has not seen: the list is emitted, although no touched room
    compares as changed against a stored entry. *)
Lemma applySync_new_room_counterexample :
  let st := (@applySync SimpleRoomStore StateStore_new [room_at "!a" 5]).1 in
  let sync := [room_at "!b" 7] in
  sync_wf sync /\ roomList st <> [] /\
  is_Some (applySync st sync).2 /\ ~ some_entry_changed st sync.
Proof.
  cbv zeta. split; [|split; [|split]].
  - split; [by_decide | repeat constructor].
  - vm_compute. discriminate.
  - vm_compute. eauto.
  - intros (roomID & data & old & Hin & Hold & _).
    apply list_elem_of_singleton in Hin. injection Hin as -> ->.
    vm_compute in Hold. discriminate.
Qed.

Lemma applySync_emits_iff_witness :
  let st := (@applySync SimpleRoomStore StateStore_new [room_at "!a" 5]).1 in
  is_Some (applySync st [room_at "!a" 5]).2 <->
  roomList st = [] \/ some_room_new st [room_at "!a" 5] \/
  some_entry_changed st [room_at "!a" 5].
Proof.
  intros st.
  apply (@applySync_emits_iff SimpleRoomStore st [room_at "!a" 5]).
  split; [by_decide | repeat constructor].
Defined.


End StatestoreSpec.

(** ** Properties of [sendInitialData] *)

Module WebsocketSpec.
Import Websocket.

Section SendProofs.
Context `{C : Conn}.

(** The inner loop only adds rooms whose timestamp differs from the one
    of the last room of the batch. *)
Lemma fill_payload_dom batch last_ts rooms : forall payload maxTS payload' maxTS',
  fill_payload batch last_ts rooms payload maxTS = Ok (payload', maxTS') ->
  forall id, is_Some (payload' !! id) ->
    is_Some (payload !! id) \/
    exists r, r ∈ rooms /\ ID r = id /\ SortingTimestamp r <> last_ts.
Proof.
  induction rooms as [|room rest IH]; intros payload maxTS payload' maxTS'.
  - intros [= <- <-] id Hid. auto.
  - cbn [fill_payload].
    destruct (decide (SortingTimestamp room = last_ts)) as [Heq|Hne].
    { intros [= <- <-] id Hid. auto. }
    assert (Hstep : forall evts,
      fill_payload batch last_ts rest
        (<[ID room := mkSyncRoom room evts]> payload) (SortingTimestamp room)
        = Ok (payload', maxTS') ->
      forall id, is_Some (payload' !! id) ->
        is_Some (payload !! id) \/
        exists r, r ∈ room :: rest /\ ID r = id /\ SortingTimestamp r <> last_ts).
    { intros evts Hrun id Hid.
      destruct (IH _ _ _ _ Hrun id Hid) as [Hin|(r & Hr & Hrid & Hts)].
      - destruct (decide (ID room = id)) as [Hsame|Hdiff].
        + right. exists room. split; [left|]. auto.
        + rewrite lookup_insert_ne in Hin by exact Hdiff. auto.
      - right. exists r. split; [right; exact Hr | auto]. }
    destruct (decide (PreviewEventRowID room = 0)); [apply Hstep|].
    destruct (Event_GetByRowID batch (PreviewEventRowID room)) as [[previewEvent|]|e];
      [|apply Hstep|discriminate].
    destruct (LastEditRowID previewEvent) as [editRow|]; [|apply Hstep].
    destruct (Event_GetByRowID batch editRow) as [[lastEdit|]|e];
      [apply Hstep | apply Hstep | discriminate].
Qed.

(** A batch of fewer than [BatchSize] rooms is the last one: the loop
    stops after it, and the rooms that share the timestamp of its last
    room, that room included, are in no payload. *)
Lemma send_loop_final_batch fuel batch maxTS roomCount sent rooms payload maxTS' :
  Room_GetBySortTS batch maxTS BatchSize = Ok rooms ->
  (length rooms < BatchSize)%nat ->
  fill_payload batch (default 0 (SortingTimestamp <$> last rooms)) rooms ∅ maxTS
    = Ok (payload, maxTS') ->
  json_Marshal payload = Ok tt ->
  writeCmd batch payload = Ok tt ->
  send_loop (S fuel) batch maxTS roomCount sent =
    Some (sent ++ [payload], Completed (roomCount + length rooms)) /\
  forall room, last rooms = Some room ->
    NoDup (ID <$> rooms) -> payload !! ID room = None.
Proof.
  intros Hget Hlen Hfill Hjson Hwrite. split.
  - cbn [send_loop]. rewrite Hget, Hfill, Hjson, Hwrite.
    destruct (decide (length rooms < BatchSize)%nat); [reflexivity | contradiction].
  - intros room Hlast Hnd.
    destruct (payload !! ID room) as [sr|] eqn:Hlook; [|reflexivity]. exfalso.
    destruct (fill_payload_dom _ _ _ _ _ _ _ Hfill (ID room)) as [Hin|(r & Hr & Hid & Hts)];
      [rewrite Hlook; eauto | rewrite lookup_empty in Hin; destruct Hin; discriminate |].
    rewrite Hlast in Hts. simpl in Hts.
    apply last_Some in Hlast as [l' ->].
    rewrite fmap_app in Hnd. apply NoDup_app in Hnd as (_ & Hdisj & _).
    apply elem_of_app in Hr as [Hr|Hr].
    + apply (Hdisj (ID r)); [apply list_elem_of_fmap; eauto|].
      rewrite Hid. simpl. left.
    + apply list_elem_of_singleton in Hr as ->. contradiction.
Qed.

(** When a full batch comes back whose first room already has the
    timestamp of its last room, the turn sends an empty payload and leaves
    [maxTS] as it was; if the store keeps answering like that, the loop
    never ends. *)
Lemma send_loop_stuck maxTS rooms room :
  (forall batch, Room_GetBySortTS batch maxTS BatchSize = Ok rooms) ->
  length rooms = BatchSize ->
  head rooms = Some room -> SortingTimestamp <$> last rooms = Some (SortingTimestamp room) ->
  json_Marshal ∅ = Ok tt ->
  (forall batch, writeCmd batch ∅ = Ok tt) ->
  forall fuel batch roomCount sent,
    send_loop fuel batch maxTS roomCount sent = None.
Proof.
  intros Hget Hlen Hhead Hlast Hjson Hwrite.
  induction fuel as [|fuel IH]; intros batch roomCount sent; [reflexivity|].
  cbn [send_loop]. rewrite Hget, Hlast. cbn [default]. unfold id.
  apply head_Some in Hhead as [rest ->]. cbn [fill_payload].
  destruct (decide (SortingTimestamp room = SortingTimestamp room)) as [_|Hne];
    [|contradiction].
  cbv beta iota. rewrite Hjson, Hwrite.
  destruct (decide (length (room :: rest) < BatchSize)%nat) as [Hlt|_]; [lia|].
  apply IH.
Qed.

End SendProofs.

(** C8.  One stored room: [sendInitialData] writes a single
    [sync_complete] with no room in it and reports one room sent.  Three
    stored rooms: the one with the oldest timestamp is in no payload.  A
    hundred rooms with one timestamp: the loop is still running after any
    number of turns. *)
Theorem sendInitialData_oldest_room_never_sent :
  @sendInitialData (StoredRooms [mkRoom "!a" 1000 0]) 1 5000
    = Some ([∅], Completed 1) /\
  (exists payload,
     @sendInitialData
        (StoredRooms [mkRoom "!a" 1000 0; mkRoom "!b" 3000 0; mkRoom "!c" 2000 0])
        1 5000 = Some ([payload], Completed 3) /\
     payload !! "!a" = None /\
     is_Some (payload !! "!b") /\ is_Some (payload !! "!c")) /\
  (forall fuel, @sendInitialData (StoredRooms same_time_rooms) fuel 5000 = None).
Proof.
  split; [vm_compute; reflexivity|]. split.
  - eexists. split; [vm_compute; reflexivity|]. vm_compute. eauto.
  - intros fuel. unfold sendInitialData.
    eapply (@send_loop_stuck (StoredRooms same_time_rooms) _ _
              (mkRoom "!room0" 1000 0)).
    + intros batch. reflexivity.
    + vm_compute. reflexivity.
    + vm_compute. reflexivity.
    + vm_compute. reflexivity.
    + reflexivity.
    + intros batch. reflexivity.
Qed.

End WebsocketSpec.

(** ** Properties of the auth token *)

Module ServerSpec.
Import Server.

(** *** Base64 *)

Lemma dec_enc_char x0 x1 x2 x3 x4 x5 :
  dec_char (enc_char (Ascii x0 x1 x2 x3 x4 x5 false false)) =
  Some (Ascii x0 x1 x2 x3 x4 x5 false false).
Proof. destruct x0, x1, x2, x3, x4, x5; reflexivity. Qed.

Lemma enc_char_plain x0 x1 x2 x3 x4 x5 :
  plain (enc_char (Ascii x0 x1 x2 x3 x4 x5 false false)) = true.
Proof. destruct x0, x1, x2, x3, x4, x5; reflexivity. Qed.

Lemma octets_sextets a b c :
  let '(s1, s2, s3, s4) := sextets a b c in octets s1 s2 s3 s4 = (a, b, c).
Proof. destruct a, b, c. reflexivity. Qed.

(** Induction on a byte string three bytes at a time. *)
Lemma string_ind3 (P : string -> Prop) :
  P EmptyString ->
  (forall a, P (String a EmptyString)) ->
  (forall a b, P (String a (String b EmptyString))) ->
  (forall a b c rest, P rest -> P (String a (String b (String c rest)))) ->
  forall s, P s.
Proof.
  intros H0 H1 H2 H3.
  assert (Hall : forall s, P s /\ (forall a, P (String a s)) /\
                           (forall a b, P (String a (String b s)))).
  { induction s as [|c s (IH0 & IH1 & IH2)].
    - auto.
    - repeat split; auto. }
  intros s. apply Hall.
Qed.

#[local] Opaque enc_char dec_char plain.

Lemma EncodeToString_plain src : all_plain (EncodeToString src) = true.
Proof.
  induction src as [|a|a b|a b c rest IH] using string_ind3.
  - reflexivity.
  - destruct a. cbn [EncodeToString sextets zero all_plain].
    rewrite !enc_char_plain. reflexivity.
  - destruct a, b. cbn [EncodeToString sextets zero all_plain].
    rewrite !enc_char_plain. reflexivity.
  - destruct a, b, c. cbn [EncodeToString sextets all_plain].
    rewrite !enc_char_plain, IH. reflexivity.
Qed.

#[local] Transparent plain.

Lemma strip_newlines_plain s : all_plain s = true -> strip_newlines s = s.
Proof.
  induction s as [|c s IH]; simpl; [reflexivity|].
  intros Hp. apply andb_true_iff in Hp as [Hc Hs]. unfold plain in Hc.
  apply andb_true_iff in Hc as [Hc Hlf]. apply andb_true_iff in Hc as [_ Hcr].
  apply negb_true_iff in Hcr, Hlf. rewrite Hcr, Hlf. simpl. rewrite IH by exact Hs.
  reflexivity.
Qed.

Lemma decode_quanta_encode src : decode_quanta (EncodeToString src) = Some src.
Proof.
  induction src as [|a|a b|a b c rest IH] using string_ind3.
  - reflexivity.
  - destruct a. cbn [EncodeToString sextets zero decode_quanta].
    rewrite !dec_enc_char. reflexivity.
  - destruct a, b. cbn [EncodeToString sextets zero decode_quanta].
    rewrite !dec_enc_char. reflexivity.
  - destruct a, b, c. cbn [EncodeToString sextets decode_quanta].
    rewrite !dec_enc_char. cbn [mbind option_bind]. rewrite IH. reflexivity.
Qed.

(** Decoding what was encoded gives the bytes back. *)
Lemma DecodeString_EncodeToString src :
  DecodeString (EncodeToString src) = Some src.
Proof.
  unfold DecodeString. rewrite strip_newlines_plain by apply EncodeToString_plain.
  apply decode_quanta_encode.
Qed.

(** *** [strings.Split] *)

Lemma Split_plain s : all_plain s = true -> Split s "."%char = [s].
Proof.
  induction s as [|c s IH]; simpl; [reflexivity|].
  intros Hp. apply andb_true_iff in Hp as [Hc Hs]. unfold plain in Hc.
  apply andb_true_iff in Hc as [Hc _]. apply andb_true_iff in Hc as [Hdot _].
  apply negb_true_iff in Hdot. rewrite Hdot, IH by exact Hs. reflexivity.
Qed.

Lemma Split_two s1 s2 :
  all_plain s1 = true -> all_plain s2 = true ->
  Split (s1 +:+ "." +:+ s2) "."%char = [s1; s2].
Proof.
  intros H1 H2. induction s1 as [|c s1 IH]; simpl.
  - rewrite Split_plain by exact H2. reflexivity.
  - simpl in H1. apply andb_true_iff in H1 as [Hc Hs]. unfold plain in Hc.
    apply andb_true_iff in Hc as [Hc _]. apply andb_true_iff in Hc as [Hdot _].
    apply negb_true_iff in Hdot. rewrite Hdot. simpl in IH. rewrite IH by exact Hs.
    reflexivity.
Qed.

(** *** The token *)

Section TokenProofs.
Context `{CR : Crypto}.

Lemma generateToken_parts cfg now :
  Split (generateToken cfg now).1 "."%char =
    [EncodeToString (json_Marshal (token_data cfg now));
     EncodeToString (hmac_sha256 (cfg_TokenKey cfg) (json_Marshal (token_data cfg now)))].
Proof. unfold generateToken. cbn [fst]. apply Split_two; apply EncodeToString_plain. Qed.


End TokenProofs.


End ServerSpec.

(** ** Facts about lists and pairs used below *)

Module ListFacts.

Lemma List_filter_sublist {A} (f : A -> bool) (l : list A) :
  List.filter f l `sublist_of` l.
Proof.
  induction l as [|x l IH]; simpl; [constructor|].
  destruct (f x); [apply sublist_skip | apply sublist_cons]; exact IH.
Qed.

Lemma List_filter_elem {A} (f : A -> bool) (l : list A) x :
  x ∈ List.filter f l <-> x ∈ l /\ f x = true.
Proof. rewrite !list_elem_of_In. apply filter_In. Qed.

Lemma fmap_alter_same {A B} (f : A -> B) (g : A -> A) i (l : list A) :
  (forall x, f (g x) = f x) -> f <$> alter g i l = f <$> l.
Proof.
  intros Hfg. revert i. induction l as [|x l IH]; intros [|i]; simpl; auto.
  - rewrite Hfg. reflexivity.
  - f_equal. apply IH.
Qed.

Lemma pair_fst {A B} (p : A * B) (a : A) : p.1 = a -> p = (a, p.2).
Proof. destruct p. simpl. intros ->. reflexivity. Qed.

Lemma List_filter_all {A} (f : A -> bool) (l : list A) :
  Forall (fun x => f x = true) l -> List.filter f l = l.
Proof.
  induction 1 as [|x l Hx _ IH]; simpl; [reflexivity|]. rewrite Hx, IH. reflexivity.
Qed.

Lemma NoDup_fmap_eq {A B} (f : A -> B) (l : list A) x y :
  NoDup (f <$> l) -> x ∈ l -> y ∈ l -> f x = f y -> x = y.
Proof.
  induction l as [|z l IH]; simpl; intros Hnd Hx Hy Hf; [inversion Hx|].
  apply NoDup_cons in Hnd as [Hz Hnd].
  apply elem_of_cons in Hx as [->|Hx]; apply elem_of_cons in Hy as [->|Hy]; auto.
  - exfalso. apply Hz. rewrite Hf. apply list_elem_of_fmap. eauto.
  - exfalso. apply Hz. rewrite <- Hf. apply list_elem_of_fmap. eauto.
Qed.

End ListFacts.

(** ** Properties of [PaginateServer] and [Paginate] on every path *)

Module PaginateSpec.
Import Hicli HicliPaginate HicliSpec ListFacts.

Section MoreProofs.
Context `{L : LocalTimeline}.

Ltac msimpl :=
  repeat (cbn [mbind mret M_bind M_ret fail crash get_db put_db emit get_events
                 put_events put_wakeup try slice_set t_db t_log t_events t_wakeup
                 eventRowIDs decryptionQueue iOffset id fst snd];
          unfold mbind, mret, M_bind, M_ret, fail, crash, get_db, put_db, emit,
                 get_events, put_events, put_wakeup, try, slice_set).

Ltac psimpl :=
  cbn [t_db t_log t_events t_wakeup eventRowIDs decryptionQueue iOffset] in *.

#[local] Arguments fresh_events : simpl never.
#[local] Arguments duplicates : simpl never.

(** A transaction that does not end well leaves the database as it
    was. *)
Lemma DoTxn_rollback (body : M unit) v r v' :
  DoTxn body v = (r, v') -> r <> Done tt -> t_db v' = t_db v.
Proof.
  unfold DoTxn. destruct (Txn_Begin (t_db v)); [intros [= <- <-]; reflexivity|].
  destruct (body v) as [[[]| |] v0].
  - destruct (Txn_Commit (t_db v0)); intros [= <- <-]; [reflexivity|congruence].
  - intros [= <- <-]. reflexivity.
  - intros [= <- <-]. reflexivity.
Qed.

(** X1.  Whenever [PaginateServer] returns an error or panics, the
    database is as it was before the call: the cursor has not moved and
    nothing was prepended. *)
Theorem PaginateServer_failure_keeps_db cancel roomID limit w c w' :
  PaginateServer cancel roomID limit w = (c, w') ->
  (forall resp, c <> Returned (Some resp, None)) ->
  db w' = db w.
Proof.
  unfold PaginateServer.
  destruct (register_pagination _ _ _) as [inflight|]; [|intros [= <- <-]; reflexivity].
  unfold paginate_body.
  destruct (Room_Get (db w) roomID) as [[[[room_ID PrevBatch] summary]|]|e];
    [| intros [= <- <-]; reflexivity | intros [= <- <-]; reflexivity].
  destruct (decide (PrevBatch = _)) as [_|_];
    [intros [= <- <-] Hfail; reflexivity|].
  destruct (Client_Messages roomID PrevBatch limit) as [[Chunk End]|e];
    [|intros [= <- <-]; reflexivity].
  destruct (decide (_ \/ _)) as [_|_].
  - destruct (Room_SetPrevBatch _ _ _) as [d'|e]; intros [= <- <-] Hfail;
      [|reflexivity].
    exfalso. eapply Hfail. reflexivity.
  - destruct (DoTxn _ _) as [r v] eqn:Htxn.
    destruct r as [[]| |]; intros [= <- <-] Hfail; cbn [db].
    + exfalso. eapply Hfail. reflexivity.
    + apply DoTxn_rollback in Htxn; [exact Htxn|discriminate].
    + apply DoTxn_rollback in Htxn; [exact Htxn|discriminate].
Qed.


(** X2.  A page on which every event is in the timeline already: the call
    succeeds with an empty list and [has_more = true], and the network
    request is the only call it makes: no session request is saved, the
    cursor is not advanced, nothing is prepended and no wakeup is sent. *)
Theorem PaginateServer_known_page cancel roomID limit w
    room_ID PrevBatch summary Chunk End view resp w' :
  Room_Get (db w) roomID = Ok (Some (room_ID, PrevBatch, summary)) ->
  PrevBatch <> PrevBatchPaginationComplete ->
  Client_Messages roomID PrevBatch limit = Ok (Chunk, End) ->
  End <> "" -> End <> PrevBatchPaginationComplete -> Chunk <> [] ->
  page_view roomID summary Chunk (db w) ∅ = Some view ->
  fresh_events view = [] ->
  PaginateServer cancel roomID limit w = (Returned (Some resp, None), w') ->
  resp = mkResp [] true /\
  log w' = log w ++ [EMessages roomID PrevBatch limit].
Proof.
  intros Hroom Hpb Hmsg He1 He2 Hchunk Hview Hnil Hrun.
  destruct (PaginateServer_txn _ _ _ _ _ _ _ _ _ _ _ Hroom Hpb Hmsg He1 He2 Hchunk Hrun)
    as [[Hc _]|(r & v & Htxn & Hlog & Hc)]; [discriminate|].
  destruct r as [[]| |]; try discriminate. injection Hc as ->.
  apply DoTxn_cases in Htxn
    as [([e He] & _)|(view' & q & r0 & Hview' & Hq & Hr0 & Hrows & Happ)];
    [discriminate| |reflexivity].
  psimpl. rewrite Hview in Hview'. injection Hview' as <-.
  destruct Happ as [(_ & _ & Hl & Hw)|(Hne & _)]; [|contradiction].
  psimpl. rewrite Hnil in Hrows. apply map_eq_nil in Hrows.
  rewrite Hrows, Hlog, Hw, Hl. auto.
Qed.

(** X3.  A page with at least one new event, applied without error: after
    the network request the call saves every session request of the
    accumulator, then advances the cursor to the server's [end] token
    inside the transaction, then prepends the new rows, and wakes the
    request queue last, if there was a session request. *)
Theorem PaginateServer_success_log cancel roomID limit w
    room_ID PrevBatch summary Chunk End view q resp w' :
  Room_Get (db w) roomID = Ok (Some (room_ID, PrevBatch, summary)) ->
  PrevBatch <> PrevBatchPaginationComplete ->
  Client_Messages roomID PrevBatch limit = Ok (Chunk, End) ->
  End <> "" -> End <> PrevBatchPaginationComplete -> Chunk <> [] ->
  page_view roomID summary Chunk (db w) ∅ = Some view ->
  page_queue roomID summary Chunk (db w) ∅ = Some q ->
  fresh_events view <> [] ->
  PaginateServer cancel roomID limit w = (Returned (Some resp, None), w') ->
  log w' = log w ++ [EMessages roomID PrevBatch limit] ++
           (ESessionRequestPut <$> (map_to_list q).*1) ++
           [ESetPrevBatch true room_ID End;
            EPrepend room_ID (RowID <$> fresh_events view)] ++
           (if bool_decide (0 < size q)%nat then [EWakeupRequestQueue] else []).
Proof.
  intros Hroom Hpb Hmsg He1 He2 Hchunk Hview Hqueue Hsome Hrun.
  destruct (PaginateServer_txn _ _ _ _ _ _ _ _ _ _ _ Hroom Hpb Hmsg He1 He2 Hchunk Hrun)
    as [[Hc _]|(r & v & Htxn & Hlog & Hc)]; [discriminate|].
  destruct r as [[]| |]; try discriminate.
  apply DoTxn_cases in Htxn
    as [([e He] & _)|(view' & q' & r0 & Hview' & Hq' & Hr0 & Hrows & Happ)];
    [discriminate| |reflexivity].
  psimpl. rewrite Hview in Hview'. injection Hview' as <-.
  rewrite Hqueue in Hq'. injection Hq' as <-.
  destruct Happ as [(Hnil & _)|(_ & Hw & puts & stage & Hl & Hdone)]; [contradiction|].
  destruct (Hdone (Hr0 eq_refl)) as [-> ->]. psimpl.
  rewrite Hlog, Hw, Hl. cbn [closure_tail].
  destruct (bool_decide (0 < size q)%nat); rewrite <- ?app_assoc; cbn [app];
    rewrite ?app_nil_r; reflexivity.
Qed.


Ltac no_calls :=
  exists []; cbn [log]; rewrite app_nil_r;
  split; [reflexivity|]; split; [simpl; lia|]; intros Hne; contradiction.

Lemma network_requests_app l1 l2 :
  network_requests (l1 ++ l2) = (network_requests l1 + network_requests l2)%nat.
Proof. induction l1 as [|[] l1 IH]; simpl; auto. Qed.

Lemma network_requests_puts (puts : list string) :
  network_requests (ESessionRequestPut <$> puts) = 0%nat.
Proof. induction puts; simpl; auto. Qed.

Lemma network_requests_tail room_ID End rows stage :
  network_requests (closure_tail room_ID End rows stage) = 0%nat.
Proof. destruct stage as [|[|stage]]; reflexivity. Qed.

(** X4.  One call makes at most one network request.  It makes one only
    when it was admitted, the room was read and its cursor is not the
    sentinel; the request is the first call that is logged, and it asks
    for the page at the stored cursor. *)
Theorem PaginateServer_one_request cancel roomID limit w c w' :
  PaginateServer cancel roomID limit w = (c, w') ->
  exists new,
    log w' = log w ++ new /\
    (network_requests new <= 1)%nat /\
    (new <> [] ->
     paginationInterrupter w !! roomID = None /\
     exists room_ID PrevBatch summary rest,
       Room_Get (db w) roomID = Ok (Some (room_ID, PrevBatch, summary)) /\
       PrevBatch <> PrevBatchPaginationComplete /\
       new = EMessages roomID PrevBatch limit :: rest /\
       network_requests rest = 0%nat).
Proof.
  unfold PaginateServer, register_pagination.
  destruct (paginationInterrupter w !! roomID) as [taken|] eqn:Hfree.
  { intros [= <- <-]. no_calls. }
  unfold paginate_body.
  destruct (Room_Get (db w) roomID) as [[[[room_ID PrevBatch] summary]|]|e] eqn:Hroom.
  2,3: intros [= <- <-]; no_calls.
  destruct (decide (PrevBatch = _)) as [_|Hpb].
  { intros [= <- <-]. no_calls. }
  assert (Hshape : forall rest lg,
            lg = (log w ++ [EMessages roomID PrevBatch limit]) ++ rest ->
            network_requests rest = 0%nat ->
            exists new,
              lg = log w ++ new /\ (network_requests new <= 1)%nat /\
              (new <> [] ->
               @None Cancel = None /\
               exists room_ID0 PrevBatch0 summary0 rest0,
                 Ok (Some (room_ID, PrevBatch, summary)) =
                   Ok (Some (room_ID0, PrevBatch0, summary0)) /\
                 PrevBatch0 <> PrevBatchPaginationComplete /\
                 new = EMessages roomID PrevBatch0 limit :: rest0 /\
                 network_requests rest0 = 0%nat)).
  { intros rest lg -> Hrest. exists (EMessages roomID PrevBatch limit :: rest).
    rewrite <- app_assoc. split; [reflexivity|]. split; [simpl; lia|].
    intros _. split; [reflexivity|]. exists room_ID, PrevBatch, summary, rest. auto. }
  destruct (Client_Messages roomID PrevBatch limit) as [[Chunk End]|e].
  2:{ intros [= <- <-]. cbn [log]. apply (Hshape []); [rewrite app_nil_r|]; reflexivity. }
  destruct (decide (_ \/ _)) as [_|_].
  - destruct (Room_SetPrevBatch _ _ _) as [d'|e]; intros [= <- <-]; cbn [log];
      eapply (Hshape [_]); reflexivity.
  - destruct (DoTxn _ _) as [r v] eqn:Htxn.
    apply DoTxn_cases in Htxn
      as [([e ->] & Hl & _)|(view & q & r0 & _ & _ & _ & _ & Happ)]; [| |reflexivity].
    { intros [= <- <-]. cbn [log]. psimpl. rewrite Hl.
      apply (Hshape []); [rewrite app_nil_r|]; reflexivity. }
    psimpl.
    assert (Hlog : exists rest, t_log v = (log w ++ [EMessages roomID PrevBatch limit]) ++ rest /\
                                network_requests rest = 0%nat).
    { destruct Happ as [(_ & _ & Hl & _)|(_ & _ & puts & stage & Hl & _)].
      - exists []. rewrite app_nil_r. auto.
      - eexists. split; [exact Hl|].
        rewrite network_requests_app, network_requests_puts, network_requests_tail.
        reflexivity. }
    destruct Hlog as (rest & Hl & Hrest).
    destruct r as [[]| |]; intros [= <- <-]; cbn [log].
    + destruct (t_wakeup v).
      * apply (Hshape (rest ++ [EWakeupRequestQueue])).
        -- rewrite Hl, <- !app_assoc. reflexivity.
        -- rewrite network_requests_app, Hrest. reflexivity.
      * apply (Hshape rest); auto.
    + apply (Hshape rest); auto.
    + apply (Hshape rest); auto.
Qed.

(** Every pointer the closure hands to [Timeline.Prepend]'s tuples loop
    is set, and the loop stays within the tuples as long as there are as
    many tuples as events. *)
Lemma assign_timeline_done events tuples : forall i v,
  Forall is_Some events ->
  (i + length events <= length tuples)%nat ->
  exists events', assign_timeline i events tuples v = (Done events', v).
Proof.
  induction events as [|evt rest IH]; intros i v Hsome Hlen.
  - eexists. reflexivity.
  - apply Forall_cons in Hsome as [[e ->] Hsome]. simpl in Hlen.
    cbn [assign_timeline].
    destruct (tuples !! i) as [t|] eqn:Ht.
    2:{ apply lookup_ge_None in Ht. lia. }
    destruct (IH (S i) v Hsome) as [rest' Hrest]; [lia|].
    msimpl. rewrite Hrest. eexists. reflexivity.
Qed.

Lemma update_each_Some f events :
  Forall is_Some events -> Forall is_Some (update_each f events).
Proof.
  unfold update_each. induction 1 as [|x l [e ->] _ IH]; simpl; constructor; eauto.
Qed.

Lemma update_each_length f events : length (update_each f events) = length events.
Proof. unfold update_each. apply length_map. Qed.

Lemma txn_closure_no_crash roomID room_ID summary chunk End v r v' :
  (forall d room rows tuples d',
     Timeline_Prepend d room rows = Ok (tuples, d') ->
     (length rows <= length tuples)%nat) ->
  t_events v = replicate (length chunk) None ->
  txn_closure roomID room_ID summary chunk End v = (r, v') ->
  forall s, r <> Crash s.
Proof.
  intros Hprepend Hev. unfold txn_closure.
  destruct ctx_Err as [e|]; [intros [= <- <-]; discriminate|].
  destruct (page_view roomID summary chunk (t_db v) ∅) as [view|] eqn:Hview.
  2:{ destruct (loop_fails roomID summary chunk 0
                  (mkLoop (replicate (length chunk) 0) ∅ 0) v (length chunk))
        as (e & v1 & Hloop); psimpl; auto; try lia.
      { rewrite Hev. apply length_replicate. }
      { apply length_replicate. }
      unfold mbind, M_bind. rewrite Hloop. intros [= <- <-]. discriminate. }
  destruct (loop_spec roomID summary chunk 0
              (mkLoop (replicate (length chunk) 0) ∅ 0) v view (length chunk))
    as (l' & v1 & Hrun & Hoff & Hlog & Hw & Hlen & Hlen' & Hev' & Hrows' & Hq');
    psimpl; try lia; auto.
  { rewrite Hev. apply length_replicate. }
  { apply length_replicate. }
  rewrite (bind_done _ _ _ _ _ Hrun).
  cbn [Nat.sub Nat.add] in Hev', Hrows'. rewrite take_0 in Hev'. rewrite take_0 in Hrows'.
  cbn [app] in Hev', Hrows'. simpl in Hoff.
  pose proof (fresh_plus_duplicates view) as Hsum.
  pose proof (page_view_length _ _ _ _ _ _ Hview) as Hvl.
  msimpl.
  destruct (decide (length (t_events v1) <= iOffset l')%nat) as [Hall|Hsome].
  { intros [= <- <-]. discriminate. }
  assert (Hk : (length (t_events v1) - iOffset l' = length (fresh_events view))%nat) by lia.
  assert (Hk' : (length (eventRowIDs l') - iOffset l' = length (fresh_events view))%nat) by lia.
  rewrite Hk, Hk', Hev', Hrows'.
  destruct (put_all _ _) as [r0 v0] eqn:Hputs.
  apply put_all_spec in Hputs as (Hev0 & Hw0 & Hr0 & puts & Hlog0 & Hputs).
  psimpl.
  destruct Hr0 as [-> | [e ->]]; [|intros [= <- <-]; discriminate].
  destruct (Event_FillReactionCounts _ _ _) as [f|e]; [|intros [= <- <-]; discriminate].
  destruct (Event_FillLastEditRowIDs _ _ _) as [g|e]; [|intros [= <- <-]; discriminate].
  destruct (Room_SetPrevBatch _ _ _) as [d'|e]; [|intros [= <- <-]; discriminate].
  destruct (Timeline_Prepend _ _ _) as [[tuples d'']|e] eqn:Hpre;
    [|intros [= <- <-]; discriminate].
  apply Hprepend in Hpre. rewrite length_fmap in Hpre. psimpl.
  match goal with
  | |- context [assign_timeline 0 ?evs tuples ?vv] =>
      destruct (assign_timeline_done evs tuples 0 vv) as [events' Hassign]
  end.
  { do 2 apply update_each_Some. apply Forall_fmap, Forall_true. intros e. simpl. eauto. }
  { rewrite !update_each_length, length_fmap. simpl. exact Hpre. }
  rewrite Hassign. intros [= <- <-]. discriminate.
Qed.

(** X5.  [PaginateServer] does not panic: unless [Room.Get] answers with
    neither a room nor an error, or [Timeline.Prepend] with fewer tuples
    than it was given rows, every call returns.  (The compaction never
    writes outside its two arrays.) *)
Theorem PaginateServer_never_panics cancel roomID limit w c w' :
  Room_Get (db w) roomID <> Ok None ->
  (forall d room rows tuples d',
     Timeline_Prepend d room rows = Ok (tuples, d') ->
     (length rows <= length tuples)%nat) ->
  PaginateServer cancel roomID limit w = (c, w') ->
  exists ret, c = Returned ret.
Proof.
  intros Hroom Hprepend. unfold PaginateServer.
  destruct (register_pagination _ _ _) as [inflight|]; [|intros [= <- <-]; eauto].
  unfold paginate_body.
  destruct (Room_Get (db w) roomID) as [[[[room_ID PrevBatch] summary]|]|e];
    [| congruence | intros [= <- <-]; eauto].
  destruct (decide (PrevBatch = _)) as [_|_]; [intros [= <- <-]; eauto|].
  destruct (Client_Messages roomID PrevBatch limit) as [[Chunk End]|e];
    [|intros [= <- <-]; eauto].
  destruct (decide (_ \/ _)) as [_|_].
  { destruct (Room_SetPrevBatch _ _ _) as [d'|e]; intros [= <- <-]; eauto. }
  destruct (DoTxn _ _) as [r v] eqn:Htxn.
  destruct r as [[]| |s]; intros [= <- <-]; eauto.
  exfalso. unfold DoTxn in Htxn. cbn [t_db] in Htxn.
  destruct (Txn_Begin (db w)); [discriminate|].
  destruct (txn_closure _ _ _ _ _ _) as [r0 v0] eqn:Hrun.
  assert (Hno : forall s, r0 <> Crash s).
  { eapply txn_closure_no_crash; [exact Hprepend| |exact Hrun]. reflexivity. }
  destruct r0 as [[]| |s0]; [destruct (Txn_Commit _)| |]; try discriminate.
  apply (Hno s0). reflexivity.
Qed.

(** [PaginateServer] leaves the in-flight map as it found it. *)
Lemma PaginateServer_map cancel roomID limit w c w' :
  PaginateServer cancel roomID limit w = (c, w') ->
  paginationInterrupter w' = paginationInterrupter w.
Proof.
  unfold PaginateServer, register_pagination.
  destruct (paginationInterrupter w !! roomID) eqn:Hfree; [intros [= <- <-]; reflexivity|].
  destruct (paginate_body _ _ _ _) as [[r d] lg]. intros [= <- <-]. cbn [paginationInterrupter].
  apply unregister_register. exact Hfree.
Qed.

(** X6.  [Paginate] answers [has_more = false] only when the local
    timeline has nothing before [maxTimelineID] and the sentinel is
    already stored as the room's cursor; it then returns no events and
    changes nothing.  In particular the call that learns from the server
    that the history has ended does not say so. *)
Theorem Paginate_has_more_false cancel roomID maxTimelineID limit w resp w' :
  PrevBatchPaginationComplete <> "" ->
  Paginate cancel roomID maxTimelineID limit w = (Returned (Some resp, None), w') ->
  HasMore resp = false ->
  Timeline_Get (db w) roomID limit maxTimelineID = Ok [] /\
  (exists room_ID summary,
     Room_Get (db w) roomID = Ok (Some (room_ID, PrevBatchPaginationComplete, summary))) /\
  resp = mkResp [] false /\ w' = w.
Proof.
  intros Hsentinel. unfold Paginate.
  destruct (Timeline_Get (db w) roomID limit maxTimelineID) as [evts|e]; [|discriminate].
  destruct (decide (0 < length evts)%nat) as [Hsome|Hnone].
  { destruct (reprocess_all (db w) evts). intros [= <- <-]. discriminate. }
  assert (evts = []) as -> by (destruct evts; [reflexivity|simpl in Hnone; lia]).
  intros Hrun. pose proof (PaginateServer_map _ _ _ _ _ _ Hrun) as Hmap. revert Hrun.
  unfold PaginateServer.
  destruct (register_pagination _ _ _) as [inflight|]; [|discriminate].
  unfold paginate_body.
  destruct (Room_Get (db w) roomID) as [[[[room_ID PrevBatch] summary]|]|e];
    [| discriminate | discriminate].
  destruct (decide (PrevBatch = _)) as [->|_].
  { intros [= <- <-] _. repeat split; eauto.
    destruct w. cbn [paginationInterrupter db log] in *. rewrite Hmap. reflexivity. }
  destruct (Client_Messages roomID PrevBatch limit) as [[Chunk End]|e]; [|discriminate].
  destruct (decide (_ \/ _)) as [_|_].
  - destruct (Room_SetPrevBatch _ _ _) as [d'|e]; [|discriminate].
    intros [= <- <-]. cbn [HasMore]. intros Hmore.
    apply negb_false_iff, bool_decide_eq_true in Hmore.
    destruct (decide (End = "")); congruence.
  - destruct (DoTxn _ _) as [r v]. destruct r as [[]| |]; try discriminate.
    intros [= <- <-]. discriminate.
Qed.

End MoreProofs.

(** *** The theorems on concrete pages *)

Import MemStore MemTimeline.


(** The server does not know the cursor [tokenZ]. *)
Lemma PaginateServer_failure_keeps_db_witness :
  let w := @mkWorld (MemEnv server1) ∅
             (mkMemDB {["!r" := "tokenZ"]} {["!r" := [4; 5]]} []) [] in
  db (@PaginateServer (MemEnv server1) tt "!r" 10 w).2 = db w.
Proof.
  intros w.
  apply (@PaginateServer_failure_keeps_db (MemEnv server1) tt "!r" 10 w
           (@PaginateServer (MemEnv server1) tt "!r" 10 w).1).
  - destruct (@PaginateServer (MemEnv server1) tt "!r" 10 w). reflexivity.
  - intros resp. vm_compute. discriminate.
Defined.

Lemma PaginateServer_known_page_witness :
  let run := @PaginateServer (MemEnv server_dup) tt "!r" 10 (world0 server_dup) in
  mkResp [] true = mkResp [] true /\
  log run.2 = log (world0 server_dup) ++ [EMessages "!r" "tokenA" 10].
Proof.
  intros run.
  apply (@PaginateServer_known_page (MemEnv server_dup) tt "!r" 10 (world0 server_dup)
              "!r" "tokenA" tt [mkMemEvent 4 (Some "s1")] "tokenB"
              [(mkEvent 4 "" 0 None [], true)] (mkResp [] true) run.2);
    [reflexivity | mem_neq | reflexivity | mem_neq | mem_neq | mem_neq
    | vm_compute; reflexivity | reflexivity |].
  apply pair_fst. vm_compute. reflexivity.
Defined.

Lemma PaginateServer_success_log_witness :
  let run := @PaginateServer (MemEnv server1) tt "!r" 10 (world0 server1) in
  let view := [(mkEvent 1 "" 0 None [], false); (mkEvent 4 "" 0 None [], true);
               (mkEvent 2 "" 0 None [], false)] in
  let q : gmap string SessionRequest := {["s1" := mkSessionRequest "s1" 0]} in
  log run.2 =
    log (world0 server1) ++ [EMessages "!r" "tokenA" 10] ++
    (ESessionRequestPut <$> (map_to_list q).*1) ++
    [ESetPrevBatch true "!r" "tokenB"; EPrepend "!r" (RowID <$> fresh_events view)] ++
    (if bool_decide (0 < size q)%nat then [EWakeupRequestQueue] else []).
Proof.
  intros run view q.
  apply (@PaginateServer_success_log (MemEnv server1) tt "!r" 10 (world0 server1)
              "!r" "tokenA" tt
              [mkMemEvent 1 None; mkMemEvent 4 None; mkMemEvent 2 (Some "s1")] "tokenB"
              view q
              (mkResp [Some (mkEvent 1 "" 0 None []); Some (mkEvent 2 "" (-1) None [])] true)
              run.2);
    [reflexivity | mem_neq | reflexivity | mem_neq | mem_neq | mem_neq
    | vm_compute; reflexivity | vm_compute; reflexivity | mem_neq |].
  apply pair_fst. vm_compute. reflexivity.
Defined.

Lemma PaginateServer_one_request_witness :
  exists new,
    log (@PaginateServer (MemEnv server1) tt "!r" 10 (world0 server1)).2 =
      log (world0 server1) ++ new /\
    (network_requests new <= 1)%nat.
Proof.
  destruct (@PaginateServer_one_request (MemEnv server1) tt "!r" 10 (world0 server1)
              (@PaginateServer (MemEnv server1) tt "!r" 10 (world0 server1)).1
              (@PaginateServer (MemEnv server1) tt "!r" 10 (world0 server1)).2)
    as (new & Hlog & Hle & _).
  - destruct (@PaginateServer (MemEnv server1) tt "!r" 10 (world0 server1)). reflexivity.
  - exists new. auto.
Defined.

Lemma PaginateServer_never_panics_witness :
  exists ret,
    (@PaginateServer (MemEnv server1) tt "!r" 10 (world0 server1)).1 = Returned ret.
Proof.
  apply (@PaginateServer_never_panics (MemEnv server1) tt "!r" 10 (world0 server1) _
           (@PaginateServer (MemEnv server1) tt "!r" 10 (world0 server1)).2).
  - vm_compute. discriminate.
  - intros d room rows tuples d' Hpre. cbn in Hpre. unfold mem_Prepend in Hpre.
    injection Hpre as <- _. rewrite length_imap. reflexivity.
  - destruct (@PaginateServer (MemEnv server1) tt "!r" 10 (world0 server1)). reflexivity.
Defined.

(** Rows 4 and 5 are stored, the caller asks for what is before row 3,
    and the cursor holds the sentinel. *)
Lemma Paginate_has_more_false_witness :
  let w := @mkWorld (MemEnv server1) ∅
             (mkMemDB {["!r" := "fake"]} {["!r" := [4; 5]]} []) [] in
  @Timeline_Get _ (MemLocal server1) (db w) "!r" 10 3 = Ok [] /\
  (exists room_ID summary,
     @Room_Get (MemEnv server1) (db w) "!r" = Ok (Some (room_ID, "fake", summary))) /\
  mkResp [] false = mkResp [] false /\ w = w.
Proof.
  intros w.
  apply (@Paginate_has_more_false (MemEnv server1) (MemLocal server1) tt "!r" 3 10 w
           (mkResp [] false) w).
  - vm_compute. discriminate.
  - vm_compute. reflexivity.
  - reflexivity.
Defined.

End PaginateSpec.

(** ** More properties of the room list *)

Module RoomListSpec.
Import Statestore StatestoreDecrypt StatestoreSpec ListFacts.

Lemma Map_set_in {V} (m : list (string * V)) k v : (k, v) ∈ Map_set m k v.
Proof.
  induction m as [|[k' v'] m IH]; simpl; [left|].
  destruct (decide (k' = k)); [left | right; exact IH].
Qed.

Lemma Map_set_other {V} (m : list (string * V)) k v kv :
  kv ∈ m -> kv.1 <> k -> kv ∈ Map_set m k v.
Proof.
  induction m as [|[k' v'] m IH]; simpl; intros Hin Hne; [inversion Hin|].
  apply elem_of_cons in Hin as [->|Hin].
  - simpl in Hne. destruct (decide (k' = k)); [contradiction | left].
  - destruct (decide (k' = k)); right; auto.
Qed.

(** [findIndex] answers -1 when no element satisfies [p], and otherwise
    the index of the first one that does. *)
Lemma findIndex_from_spec {A} (p : A -> bool) (l : list A) : forall start,
  0 <= start ->
  (findIndex_from p start l = -1 /\ Forall (fun x => p x = false) l) \/
  (exists x, start <= findIndex_from p start l /\
             l !! Z.to_nat (findIndex_from p start l - start) = Some x /\ p x = true).
Proof.
  induction l as [|x l IH]; intros start Hstart; simpl.
  - left. auto.
  - destruct (p x) eqn:Hx.
    + right. exists x. replace (start - start) with 0 by lia. simpl. split; [lia|auto].
    + destruct (IH (start + 1)) as [(Hno & Hall)|(y & Hle & Hy & Hpy)]; [lia| |].
      * left. auto.
      * right. exists y. split; [lia|]. split; [|exact Hpy].
        replace (Z.to_nat (findIndex_from p (start + 1) l - start))
          with (S (Z.to_nat (findIndex_from p (start + 1) l - (start + 1)))) by lia.
        exact Hy.
Qed.

Lemma insert_entry_sublist l e : l `sublist_of` insert_entry l e.
Proof.
  unfold insert_entry. destruct (last l) as [tail_|]; [|apply sublist_inserts_r; reflexivity].
  destruct (head l) as [head_|]; [|apply sublist_inserts_r; reflexivity].
  destruct (_ <=? _); [apply sublist_inserts_r; reflexivity|].
  destruct (_ || _); [apply sublist_cons; reflexivity|].
  unfold splice_in.
  set (i := Z.to_nat _). rewrite <- (take_drop i l) at 1.
  apply sublist_app; [reflexivity | apply sublist_cons; reflexivity].
Qed.

Lemma insert_entries_sublist changed : forall l,
  l `sublist_of` foldl insert_entry l changed.
Proof.
  induction changed as [|e changed IH]; intros l; simpl; [reflexivity|].
  etrans; [apply insert_entry_sublist | apply IH].
Qed.

Section Rooms.
Context `{RD : RoomDecrypt}.

Lemma sync_room_exact b rs ch k d :
  sync_room b (rs, ch) (k, d) =
    (<[k := room_after_sync rs k d]> rs,
     if negb b && changed_at rs k d
     then Map_set ch k (makeRoomListEntry rs d (Some (room_after_sync rs k d)))
     else ch).
Proof.
  unfold sync_room, changed_at, room_after_sync.
  destruct (rs !! k) as [old|]; reflexivity.
Qed.

Lemma makeRoomListEntry_stored (rs rs' : gmap string RoomStateStore) d room :
  rs' !! room_id (meta d) = Some room ->
  makeRoomListEntry rs' d None = makeRoomListEntry rs d (Some room).
Proof. intros Hroom. unfold makeRoomListEntry. rewrite Hroom. reflexivity. Qed.

(** What the loop over the payload leaves behind, room by room. *)
Lemma sync_rooms_entries b sync : forall rs ch rs' ch',
  NoDup sync.*1 ->
  foldl (sync_room b) (rs, ch) sync = (rs', ch') ->
  (forall k d, (k, d) ∈ sync -> rs' !! k = Some (room_after_sync rs k d)) /\
  (forall k, k ∉ sync.*1 -> rs' !! k = rs !! k) /\
  (forall k d, (k, d) ∈ sync -> b = false -> changed_at rs k d = true ->
     (k, makeRoomListEntry rs d (Some (room_after_sync rs k d))) ∈ ch') /\
  (forall k, k ∈ ch'.*1 <->
     k ∈ ch.*1 \/ (b = false /\ exists d, (k, d) ∈ sync /\ changed_at rs k d = true)) /\
  (forall kv, kv ∈ ch -> kv.1 ∉ sync.*1 -> kv ∈ ch').
Proof.
  induction sync as [|[k0 d0] sync IH]; intros rs ch rs' ch' Hnd.
  - simpl. intros [= <- <-]. repeat split; auto.
    + intros k d Hin. inversion Hin.
    + intros k d Hin. inversion Hin.
    + intros [Hk|(_ & d & Hin & _)]; [exact Hk | inversion Hin].
  - cbn [foldl]. rewrite sync_room_exact.
    simpl in Hnd. apply NoDup_cons in Hnd as [Hk0 Hnd].
    set (rs1 := <[k0 := room_after_sync rs k0 d0]> rs).
    set (e0 := makeRoomListEntry rs d0 (Some (room_after_sync rs k0 d0))).
    set (ch1 := if negb b && changed_at rs k0 d0 then Map_set ch k0 e0 else ch).
    intros Hrun. destruct (IH rs1 ch1 rs' ch' Hnd Hrun) as (Hin & Hout & Hent & Hkeys & Hkeep).
    assert (Hother : forall k d, (k, d) ∈ sync -> k <> k0).
    { intros k d Hkd ->. apply Hk0. apply list_elem_of_fmap. exists (k0, d). auto. }
    assert (Hsame : forall k d, (k, d) ∈ sync ->
              room_after_sync rs1 k d = room_after_sync rs k d /\
              changed_at rs1 k d = changed_at rs k d).
    { intros k d Hkd. unfold room_after_sync, changed_at, rs1.
      rewrite lookup_insert_ne; [auto|]. intros ->. eapply Hother; eauto. }
    split; [|split; [|split; [|split]]].
    + intros k d Hkd. apply elem_of_cons in Hkd as [[= -> ->]|Hkd].
      * rewrite (Hout k0 Hk0). unfold rs1. apply lookup_insert_eq.
      * rewrite (Hin k d Hkd). f_equal. apply Hsame, Hkd.
    + intros k Hk. simpl in Hk. apply not_elem_of_cons in Hk as [Hne Hk].
      rewrite (Hout k Hk). unfold rs1. apply lookup_insert_ne. congruence.
    + intros k d Hkd Hb Hch. apply elem_of_cons in Hkd as [[= -> ->]|Hkd].
      * apply Hkeep; [|exact Hk0]. unfold ch1. rewrite Hb, Hch. simpl. apply Map_set_in.
      * destruct (Hsame k d Hkd) as [Hroom Hchanged].
        specialize (Hent k d Hkd Hb). rewrite Hchanged, Hroom in Hent.
        apply Hent, Hch.
    + intros k. rewrite Hkeys. split.
      * intros [Hk|(Hb & d & Hkd & Hch)].
        -- unfold ch1 in Hk. destruct (negb b && changed_at rs k0 d0) eqn:Hcond; [|auto].
           rewrite Map_set_keys in Hk. destruct (decide (k0 ∈ ch.*1)); [auto|].
           apply elem_of_app in Hk as [Hk|Hk]; [auto|].
           apply list_elem_of_singleton in Hk as ->.
           apply andb_true_iff in Hcond as [Hb Hch]. apply negb_true_iff in Hb.
           right. split; [exact Hb|]. exists d0. split; [left | exact Hch].
        -- right. split; [exact Hb|]. exists d. split; [right; exact Hkd|].
           rewrite <- (proj2 (Hsame k d Hkd)). exact Hch.
      * intros [Hk|(Hb & d & Hkd & Hch)].
        -- left. unfold ch1. destruct (negb b && _); [|exact Hk].
           rewrite Map_set_keys. destruct (decide (k0 ∈ ch.*1)); [exact Hk|].
           apply elem_of_app. auto.
        -- apply elem_of_cons in Hkd as [[= -> ->]|Hkd].
           ++ left. unfold ch1. rewrite Hb, Hch. simpl.
              apply list_elem_of_fmap. exists (k0, e0). split; [reflexivity | apply Map_set_in].
           ++ right. split; [exact Hb|]. exists d. split; [exact Hkd|].
              rewrite (proj2 (Hsame k d Hkd)). exact Hch.
    + intros kv Hkv Hno. simpl in Hno. apply not_elem_of_cons in Hno as [Hne Hno].
      apply Hkeep; [|exact Hno]. unfold ch1. destruct (negb b && _); [|exact Hkv].
      apply Map_set_other; auto.
Qed.

(** X7.  [applySync] hands every room of the payload to its room store
    once, making the store from the payload's [meta] when the room is
    new; the stores of all other rooms stay as they are, and no room is
    ever dropped. *)
Theorem applySync_rooms st sync :
  NoDup sync.*1 ->
  (forall k d, (k, d) ∈ sync ->
     rooms (applySync st sync).1 !! k = Some (room_after_sync (rooms st) k d)) /\
  (forall k, k ∉ sync.*1 -> rooms (applySync st sync).1 !! k = rooms st !! k).
Proof.
  intros Hnd. destruct (applySync_cases st sync) as (rs' & ch' & Hfold & Hcase).
  apply sync_rooms_entries in Hfold as (Hin & Hout & _); [|exact Hnd].
  assert (Hrooms : rooms (applySync st sync).1 = rs').
  { destruct Hcase as [[_ ->]|[(_ & _ & ->)|(_ & _ & ->)]]; reflexivity. }
  rewrite Hrooms. auto.
Qed.

(** X8.  After [applySync], every room of a first payload, and every room
    of a later payload that is new or compares as changed, has in the
    room list the entry made from the payload's [meta] and the updated
    room store. *)
Theorem applySync_fresh_entry st sync k d :
  sync_wf sync ->
  (k, d) ∈ sync ->
  roomList st = [] \/ changed_at (rooms st) k d = true ->
  makeRoomListEntry (rooms (applySync st sync).1) d None ∈ roomList (applySync st sync).1.
Proof.
  intros [Hnd Hfiled] Hkd Hchanged.
  destruct (applySync_cases st sync) as (rs' & ch' & Hfold & Hcase).
  pose proof (sync_rooms_spec _ _ _ _ _ _ Hfold) as (_ & _ & _ & _ & _ & Hne).
  apply sync_rooms_entries in Hfold as (Hin & _ & Hent & _); [|exact Hnd].
  destruct Hcase as [[Hempty Hrun]|[(Hsome & Hchne & Hrun)|(Hsome & Hchnil & Hrun)]];
    rewrite Hrun; cbn [fst rooms roomList].
  - apply list_elem_of_In. eapply Permutation_in;
      [symmetry; apply sort_by_timestamp_perm|].
    apply list_elem_of_In, list_elem_of_fmap. exists (k, d). auto.
  - destruct Hchanged as [Hempty|Hch]; [contradiction|].
    assert (Hb : bool_decide (length (roomList st) = 0%nat) = false).
    { apply bool_decide_eq_false_2. destruct (roomList st); [contradiction | discriminate]. }
    specialize (Hent k d Hkd Hb Hch).
    rewrite Forall_forall in Hfiled. pose proof (Hfiled (k, d) Hkd) as Hid. simpl in Hid.
    rewrite (makeRoomListEntry_stored (rooms st) rs' d (room_after_sync (rooms st) k d))
      by (rewrite Hid; apply Hin, Hkd).
    apply list_elem_of_In. eapply Permutation_in;
      [symmetry; apply insert_entries_perm|].
    apply list_elem_of_In, elem_of_app. left.
    apply list_elem_of_fmap. eexists. split; [|exact Hent]. reflexivity.
  - destruct Hchanged as [Hempty|Hch]; [contradiction|]. exfalso.
    assert (Hb : bool_decide (length (roomList st) = 0%nat) = false).
    { apply bool_decide_eq_false_2. destruct (roomList st); [contradiction | discriminate]. }
    specialize (Hent k d Hkd Hb Hch). rewrite Hchnil in Hent. inversion Hent.
Qed.

Lemma unchanged_in_spec (rs : gmap string RoomStateStore) sync r :
  unchanged_in rs sync r = true <->
  ~ exists d, (r, d) ∈ sync /\ changed_at rs r d = true.
Proof.
  unfold unchanged_in. rewrite forallb_forall. split.
  - intros Hall (d & Hin & Hch). apply list_elem_of_In, Hall in Hin.
    simpl in Hin. rewrite Hch, bool_decide_eq_true_2 in Hin by reflexivity. discriminate.
  - intros Hno [k d] Hin. simpl. apply negb_true_iff, andb_false_iff.
    destruct (decide (k = r)) as [->|Hne].
    + right. apply not_true_is_false. intros Hch. apply Hno. exists d.
      split; [apply list_elem_of_In, Hin | exact Hch].
    + left. apply bool_decide_eq_false_2, Hne.
Qed.

Lemma unchanged_in_false (rs : gmap string RoomStateStore) sync r :
  unchanged_in rs sync r = false ->
  exists d, (r, d) ∈ sync /\ changed_at rs r d = true.
Proof.
  unfold unchanged_in. induction sync as [|[k d] sync IH]; simpl; [discriminate|].
  intros Hun. apply andb_false_iff in Hun as [Hhd|Htl].
  - apply negb_false_iff, andb_true_iff in Hhd as [Hk Hch].
    apply bool_decide_eq_true in Hk. simpl in Hk. subst k. exists d. split; [left | exact Hch].
  - destruct (IH Htl) as (d' & Hin & Hch). exists d'. split; [right; exact Hin | exact Hch].
Qed.

(** X9.  The entries of the rooms that no entry of the payload makes new
    or changed stay in the room list as they are, and in the order they
    had: that holds for the rooms the payload does not mention and for
    those whose timestamp, unread counters and preview it leaves alone,
    whatever else of such a room it changes (its name, its avatar). *)
Theorem applySync_keeps_unchanged st sync :
  NoDup sync.*1 ->
  List.filter (fun entry => unchanged_in (rooms st) sync (e_room_id entry)) (roomList st)
    `sublist_of` roomList (applySync st sync).1.
Proof.
  intros Hnd. destruct (applySync_cases st sync) as (rs' & ch' & Hfold & Hcase).
  apply sync_rooms_entries in Hfold as (_ & _ & _ & Hkeys & _); [|exact Hnd].
  destruct Hcase as [[Hempty Hrun]|[(Hsome & Hchne & Hrun)|(Hsome & Hchnil & Hrun)]];
    rewrite Hrun; cbn [fst rooms roomList].
  - rewrite Hempty. simpl. apply sublist_nil_l.
  - assert (Hb : bool_decide (length (roomList st) = 0%nat) = false).
    { apply bool_decide_eq_false_2. destruct (roomList st); [contradiction | discriminate]. }
    etrans; [|apply insert_entries_sublist].
    erewrite List.filter_ext; [reflexivity|].
    intros e. simpl. unfold Map_has.
    destruct (unchanged_in (rooms st) sync (e_room_id e)) eqn:Hun.
    + symmetry. apply negb_true_iff, bool_decide_eq_false_2. intros Hk.
      apply unchanged_in_spec in Hun. apply Hun.
      apply Hkeys in Hk as [Hk|(_ & d & Hkd & Hch)]; [inversion Hk|]. eauto.
    + symmetry. apply negb_false_iff, bool_decide_eq_true_2. apply Hkeys. right.
      split; [exact Hb|]. apply unchanged_in_false, Hun.
  - apply List_filter_sublist.
Qed.


Lemma sorted_of_timestamps l :
  StronglySorted Z.le (ts <$> l) -> sorted_by_timestamp l.
Proof.
  unfold sorted_by_timestamp. induction l as [|a l IH]; simpl; intros Hs; [constructor|].
  apply StronglySorted_cons in Hs as [Ha Hs]. constructor; [auto|].
  rewrite Forall_fmap in Ha. exact Ha.
Qed.

Lemma findIndex_room (l : list RoomListEntry) r :
  findIndex (fun entry => String.eqb (e_room_id entry) r) l <> -1 <->
  r ∈ e_room_id <$> l.
Proof.
  unfold findIndex.
  destruct (findIndex_from_spec (fun entry => String.eqb (e_room_id entry) r) l 0)
    as [(Hno & Hall)|(x & Hle & Hx & Hpx)]; [lia| |].
  - split; [intros H; contradiction|]. intros Hin. exfalso.
    apply list_elem_of_fmap in Hin as (e & -> & He).
    rewrite Forall_forall in Hall. specialize (Hall e He). simpl in Hall.
    rewrite String.eqb_refl in Hall. discriminate.
  - split; [|intros _; lia]. intros _. apply String.eqb_eq in Hpx. subst r.
    apply list_elem_of_fmap. exists x. split; [reflexivity|].
    eapply list_elem_of_lookup_2. exact Hx.
Qed.

(** X10.  [applyDecrypted] changes nothing for a room the store does not
    know.  For a known room it never changes which rooms the list holds,
    their order or their timestamps, so a sorted list stays sorted and
    one entry per room stays one entry per room: the only entry it writes
    is the first one of the decrypted room, and of that only the preview
    event.  It emits exactly when the room is known, the payload carries
    a preview row ID other than 0 and the room is in the list. *)
Theorem applyDecrypted_room_list st decrypted :
  let st' := (applyDecrypted st decrypted).1 in
  let emitted := (applyDecrypted st decrypted).2 in
  (rooms st !! d_room_id decrypted = None -> st' = st /\ emitted = None) /\
  e_room_id <$> roomList st' = e_room_id <$> roomList st /\
  e_sorting_timestamp <$> roomList st' = e_sorting_timestamp <$> roomList st /\
  (forall r, is_Some (rooms st' !! r) <-> is_Some (rooms st !! r)) /\
  (sorted_by_timestamp (roomList st) <-> sorted_by_timestamp (roomList st')) /\
  (one_entry_per_room st <-> one_entry_per_room st') /\
  (forall i entry', roomList st' !! i = Some entry' ->
     exists entry, roomList st !! i = Some entry /\
       (entry' = entry \/
        e_room_id entry = d_room_id decrypted /\
        exists evt, entry' = set_preview_event entry evt)) /\
  (emitted = None /\ roomList st' = roomList st \/ emitted = Some (roomList st')) /\
  (is_Some emitted <->
     is_Some (rooms st !! d_room_id decrypted) /\
     (exists rowid, d_preview_event_rowid decrypted = Some rowid /\ rowid <> 0) /\
     d_room_id decrypted ∈ e_room_id <$> roomList st).
Proof.
  intros st' emitted.
  assert (Hids : e_room_id <$> roomList st' = e_room_id <$> roomList st).
  { subst st'. unfold applyDecrypted.
    destruct (rooms st !! d_room_id decrypted) as [room|]; [|reflexivity].
    destruct (d_preview_event_rowid decrypted) as [rowid|]; [|reflexivity].
    destruct (negb (rowid =? 0)); [|reflexivity].
    destruct (negb (_ =? -1)); [|reflexivity].
    cbn [fst roomList]. apply fmap_alter_same. reflexivity. }
  assert (Hts : ts <$> roomList st' = ts <$> roomList st).
  { subst st'. unfold applyDecrypted.
    destruct (rooms st !! d_room_id decrypted) as [room|]; [|reflexivity].
    destruct (d_preview_event_rowid decrypted) as [rowid|]; [|reflexivity].
    destruct (negb (rowid =? 0)); [|reflexivity].
    destruct (negb (_ =? -1)); [|reflexivity].
    cbn [fst roomList]. apply fmap_alter_same. reflexivity. }
  assert (Hdom : forall r, is_Some (rooms st' !! r) <-> is_Some (rooms st !! r)).
  { intros r. subst st'. unfold applyDecrypted.
    destruct (rooms st !! d_room_id decrypted) as [room|] eqn:Hroom; [|reflexivity].
    assert (Hins : is_Some (<[d_room_id decrypted :=
                     RoomStateStore_applyDecrypted room decrypted]> (rooms st) !! r) <->
                   is_Some (rooms st !! r)).
    { destruct (decide (d_room_id decrypted = r)) as [<-|Hne].
      - rewrite lookup_insert_eq, Hroom. split; eauto.
      - rewrite lookup_insert_ne by exact Hne. reflexivity. }
    destruct (d_preview_event_rowid decrypted) as [rowid|]; [|exact Hins].
    destruct (negb (rowid =? 0)); [|exact Hins].
    destruct (negb (_ =? -1)); exact Hins. }
  split; [|split; [exact Hids|split; [exact Hts|split; [exact Hdom|split; [|split; [|split; [|split]]]]]]].
  - subst st' emitted. unfold applyDecrypted.
    destruct (rooms st !! d_room_id decrypted) as [room|]; [discriminate|]. auto.
  - split; intros Hs; apply sorted_of_timestamps; apply sorted_timestamps in Hs;
      [rewrite Hts | rewrite <- Hts]; exact Hs.
  - unfold one_entry_per_room. rewrite Hids. split; intros [Hnd Hall]; (split; [exact Hnd|]);
      intros r; rewrite (Hall r); [symmetry|]; apply Hdom.
  - intros i entry'. subst st'. unfold applyDecrypted.
    destruct (rooms st !! d_room_id decrypted) as [room|]; [|eauto].
    destruct (d_preview_event_rowid decrypted) as [rowid|]; [|eauto].
    destruct (negb (rowid =? 0)); [|eauto].
    destruct (negb (_ =? -1)) eqn:Hidx; [|eauto].
    cbn [fst roomList]. unfold findIndex in *.
    destruct (findIndex_from_spec
                (fun entry => String.eqb (e_room_id entry) (d_room_id decrypted))
                (roomList st) 0) as [(Hno & _)|(x & Hle & Hx & Hpx)]; [lia| |].
    { rewrite Hno in Hidx. discriminate. }
    rewrite Z.sub_0_r in Hx. apply String.eqb_eq in Hpx.
    set (i0 := Z.to_nat _) in *.
    destruct (decide (i = i0)) as [->|Hne].
    + rewrite list_lookup_alter_eq, Hx. simpl. intros [= <-]. exists x. split; [reflexivity|].
      right. split; [exact Hpx|]. eauto.
    + rewrite list_lookup_alter_ne by congruence. eauto.
  - subst st' emitted. unfold applyDecrypted.
    destruct (rooms st !! d_room_id decrypted) as [room|]; [|auto].
    destruct (d_preview_event_rowid decrypted) as [rowid|]; [|auto].
    destruct (negb (rowid =? 0)); [|auto].
    destruct (negb (_ =? -1)); auto.
  - subst emitted. unfold applyDecrypted.
    destruct (rooms st !! d_room_id decrypted) as [room|].
    2:{ cbn [snd]. split; [intros [? [=]]|intros ([? [=]] & _)]. }
    destruct (d_preview_event_rowid decrypted) as [rowid|].
    2:{ cbn [snd]. split; [intros [? [=]]|intros (_ & (? & [=] & _) & _)]. }
    destruct (rowid =? 0) eqn:Hzero; cbn [negb].
    { cbn [snd]. apply Z.eqb_eq in Hzero.
      split; [intros [? [=]]|intros (_ & (? & [= <-] & Hnz) & _); contradiction]. }
    apply Z.eqb_neq in Hzero.
    destruct (findIndex _ _ =? -1) eqn:Hidx; cbn [negb snd].
    + apply Z.eqb_eq in Hidx. split; [intros [? [=]]|].
      intros (_ & _ & Hin). apply findIndex_room in Hin. contradiction.
    + apply Z.eqb_neq in Hidx. split; [|eauto]. intros _.
      split; [eauto|]. split; [eauto|]. apply findIndex_room, Hidx.
Qed.

End Rooms.

(** Rooms [!a] and [!b] are known; the next payload renames [!a] and
    brings the new room [!c]. *)
Lemma applySync_rooms_witness :
  let st := (@applySync SimpleRoomStore StateStore_new [room_at "!a" 5; room_at "!b" 10]).1 in
  let renamed := mkSyncRoom (mkDBRoom "!a" (Some "Renamed") None 5 0 0 0 0) [] in
  let sync := [("!a", renamed); room_at "!c" 7] in
  rooms (applySync st sync).1 !! "!b" = rooms st !! "!b".
Proof.
  intros st renamed sync.
  apply (@applySync_rooms SimpleRoomStore st sync).
  - by_decide.
  - by_decide.
Defined.

Lemma applySync_fresh_entry_witness :
  let st := (@applySync SimpleRoomStore StateStore_new [room_at "!a" 5; room_at "!b" 10]).1 in
  let sync := [room_at "!a" 20; room_at "!c" 7] in
  makeRoomListEntry (rooms (applySync st sync).1) (room_at "!a" 20).2 None
    ∈ roomList (applySync st sync).1.
Proof.
  intros st sync.
  apply (@applySync_fresh_entry SimpleRoomStore st sync "!a").
  - split; [by_decide|]. repeat constructor.
  - left.
  - right. vm_compute. reflexivity.
Defined.

Lemma applySync_keeps_unchanged_witness :
  let st := (@applySync SimpleRoomStore StateStore_new [room_at "!a" 5; room_at "!b" 10]).1 in
  let renamed := mkSyncRoom (mkDBRoom "!a" (Some "Renamed") None 5 0 0 0 0) [] in
  let sync := [("!a", renamed); room_at "!c" 7] in
  List.filter (fun entry => unchanged_in (rooms st) sync (e_room_id entry)) (roomList st)
    `sublist_of` roomList (applySync st sync).1.
Proof.
  intros st renamed sync.
  apply (@applySync_keeps_unchanged SimpleRoomStore st sync).
  by_decide.
Defined.

(** The renamed room keeps its old entry: the room list still shows it
    as [Unnamed room]. *)
Example applySync_stale_name :
  let st := (@applySync SimpleRoomStore StateStore_new [room_at "!a" 5; room_at "!b" 10]).1 in
  let renamed := mkSyncRoom (mkDBRoom "!a" (Some "Renamed") None 5 0 0 0 0) [] in
  let sync := [("!a", renamed); room_at "!c" 7] in
  (fun entry => (e_room_id entry, e_name entry)) <$> roomList (applySync st sync).1 =
    [("!a", "Unnamed room"); ("!c", "Unnamed room"); ("!b", "Unnamed room")] /\
  (name ∘ sr_meta) <$> rooms (applySync st sync).1 !! "!a" = Some (Some "Renamed").
Proof. vm_compute. auto. Qed.

End RoomListSpec.

(** ** More properties of [sendInitialData] *)

Module BatchSpec.
Import Websocket WebsocketBatch ListFacts.

Abbreviation ts := SortingTimestamp.

Section BatchProofs.
Context `{C : Conn}.

(** What the inner loop leaves behind when it ends without an error. *)
Lemma fill_payload_spec batch last_ts rooms : forall payload maxTS payload' maxTS',
  fill_payload batch last_ts rooms payload maxTS = Ok (payload', maxTS') ->
  maxTS' = default maxTS (ts <$> last (before_ts last_ts rooms)) /\
  (forall id, is_Some (payload' !! id) <->
     is_Some (payload !! id) \/ id ∈ ID <$> before_ts last_ts rooms) /\
  (forall id sr, payload' !! id = Some sr ->
     payload !! id = Some sr \/
     (Meta sr ∈ before_ts last_ts rooms /\ ID (Meta sr) = id /\
      (length (Events sr) <= 2)%nat /\
      (PreviewEventRowID (Meta sr) = 0 -> Events sr = []) /\
      forall e, e ∈ Events sr -> exists row, Event_GetByRowID batch row = Ok (Some e))) /\
  (NoDup (ID <$> before_ts last_ts rooms) ->
   forall r, r ∈ before_ts last_ts rooms -> exists evts, payload' !! ID r = Some (mkSyncRoom r evts)).
Proof.
  induction rooms as [|room rest IH]; intros payload maxTS payload' maxTS'.
  - intros [= <- <-]. simpl. repeat split; auto.
    + intros [H|H]; [exact H | inversion H].
    + intros _ r Hr. inversion Hr.
  - cbn [fill_payload before_ts].
    destruct (decide (ts room = last_ts)) as [Heq|Hne].
    { intros [= <- <-]. simpl. repeat split; auto.
      + intros [H|H]; [exact H | inversion H].
      + intros _ r Hr. inversion Hr. }
    assert (Hstep : forall evts,
      (length evts <= 2)%nat ->
      (PreviewEventRowID room = 0 -> evts = []) ->
      (forall e, e ∈ evts -> exists row, Event_GetByRowID batch row = Ok (Some e)) ->
      fill_payload batch last_ts rest
        (<[ID room := mkSyncRoom room evts]> payload) (ts room) = Ok (payload', maxTS') ->
      maxTS' = default maxTS (ts <$> last (room :: before_ts last_ts rest)) /\
      (forall id, is_Some (payload' !! id) <->
         is_Some (payload !! id) \/ id ∈ ID <$> (room :: before_ts last_ts rest)) /\
      (forall id sr, payload' !! id = Some sr ->
         payload !! id = Some sr \/
         (Meta sr ∈ room :: before_ts last_ts rest /\ ID (Meta sr) = id /\
          (length (Events sr) <= 2)%nat /\
          (PreviewEventRowID (Meta sr) = 0 -> Events sr = []) /\
          forall e, e ∈ Events sr -> exists row, Event_GetByRowID batch row = Ok (Some e))) /\
      (NoDup (ID <$> (room :: before_ts last_ts rest)) ->
       forall r, r ∈ room :: before_ts last_ts rest ->
         exists evts, payload' !! ID r = Some (mkSyncRoom r evts))).
    { intros evts Hlen Hzero Hfrom Hrun.
      destruct (IH _ _ _ _ Hrun) as (Hmax & Hdom & Hval & Hall).
      split; [|split; [|split]].
      - rewrite Hmax, last_cons. destruct (last (before_ts last_ts rest)); reflexivity.
      - intros id. rewrite Hdom, fmap_cons, elem_of_cons.
        destruct (decide (ID room = id)) as [<-|Hdiff].
        + rewrite lookup_insert_eq. split; [intros _; auto | intros _; left; eauto].
        + rewrite lookup_insert_ne by exact Hdiff. split.
          * intros [H|H]; auto.
          * intros [H|[H|H]]; auto. congruence.
      - intros id sr Hsr. destruct (Hval id sr Hsr) as [Hold|(Hin & Hid & Hrest)].
        + destruct (decide (ID room = id)) as [<-|Hdiff].
          * rewrite lookup_insert_eq in Hold. injection Hold as <-. right. simpl.
            split; [left|]. auto.
          * rewrite lookup_insert_ne in Hold by exact Hdiff. auto.
        + right. split; [right; exact Hin | auto].
      - intros Hnd r Hr. rewrite fmap_cons in Hnd. apply NoDup_cons in Hnd as [Hfirst Hnd].
        apply elem_of_cons in Hr as [->|Hr]; [|apply Hall; auto].
        exists evts. destruct (payload' !! ID room) as [sr|] eqn:Hlook.
        + destruct (Hval _ _ Hlook) as [Hold|(Hin & Hid & _)].
          * rewrite lookup_insert_eq in Hold. symmetry. exact Hold.
          * exfalso. apply Hfirst. rewrite <- Hid. apply list_elem_of_fmap. eauto.
        + exfalso. assert (Hs : is_Some (payload' !! ID room)).
          { apply Hdom. left. rewrite lookup_insert_eq. eauto. }
          rewrite Hlook in Hs. destruct Hs. discriminate. }
    destruct (decide (PreviewEventRowID room = 0)) as [Hz|Hnz].
    { apply Hstep; [simpl; lia | auto | intros e He; inversion He]. }
    destruct (Event_GetByRowID batch (PreviewEventRowID room)) as [[previewEvent|]|e] eqn:Hpre;
      [| apply Hstep; [simpl; lia | auto | intros e He; inversion He] | discriminate].
    assert (Hone : forall e, e ∈ [previewEvent] ->
              exists row, Event_GetByRowID batch row = Ok (Some e)).
    { intros e He. apply list_elem_of_singleton in He as ->. eauto. }
    destruct (LastEditRowID previewEvent) as [editRow|];
      [|apply Hstep; [simpl; lia | contradiction | exact Hone]].
    destruct (Event_GetByRowID batch editRow) as [[lastEdit|]|e] eqn:Hedit;
      [| apply Hstep; [simpl; lia | contradiction | exact Hone] | discriminate].
    apply Hstep; [simpl; lia | contradiction |].
    intros e He. apply elem_of_cons in He as [->|He]; [eauto|].
    apply list_elem_of_singleton in He as ->. eauto.
Qed.


Lemma before_ts_elem last_ts rooms r : r ∈ before_ts last_ts rooms -> r ∈ rooms.
Proof.
  induction rooms as [|room rest IH]; simpl; [auto|].
  destruct (decide (ts room = last_ts)); [intros H; inversion H|].
  intros Hr. apply elem_of_cons in Hr as [->|Hr]; [left | right; auto].
Qed.

Lemma before_ts_sorted last_ts rooms :
  latest_first rooms -> latest_first (before_ts last_ts rooms).
Proof.
  unfold latest_first. induction rooms as [|room rest IH]; simpl; intros Hs; [constructor|].
  apply StronglySorted_cons in Hs as [Hhd Hs].
  destruct (decide (ts room = last_ts)); [constructor|].
  constructor; [auto|]. apply Forall_forall. intros r Hr.
  rewrite Forall_forall in Hhd. apply Hhd, (before_ts_elem _ _ _ Hr).
Qed.

Lemma latest_first_last rooms x r :
  latest_first rooms -> last rooms = Some x -> r ∈ rooms -> ts x <= ts r.
Proof.
  unfold latest_first. induction rooms as [|room rest IH]; intros Hs Hlast Hr; [inversion Hr|].
  apply StronglySorted_cons in Hs as [Hhd Hs]. rewrite last_cons in Hlast.
  destruct (last rest) as [y|] eqn:Hy.
  - injection Hlast as ->. apply elem_of_cons in Hr as [->|Hr]; [|auto].
    rewrite Forall_forall in Hhd. apply Hhd. apply last_Some in Hy as [l' ->].
    apply elem_of_app. right. left.
  - injection Hlast as ->. apply last_None in Hy. subst rest.
    apply list_elem_of_singleton in Hr as ->. lia.
Qed.

Section Older.
Hypothesis Hquery : forall batch maxTS rooms,
  Room_GetBySortTS batch maxTS BatchSize = Ok rooms ->
  Forall (fun r => ts r < maxTS) rooms /\ latest_first rooms.

Lemma send_loop_older fuel : forall batch maxTS roomCount sent0 sent stop,
  send_loop fuel batch maxTS roomCount sent0 = Some (sent, stop) ->
  exists new,
    sent = sent0 ++ new /\
    Forall (fun p : Payload => forall id sr, p !! id = Some sr ->
              ID (Meta sr) = id /\ ts (Meta sr) < maxTS) new /\
    StronglySorted all_older new.
Proof.
  induction fuel as [|fuel IH]; intros batch maxTS roomCount sent0 sent stop; [discriminate|].
  cbn [send_loop].
  assert (Hnone : Some (sent0, stop) = Some (sent, stop) ->
            exists new, sent = sent0 ++ new /\
              Forall (fun p : Payload => forall id sr, p !! id = Some sr ->
                        ID (Meta sr) = id /\ ts (Meta sr) < maxTS) new /\
              StronglySorted all_older new).
  { intros [= <-]. exists []. rewrite app_nil_r. repeat split; constructor. }
  destruct (Room_GetBySortTS batch maxTS BatchSize) as [rooms|e] eqn:Hget.
  2:{ intros [= <- <-]. apply Hnone. reflexivity. }
  destruct (Hquery _ _ _ Hget) as [Hbelow Hsorted].
  destruct (fill_payload _ _ _ _ _) as [[payload maxTS1]|e] eqn:Hfill.
  2:{ intros [= <- <-]. apply Hnone. reflexivity. }
  destruct (fill_payload_spec _ _ _ _ _ _ _ Hfill) as (Hmax & _ & Hval & _).
  set (sent_rooms := before_ts (default 0 (ts <$> last rooms)) rooms) in *.
  assert (Hentry : forall id sr, payload !! id = Some sr ->
            ID (Meta sr) = id /\ ts (Meta sr) < maxTS /\ maxTS1 <= ts (Meta sr)).
  { intros id sr Hsr. destruct (Hval id sr Hsr) as [Hold|(Hin & Hid & _)].
    { rewrite lookup_empty in Hold. discriminate. }
    split; [exact Hid|]. split.
    - rewrite Forall_forall in Hbelow. apply Hbelow. eapply before_ts_elem. exact Hin.
    - rewrite Hmax. destruct (last sent_rooms) as [x|] eqn:Hlast.
      + simpl. eapply latest_first_last; [|exact Hlast|exact Hin].
        apply before_ts_sorted, Hsorted.
      + apply last_None in Hlast. rewrite Hlast in Hin. inversion Hin. }
  assert (Hle : maxTS1 <= maxTS).
  { rewrite Hmax. destruct (last sent_rooms) as [x|] eqn:Hlast; simpl; [|lia].
    rewrite Forall_forall in Hbelow.
    assert (Hx : x ∈ rooms).
    { apply (before_ts_elem (default 0 (ts <$> last rooms))). fold sent_rooms.
      apply last_Some in Hlast as [l' ->]. apply elem_of_app. right. left. }
    specialize (Hbelow x Hx). simpl in Hbelow. lia. }
  destruct (json_Marshal payload) as [u|e].
  2:{ intros [= <- <-]. apply Hnone. reflexivity. }
  destruct (writeCmd batch payload) as [u'|e].
  2:{ intros [= <- <-]. apply Hnone. reflexivity. }
  assert (Hthis : forall id sr, payload !! id = Some sr ->
            ID (Meta sr) = id /\ ts (Meta sr) < maxTS).
  { intros id sr Hsr. destruct (Hentry id sr Hsr) as (H1 & H2 & _). auto. }
  destruct (decide (length rooms < BatchSize)%nat).
  { intros [= <- <-]. exists [payload]. split; [reflexivity|]. split.
    - constructor; [exact Hthis | constructor].
    - repeat constructor. }
  intros Hrun. apply IH in Hrun as (new & -> & Hall & Hs).
  exists (payload :: new). split; [rewrite <- app_assoc; reflexivity|]. split.
  - constructor; [exact Hthis|].
    eapply Forall_impl; [exact Hall|]. simpl. intros p Hp id sr Hsr.
    destruct (Hp id sr Hsr). split; [auto | lia].
  - constructor; [exact Hs|].
    eapply Forall_impl; [exact Hall|]. simpl. intros q Hq id id' sr sr' Hsr Hsr'.
    destruct (Hentry id sr Hsr) as (_ & _ & Hge). destruct (Hq id' sr' Hsr'). lia.
Qed.

(** X12.  When the store answers every query with rooms below [maxTS],
    latest first, the payloads [sendInitialData] writes go down in time:
    every room of a payload is older than every room of the payloads
    written before it.  So no timestamp, and with it no room, is in two
    payloads; every room is filed under its own ID. *)
Theorem sendInitialData_batches_older fuel now sent stop :
  sendInitialData fuel now = Some (sent, stop) ->
  StronglySorted all_older sent /\
  Forall (fun p : Payload => forall id sr, p !! id = Some sr ->
            ID (Meta sr) = id /\ ts (Meta sr) < now + 3600000) sent.
Proof.
  unfold sendInitialData. intros Hrun.
  apply send_loop_older in Hrun as (new & -> & Hall & Hs). auto.
Qed.

End Older.

End BatchProofs.

(** *** A store that answers from a fixed list of rooms *)

Lemma insert_desc_perm r l : insert_desc r l ≡ₚ r :: l.
Proof.
  induction l as [|x l IH]; simpl; [reflexivity|].
  destruct (ts x <=? ts r); [reflexivity|]. rewrite IH. apply Permutation_swap.
Qed.

Lemma sort_desc_perm l : foldr insert_desc [] l ≡ₚ l.
Proof.
  induction l as [|x l IH]; simpl; [reflexivity|]. rewrite insert_desc_perm, IH. reflexivity.
Qed.

Lemma insert_desc_sorted r l : latest_first l -> latest_first (insert_desc r l).
Proof.
  unfold latest_first. induction l as [|x l IH]; simpl; intros Hs.
  - repeat constructor.
  - apply StronglySorted_cons in Hs as [Hx Hs].
    destruct (ts x <=? ts r) eqn:Hle.
    + apply Z.leb_le in Hle. constructor; [constructor; auto|].
      constructor; [exact Hle|]. eapply Forall_impl; [exact Hx|]. simpl. intros; lia.
    + apply Z.leb_gt in Hle. constructor; [auto|].
      rewrite insert_desc_perm. constructor; [lia | exact Hx].
Qed.

Lemma sort_desc_sorted l : latest_first (foldr insert_desc [] l).
Proof.
  induction l as [|x l IH]; simpl; [constructor | apply insert_desc_sorted, IH].
Qed.

Lemma filter_latest_first (f : Room -> bool) l :
  latest_first l -> latest_first (List.filter f l).
Proof.
  unfold latest_first. induction l as [|x l IH]; simpl; intros Hs; [constructor|].
  apply StronglySorted_cons in Hs as [Hx Hs]. destruct (f x); [|auto].
  constructor; [auto|]. apply Forall_forall. intros y Hy.
  apply List_filter_elem in Hy as [Hy _]. rewrite Forall_forall in Hx. auto.
Qed.

Lemma insert_desc_first r l :
  Forall (fun x => ts x <= ts r) l -> insert_desc r l = r :: l.
Proof.
  destruct l as [|x l]; simpl; [reflexivity|]. intros Hall.
  apply Forall_cons in Hall as [Hx _]. apply Z.leb_le in Hx. rewrite Hx. reflexivity.
Qed.

(** Sorting and filtering commute. *)
Lemma insert_desc_filter (f : Room -> bool) r l :
  latest_first l ->
  List.filter f (insert_desc r l) =
    if f r then insert_desc r (List.filter f l) else List.filter f l.
Proof.
  unfold latest_first. induction l as [|x l IH]; simpl; intros Hs.
  - destruct (f r); reflexivity.
  - apply StronglySorted_cons in Hs as [Hx Hs].
    destruct (ts x <=? ts r) eqn:Hle.
    + simpl. destruct (f r) eqn:Hr; [|reflexivity].
      symmetry. apply insert_desc_first. apply Z.leb_le in Hle.
      destruct (f x); [constructor; [exact Hle|]|];
        apply Forall_forall; intros y Hy; apply List_filter_elem in Hy as [Hy _];
        rewrite Forall_forall in Hx; specialize (Hx y Hy); simpl in Hx; lia.
    + simpl. rewrite (IH Hs). destruct (f x) eqn:Hfx, (f r) eqn:Hr; try reflexivity.
      simpl. rewrite Hle. reflexivity.
Qed.

Lemma sort_desc_filter (f : Room -> bool) l :
  foldr insert_desc [] (List.filter f l) = List.filter f (foldr insert_desc [] l).
Proof.
  induction l as [|x l IH]; simpl; [reflexivity|].
  rewrite insert_desc_filter by apply sort_desc_sorted.
  destruct (f x); simpl; rewrite IH; reflexivity.
Qed.

Lemma GetBySortTS_of_sorted stored maxTS limit :
  GetBySortTS_of stored maxTS limit =
    take limit (List.filter (fun r => ts r <? maxTS) (foldr insert_desc [] stored)).
Proof. unfold GetBySortTS_of. rewrite sort_desc_filter. reflexivity. Qed.

Lemma take_latest_first n l : latest_first l -> latest_first (take n l).
Proof.
  unfold latest_first. revert n. induction l as [|x l IH]; intros [|n] Hs; simpl;
    try constructor.
  - apply StronglySorted_cons in Hs as [_ Hs]. auto.
  - apply StronglySorted_cons in Hs as [Hx _]. apply Forall_take. exact Hx.
Qed.

(** The modelled query gives rooms below [maxTS], latest first. *)
Lemma GetBySortTS_of_below stored maxTS limit :
  Forall (fun r => ts r < maxTS) (GetBySortTS_of stored maxTS limit) /\
  latest_first (GetBySortTS_of stored maxTS limit).
Proof.
  rewrite GetBySortTS_of_sorted. split.
  - apply Forall_take, Forall_forall. intros r Hr.
    apply List_filter_elem in Hr as [_ Hr]. apply Z.ltb_lt in Hr. exact Hr.
  - apply take_latest_first, filter_latest_first, sort_desc_sorted.
Qed.




Lemma before_ts_newer t rooms :
  latest_first rooms -> Forall (fun r => t <= ts r) rooms ->
  before_ts t rooms = List.filter (fun r => t <? ts r) rooms.
Proof.
  unfold latest_first. induction rooms as [|room rest IH]; simpl; intros Hs Hge; [reflexivity|].
  apply StronglySorted_cons in Hs as [Hhd Hs]. apply Forall_cons in Hge as [Hroom Hge].
  destruct (decide (ts room = t)) as [Heq|Hne].
  - replace (t <? ts room) with false by (symmetry; apply Z.ltb_ge; lia).
    symmetry. clear IH Hs. induction rest as [|r rest IHr]; simpl; [reflexivity|].
    apply Forall_cons in Hhd as [Hr Hhd]. apply Forall_cons in Hge as [Hr' Hge].
    replace (t <? ts r) with false by (symmetry; apply Z.ltb_ge; lia). auto.
  - replace (t <? ts room) with true by (symmetry; apply Z.ltb_lt; lia).
    f_equal. auto.
Qed.

Section Newer.
Context `{C : Conn}.

(** X11.  One batch that the store hands over latest first, with every
    room under its own ID: the inner loop sends exactly the rooms that
    are newer than the last room of the batch, each with at most two
    events (none when the room has no preview event), and leaves [maxTS]
    at the timestamp of the oldest room it has sent, or where it was when
    it has sent none. *)
Theorem fill_payload_newer batch rooms x maxTS payload maxTS' :
  latest_first rooms -> last rooms = Some x -> NoDup (ID <$> rooms) ->
  fill_payload batch (ts x) rooms ∅ maxTS = Ok (payload, maxTS') ->
  (forall r, r ∈ rooms -> is_Some (payload !! ID r) <-> ts x < ts r) /\
  (forall id sr, payload !! id = Some sr ->
     Meta sr ∈ rooms /\ ID (Meta sr) = id /\ ts x < ts (Meta sr) /\ maxTS' <= ts (Meta sr) /\
     (length (Events sr) <= 2)%nat /\
     (PreviewEventRowID (Meta sr) = 0 -> Events sr = [])) /\
  (maxTS' = maxTS /\ payload = ∅ \/
   exists id sr, payload !! id = Some sr /\ maxTS' = ts (Meta sr)).
Proof.
  intros Hsorted Hlast Hnd Hfill.
  destruct (fill_payload_spec _ _ _ _ _ _ _ Hfill) as (Hmax & Hdom & Hval & Hall).
  assert (Hge : Forall (fun r => ts x <= ts r) rooms).
  { apply Forall_forall. intros r Hr. eapply latest_first_last; eauto. }
  rewrite (before_ts_newer _ _ Hsorted Hge) in Hmax, Hdom, Hval, Hall.
  set (newer := List.filter (fun r => ts x <? ts r) rooms) in *.
  assert (Hnewer : forall r, r ∈ newer <-> r ∈ rooms /\ ts x < ts r).
  { intros r. unfold newer. rewrite List_filter_elem, Z.ltb_lt. reflexivity. }
  assert (Hndn : NoDup (ID <$> newer)).
  { eapply sublist_NoDup; [exact Hnd|]. apply fmap_sublist, List_filter_sublist. }
  assert (Hsn : latest_first newer) by apply filter_latest_first, Hsorted.
  split; [|split].
  - intros r Hr. rewrite Hdom. split.
    + intros [Hold|Hin]; [rewrite lookup_empty in Hold; destruct Hold; discriminate|].
      apply list_elem_of_fmap in Hin as (r' & Hid & Hr').
      apply Hnewer in Hr' as [Hr' Hlt].
      rewrite (NoDup_fmap_eq ID rooms r r' Hnd Hr Hr' Hid). exact Hlt.
    + intros Hlt. right. apply list_elem_of_fmap. exists r. split; [reflexivity|].
      apply Hnewer. auto.
  - intros id sr Hsr. destruct (Hval id sr Hsr) as [Hold|(Hin & Hid & Hlen & Hzero & _)].
    { rewrite lookup_empty in Hold. discriminate. }
    pose proof Hin as Hin'. apply Hnewer in Hin' as [Hr Hlt].
    repeat split; auto. rewrite Hmax.
    destruct (last newer) as [y|] eqn:Hy; simpl.
    + eapply latest_first_last; eauto.
    + apply last_None in Hy. rewrite Hy in Hin. inversion Hin.
  - destruct (last newer) as [y|] eqn:Hy.
    + right. assert (Hin : y ∈ newer).
      { apply last_Some in Hy as [l' ->]. apply elem_of_app. right. left. }
      destruct (Hall Hndn y Hin) as [evts Hlook].
      exists (ID y), (mkSyncRoom y evts). split; [exact Hlook|]. rewrite Hmax. reflexivity.
    + left. split; [rewrite Hmax; reflexivity|].
      apply last_None in Hy. apply map_eq. intros id. rewrite lookup_empty.
      destruct (payload !! id) as [sr|] eqn:Hsr; [|reflexivity].
      destruct (Hval id sr Hsr) as [Hold|(Hin & _)].
      * rewrite lookup_empty in Hold. discriminate.
      * rewrite Hy in Hin. inversion Hin.
Qed.

End Newer.

Lemma filter_filter_below m m' (l : list Room) :
  m' <= m ->
  List.filter (fun r => ts r <? m') (List.filter (fun r => ts r <? m) l) =
  List.filter (fun r => ts r <? m') l.
Proof.
  intros Hle. induction l as [|x l IH]; simpl; [reflexivity|].
  destruct (ts x <? m) eqn:Hm; simpl; rewrite IH; [reflexivity|].
  destruct (ts x <? m') eqn:Hm'; [|reflexivity].
  apply Z.ltb_lt in Hm'. apply Z.ltb_ge in Hm. lia.
Qed.

Lemma strictly_latest_first_intro l :
  latest_first l -> NoDup (ts <$> l) -> strictly_latest_first l.
Proof.
  unfold latest_first, strictly_latest_first.
  induction l as [|x l IH]; simpl; intros Hs Hnd; [constructor|].
  apply StronglySorted_cons in Hs as [Hx Hs]. apply NoDup_cons in Hnd as [Hnew Hnd].
  constructor; [auto|]. apply Forall_forall. intros y Hy.
  rewrite Forall_forall in Hx. specialize (Hx y Hy). simpl in Hx.
  assert (ts y <> ts x); [|lia].
  intros Heq. apply Hnew. rewrite <- Heq. apply list_elem_of_fmap. eauto.
Qed.

Lemma strictly_latest_first_filter (f : Room -> bool) l :
  strictly_latest_first l -> strictly_latest_first (List.filter f l).
Proof.
  unfold strictly_latest_first. induction l as [|x l IH]; simpl; intros Hs; [constructor|].
  apply StronglySorted_cons in Hs as [Hx Hs]. destruct (f x); [|auto].
  constructor; [auto|]. apply Forall_forall. intros y Hy.
  apply List_filter_elem in Hy as [Hy _]. rewrite Forall_forall in Hx. auto.
Qed.

Lemma strictly_latest_first_NoDup l : strictly_latest_first l -> NoDup l.
Proof.
  unfold strictly_latest_first. induction 1 as [|x l Hs IH Hx]; constructor; [|exact IH].
  intros Hin. rewrite Forall_forall in Hx. specialize (Hx x Hin). simpl in Hx. lia.
Qed.

(** Below the timestamp of the room at index [i] are the rooms after it. *)
Lemma below_drop l : forall i x,
  strictly_latest_first l -> l !! i = Some x ->
  List.filter (fun r => ts r <? ts x) l = drop (S i) l.
Proof.
  unfold strictly_latest_first.
  induction l as [|y l IH]; intros i x Hs Hx; [discriminate|].
  apply StronglySorted_cons in Hs as [Hy Hs]. destruct i as [|i]; simpl in *.
  - injection Hx as ->. rewrite Z.ltb_irrefl.
    rewrite drop_0. clear IH. induction l as [|z l IHl]; simpl; [reflexivity|].
    apply Forall_cons in Hy as [Hz Hy]. apply StronglySorted_cons in Hs as [_ Hs].
    apply Z.ltb_lt in Hz. rewrite Hz. f_equal. auto.
  - assert (Hlt : ts x < ts y).
    { rewrite Forall_forall in Hy. apply Hy. eapply list_elem_of_lookup_2. exact Hx. }
    replace (ts y <? ts x) with false; [apply IH; auto|].
    symmetry. apply Z.ltb_ge. lia.
Qed.

(** In a batch without equal timestamps the inner loop stops at the
    last room and nowhere else. *)
Lemma before_ts_last pre x :
  strictly_latest_first (pre ++ [x]) -> before_ts (ts x) (pre ++ [x]) = pre.
Proof.
  unfold strictly_latest_first. induction pre as [|y pre IH]; simpl; intros Hs.
  - destruct (decide (ts x = ts x)); [reflexivity | contradiction].
  - apply StronglySorted_cons in Hs as [Hy Hs].
    destruct (decide (ts y = ts x)) as [Heq|_].
    + rewrite Forall_forall in Hy. specialize (Hy x). simpl in Hy.
      assert (ts x < ts y); [apply Hy, elem_of_app; right; left | lia].
    + rewrite IH by exact Hs. reflexivity.
Qed.

Section Stored.
Context `{C : Conn}.
Variable stored : list Room.
Hypothesis Hquery : forall batch maxTS,
  Room_GetBySortTS batch maxTS BatchSize = Ok (GetBySortTS_of stored maxTS BatchSize).
Hypothesis Hevents : forall batch row, exists evt, Event_GetByRowID batch row = Ok evt.
Hypothesis Hmarshal : forall payload, json_Marshal payload = Ok tt.
Hypothesis Hwrite : forall batch payload, writeCmd batch payload = Ok tt.
Hypothesis Htimes : NoDup (ts <$> stored).
Hypothesis Hids : NoDup (ID <$> stored).

Lemma fill_payload_ok batch last_ts rooms : forall payload maxTS,
  exists payload' maxTS', fill_payload batch last_ts rooms payload maxTS = Ok (payload', maxTS').
Proof.
  induction rooms as [|room rest IH]; intros payload maxTS; cbn [fill_payload]; [eauto|].
  destruct (decide (ts room = last_ts)); [eauto|].
  destruct (decide (PreviewEventRowID room = 0)); [apply IH|].
  destruct (Hevents batch (PreviewEventRowID room)) as [[previewEvent|] ->]; [|apply IH].
  destruct (LastEditRowID previewEvent) as [editRow|]; [|apply IH].
  destruct (Hevents batch editRow) as [[lastEdit|] ->]; apply IH.
Qed.

(** The stored rooms, latest first, and those of them below [m]. *)
Let sorted_rooms : list Room := foldr insert_desc [] stored.
Let below (m : Z) : list Room := List.filter (fun r => ts r <? m) sorted_rooms.

Lemma sorted_rooms_strict : strictly_latest_first sorted_rooms.
Proof.
  apply strictly_latest_first_intro; [apply sort_desc_sorted|].
  unfold sorted_rooms. rewrite sort_desc_perm. exact Htimes.
Qed.

Lemma below_strict m : strictly_latest_first (below m).
Proof. apply strictly_latest_first_filter, sorted_rooms_strict. Qed.

Lemma below_ids m : NoDup (ID <$> below m).
Proof.
  eapply sublist_NoDup; [|apply fmap_sublist, List_filter_sublist].
  unfold sorted_rooms. rewrite sort_desc_perm. exact Hids.
Qed.


Lemma take_strict n l : strictly_latest_first l -> strictly_latest_first (take n l).
Proof.
  unfold strictly_latest_first. revert n. induction l as [|x l IH]; intros [|n] Hs; simpl;
    try constructor.
  - apply StronglySorted_cons in Hs as [_ Hs]. auto.
  - apply StronglySorted_cons in Hs as [Hx _]. apply Forall_take. exact Hx.
Qed.

(** One turn of the outer loop on a batch [pre ++ [x]] without equal
    timestamps: the rooms of [pre] are sent, [x] is not. *)
Lemma fill_payload_batch batch pre x m :
  strictly_latest_first (pre ++ [x]) -> NoDup (ID <$> pre) ->
  exists payload,
    fill_payload batch (default 0 (ts <$> last (pre ++ [x]))) (pre ++ [x]) ∅ m =
      Ok (payload, default m (ts <$> last pre)) /\
    forall r, (exists evts, payload !! ID r = Some (mkSyncRoom r evts)) <-> r ∈ pre.
Proof.
  intros Hs Hnd. rewrite last_snoc. simpl.
  destruct (fill_payload_ok batch (ts x) (pre ++ [x]) ∅ m) as (payload & maxTS' & Hfill).
  destruct (fill_payload_spec _ _ _ _ _ _ _ Hfill) as (Hmax & _ & Hval & Hall).
  rewrite before_ts_last in Hmax, Hval, Hall by exact Hs.
  exists payload. rewrite Hfill, Hmax. split; [reflexivity|].
  intros r. split.
  - intros [evts Hr]. destruct (Hval _ _ Hr) as [Hold|(Hin & _)]; [|exact Hin].
    rewrite lookup_empty in Hold. discriminate.
  - intros Hr. apply Hall; auto.
Qed.

Lemma below_elem m r : r ∈ below m <-> r ∈ stored /\ ts r < m.
Proof.
  unfold below. rewrite List_filter_elem. unfold sorted_rooms.
  rewrite sort_desc_perm, Z.ltb_lt. reflexivity.
Qed.

(** A last batch: fewer than [BatchSize] rooms are left below [m]. *)
Lemma send_loop_short m batch roomCount sent0 :
  (length (below m) < BatchSize)%nat ->
  exists payload,
    send_loop 1 batch m roomCount sent0 =
      Some (sent0 ++ [payload], Completed (roomCount + length (below m))) /\
    forall r, (exists evts, payload !! ID r = Some (mkSyncRoom r evts)) <->
              (r ∈ below m /\ last (below m) <> Some r).
Proof.
  intros Hshort. cbn [send_loop]. rewrite Hquery, GetBySortTS_of_sorted.
  fold sorted_rooms. fold (below m). rewrite take_ge by lia.
  destruct (decide (below m = [])) as [Hnil|Hsome].
  - rewrite Hnil. cbn [fill_payload last fmap option_fmap option_map default length].
    rewrite Hmarshal, Hwrite.
    destruct (decide (0 < BatchSize)%nat) as [_|Hno]; [|unfold BatchSize in Hno; lia].
    exists ∅. split; [reflexivity|]. intros r. split.
    + intros [evts Hr]. rewrite lookup_empty in Hr. discriminate.
    + intros [Hr _]. inversion Hr.
  - destruct (exists_last Hsome) as (pre & x & Heq).
    pose proof (below_strict m) as Hs. pose proof (below_ids m) as Hnd.
    rewrite Heq in Hs, Hnd |- *.
    rewrite fmap_app in Hnd. apply NoDup_app in Hnd as (Hndpre & _ & _).
    destruct (fill_payload_batch batch pre x m Hs Hndpre) as (payload & Hfill & Hcover).
    rewrite Hfill, Hmarshal, Hwrite.
    destruct (decide (length (pre ++ [x]) < BatchSize)%nat) as [_|Hno];
      [|rewrite <- Heq in Hno; lia].
    exists payload. split; [reflexivity|]. intros r. rewrite Hcover, last_snoc.
    apply strictly_latest_first_NoDup, NoDup_app in Hs as (_ & Hdisj & _).
    split.
    + intros Hr. split; [apply elem_of_app; auto|].
      intros [= ->]. apply (Hdisj r Hr). left.
    + intros [Hr Hne]. apply elem_of_app in Hr as [Hr|Hr]; [exact Hr|].
      apply list_elem_of_singleton in Hr as ->. contradiction.
Qed.

Lemma send_loop_all : forall n m batch roomCount sent0,
  (length (below m) <= n)%nat ->
  exists fuel new roomCount',
    (fuel <= S n)%nat /\
    send_loop fuel batch m roomCount sent0 = Some (sent0 ++ new, Completed roomCount') /\
    forall r, (exists p evts, p ∈ new /\ p !! ID r = Some (mkSyncRoom r evts)) <->
              (r ∈ below m /\ last (below m) <> Some r).
Proof.
  assert (Hshort : forall n m batch roomCount sent0,
            (length (below m) < BatchSize)%nat ->
            exists fuel new roomCount',
              (fuel <= S n)%nat /\
              send_loop fuel batch m roomCount sent0 =
                Some (sent0 ++ new, Completed roomCount') /\
              forall r, (exists p evts, p ∈ new /\ p !! ID r = Some (mkSyncRoom r evts)) <->
                        (r ∈ below m /\ last (below m) <> Some r)).
  { intros n m batch roomCount sent0 Hlt.
    destruct (send_loop_short m batch roomCount sent0 Hlt) as (payload & Hrun & Hcover).
    exists 1%nat, [payload], (roomCount + length (below m))%nat.
    split; [lia|]. split; [exact Hrun|]. intros r. rewrite <- Hcover. split.
    - intros (p & evts & Hp & Hr). apply list_elem_of_singleton in Hp as ->. eauto.
    - intros [evts Hr]. exists payload, evts. split; [left | exact Hr]. }
  induction n as [|n IH]; intros m batch roomCount sent0 Hlen.
  { apply Hshort. unfold BatchSize. lia. }
  destruct (decide (length (below m) < BatchSize)%nat) as [Hlt|Hge]; [apply Hshort, Hlt|].
  unfold BatchSize in Hge.
  pose proof (below_strict m) as Hs. pose proof (below_ids m) as Hnd.
  set (R := below m) in *.
  destruct (R !! 99%nat) as [x99|] eqn:H99; [|apply lookup_ge_None in H99; lia].
  destruct (R !! 98%nat) as [x98|] eqn:H98; [|apply lookup_ge_None in H98; lia].
  assert (Hbatch : take BatchSize R = take 99 R ++ [x99]).
  { unfold BatchSize. change 100%nat with (S 99). apply take_S_r. exact H99. }
  assert (Hpre : last (take 99 R) = Some x98).
  { change 99%nat with (S 98). rewrite (take_S_r _ _ _ H98). apply last_snoc. }
  assert (Hsplit : R = take 99 R ++ drop 99 R) by (symmetry; apply take_drop).
  assert (Hsb : strictly_latest_first (take 99 R ++ [x99])).
  { rewrite <- Hbatch. apply take_strict, Hs. }
  assert (Hndpre : NoDup (ID <$> take 99 R)).
  { eapply sublist_NoDup; [exact Hnd|]. apply fmap_sublist, sublist_take. }
  destruct (fill_payload_batch batch (take 99 R) x99 m Hsb Hndpre)
    as (payload & Hfill & Hcover).
  rewrite Hpre in Hfill. simpl in Hfill. rewrite <- Hbatch in Hfill.
  assert (Hx98 : x98 ∈ R) by (eapply list_elem_of_lookup_2; exact H98).
  assert (Hnext : below (ts x98) = drop 99 R).
  { unfold below. rewrite <- (filter_filter_below m).
    - fold (below m). fold R. apply (below_drop R 98 x98 Hs H98).
    - apply below_elem in Hx98 as [_ Hlt]. lia. }
  destruct (IH (ts x98) (S batch) (roomCount + length (take BatchSize R))%nat
              (sent0 ++ [payload])) as (fuel & new & rc' & Hfuel & Hrun & Hrest).
  { rewrite Hnext, length_drop. lia. }
  exists (S fuel), (payload :: new), rc'. split; [lia|]. split.
  - cbn [send_loop]. rewrite Hquery, GetBySortTS_of_sorted.
    fold sorted_rooms. fold (below m). fold R.
    rewrite Hfill, Hmarshal, Hwrite.
    destruct (decide (length (take BatchSize R) < BatchSize)%nat) as [Hlt|_].
    { rewrite length_take in Hlt. unfold BatchSize in Hlt. lia. }
    rewrite Hrun, <- app_assoc. reflexivity.
  - intros r. rewrite Hnext in Hrest.
    assert (Hlast : last R = last (drop 99 R)).
    { rewrite Hsplit at 1. rewrite last_app.
      destruct (last (drop 99 R)) eqn:Hl; [reflexivity|].
      apply last_None in Hl. apply (f_equal length) in Hl. rewrite length_drop in Hl.
      simpl in Hl. lia. }
    pose proof (strictly_latest_first_NoDup _ Hs) as HndR.
    rewrite Hsplit in HndR. apply NoDup_app in HndR as (_ & Hdisj & _).
    split.
    + intros (p & evts & Hp & Hr). apply elem_of_cons in Hp as [->|Hp].
      * assert (Hin : r ∈ take 99 R) by (apply Hcover; eauto).
        split; [rewrite Hsplit; apply elem_of_app; auto|].
        rewrite Hlast. intros Hl. apply (Hdisj r Hin).
        apply last_Some in Hl as [l' ->]. apply elem_of_app. right. left.
      * destruct (proj1 (Hrest r)) as [Hin Hne]; [eauto|].
        split; [rewrite Hsplit; apply elem_of_app; auto|]. rewrite Hlast. exact Hne.
    + intros [Hr Hne]. rewrite Hsplit in Hr. apply elem_of_app in Hr as [Hr|Hr].
      * apply Hcover in Hr as [evts Hr]. exists payload, evts. split; [left | exact Hr].
      * destruct (proj2 (Hrest r)) as (p & evts & Hp & Hpr).
        { split; [exact Hr|]. rewrite <- Hlast. exact Hne. }
        exists p, evts. split; [right; exact Hp | exact Hpr].
Qed.

(** X13.  A store in which no two rooms share a timestamp or an ID, all of
    them last active before [now + 1h], and a connection that does not
    fail: [sendInitialData] ends, after at most one turn per stored room
    and one more, and it has sent every stored room but the oldest. *)
Theorem sendInitialData_all_but_oldest now :
  Forall (fun r => ts r < now + 3600000) stored ->
  exists fuel sent roomCount,
    (fuel <= S (length stored))%nat /\
    sendInitialData fuel now = Some (sent, Completed roomCount) /\
    forall r, r ∈ stored ->
      ((exists p evts, p ∈ sent /\ p !! ID r = Some (mkSyncRoom r evts)) <->
       exists r', r' ∈ stored /\ ts r' < ts r).
Proof.
  intros Hnow. unfold sendInitialData.
  assert (Hperm : sorted_rooms ≡ₚ stored) by apply sort_desc_perm.
  assert (Hall : below (now + 3600000) = sorted_rooms).
  { unfold below. apply List_filter_all, Forall_forall. intros r Hr.
    apply Z.ltb_lt. rewrite Forall_forall in Hnow. apply Hnow. rewrite <- Hperm. exact Hr. }
  destruct (send_loop_all (length stored) (now + 3600000) 0 0 [])
    as (fuel & new & rc & Hfuel & Hrun & Hcover).
  { rewrite Hall, Hperm. reflexivity. }
  exists fuel, new, rc. split; [exact Hfuel|]. split; [exact Hrun|].
  intros r Hr. rewrite Hcover, Hall.
  assert (Hsorted : latest_first sorted_rooms) by apply sort_desc_sorted.
  split.
  - intros [Hin Hne]. destruct (last sorted_rooms) as [x|] eqn:Hlast.
    + assert (Hx : x ∈ sorted_rooms).
      { apply last_Some in Hlast as [l' ->]. apply elem_of_app. right. left. }
      exists x. split; [rewrite <- Hperm; exact Hx|].
      pose proof (latest_first_last _ _ _ Hsorted Hlast Hin) as Hle.
      assert (ts x <> ts r); [|lia]. intros Heq. apply Hne. f_equal.
      apply (NoDup_fmap_eq ts stored); auto. rewrite <- Hperm. exact Hx.
    + apply last_None in Hlast. rewrite Hlast in Hin. inversion Hin.
  - intros (r' & Hr' & Hlt). split; [rewrite Hperm; exact Hr|].
    intros Hlast. rewrite <- Hperm in Hr'.
    pose proof (latest_first_last _ _ _ Hsorted Hlast Hr'). lia.
Qed.

End Stored.

(** *** The theorems on three stored rooms *)

Lemma fill_payload_newer_witness :
  let b := mkRoom "!b" 3000 0 in
  let c := mkRoom "!c" 2000 0 in
  let a := mkRoom "!a" 1000 0 in
  let payload : Payload := <["!c" := mkSyncRoom c []]> (<["!b" := mkSyncRoom b []]> ∅) in
  2000 = 5000 /\ payload = ∅ \/
  exists id sr, payload !! id = Some sr /\ 2000 = ts (Meta sr).
Proof.
  intros b c a payload.
  apply (@fill_payload_newer (StoredRooms three_rooms) 0 [b; c; a] a 5000 payload 2000).
  - repeat constructor; vm_compute; discriminate.
  - reflexivity.
  - apply (bool_decide_unpack _). vm_compute. exact I.
  - vm_compute. reflexivity.
Defined.

Lemma sendInitialData_batches_older_witness :
  let sent := default [] (fst <$> @sendInitialData (StoredRooms three_rooms) 1 5000) in
  StronglySorted all_older sent /\
  Forall (fun p : Payload => forall id sr, p !! id = Some sr ->
            ID (Meta sr) = id /\ ts (Meta sr) < 5000 + 3600000) sent.
Proof.
  intros sent.
  apply (@sendInitialData_batches_older (StoredRooms three_rooms)) with (fuel := 1%nat)
    (stop := Completed 3).
  - intros batch maxTS rooms [= <-]. apply GetBySortTS_of_below.
  - vm_compute. reflexivity.
Defined.

Lemma sendInitialData_all_but_oldest_witness :
  exists fuel sent roomCount,
    (fuel <= S (length three_rooms))%nat /\
    @sendInitialData (StoredRooms three_rooms) fuel 5000 = Some (sent, Completed roomCount) /\
    forall r, r ∈ three_rooms ->
      ((exists p evts, p ∈ sent /\ p !! ID r = Some (mkSyncRoom r evts)) <->
       exists r', r' ∈ three_rooms /\ ts r' < ts r).
Proof.
  apply (@sendInitialData_all_but_oldest (StoredRooms three_rooms) three_rooms).
  - intros batch maxTS. reflexivity.
  - intros batch row. eexists. reflexivity.
  - intros payload. reflexivity.
  - intros batch payload. reflexivity.
  - apply (bool_decide_unpack _). vm_compute. exact I.
  - apply (bool_decide_unpack _). vm_compute. exact I.
  - repeat constructor; vm_compute; reflexivity.
Defined.

End BatchSpec.

(** ** Properties of the token, the login handler and the middleware *)

Module LoginSpec.
Import Server Http ServerSpec.

Lemma length_append (s1 s2 : string) :
  String.length (s1 +:+ s2) = (String.length s1 + String.length s2)%nat.
Proof. induction s1 as [|c s1 IH]; simpl; [reflexivity|]. rewrite IH. reflexivity. Qed.

(** The length of unpadded base64: four characters for every three
    bytes, two or three for a rest of one or two bytes. *)
Lemma EncodeToString_length src :
  String.length (EncodeToString src) = ((4 * String.length src + 2) / 3)%nat.
Proof.
  induction src as [|a|a b|a b c rest IH] using string_ind3.
  - reflexivity.
  - destruct a. reflexivity.
  - destruct a, b. reflexivity.
  - destruct a, b, c. cbn [EncodeToString sextets String.length]. rewrite IH.
    replace (4 * S (S (S (String.length rest))) + 2)%nat
      with ((4 * String.length rest + 2) + 4 * 3)%nat by lia.
    rewrite Nat.div_add by lia. lia.
Qed.

Section TokenMore.
Context `{CR : Crypto}.

Lemma generateToken_length cfg now :
  String.length (generateToken cfg now).1 =
    ((4 * String.length (json_Marshal (token_data cfg now)) + 2) / 3 + 1 +
     (4 * String.length
            (hmac_sha256 (cfg_TokenKey cfg) (json_Marshal (token_data cfg now))) + 2) / 3)%nat.
Proof.
  unfold generateToken, token_data. cbn [fst].
  rewrite !length_append, !EncodeToString_length. cbn [String.length]. lia.
Qed.

(** What [validateAuth] under one configuration computes on a token that
    [generateToken] made under another. *)
Lemma validateAuth_generated cfg cfg' now now' :
  validateAuth cfg' now' (generateToken cfg now).1 =
    negb (100 <? String.length (generateToken cfg now).1)%nat &&
    String.eqb (hmac_sha256 (cfg_TokenKey cfg') (json_Marshal (token_data cfg now)))
               (hmac_sha256 (cfg_TokenKey cfg) (json_Marshal (token_data cfg now))) &&
    match json_Unmarshal (json_Marshal (token_data cfg now)) with
    | None => false
    | Some td => String.eqb (Username td) (cfg_Username cfg') && (now' <? Expiry td * second)
    end.
Proof.
  unfold validateAuth.
  destruct (100 <? String.length (generateToken cfg now).1)%nat; [reflexivity|].
  rewrite generateToken_parts, !DecodeString_EncodeToString. cbn [negb andb].
  destruct (String.eqb _ _); reflexivity.
Qed.

(** X14.  The token is good for its whole seconds: a token made at [now] that
    fits into 100 bytes is accepted at [now'] exactly when [now'] is
    before the start of the second in which seven days are over, which is
    less than a second before [now + week]. *)
Theorem validateAuth_window cfg now now' :
  json_Unmarshal (json_Marshal (token_data cfg now)) = Some (token_data cfg now) ->
  (String.length (generateToken cfg now).1 <= 100)%nat ->
  (validateAuth cfg now' (generateToken cfg now).1 = true <->
   now' < (now + week) / second * second) /\
  now + week - second < (now + week) / second * second <= now + week.
Proof.
  intros Hjson Hlen. split.
  - rewrite validateAuth_generated, Hjson. cbn [Username Expiry token_data].
    rewrite !String.eqb_refl.
    destruct (100 <? String.length (generateToken cfg now).1)%nat eqn:Hlong.
    { apply Nat.ltb_lt in Hlong. lia. }
    cbn [negb andb]. apply Z.ltb_lt.
  - unfold second.
    pose proof (Z.div_mod (now + week) 1000000000 ltac:(lia)) as Hdm.
    pose proof (Z.mod_pos_bound (now + week) 1000000000 ltac:(lia)) as Hb.
    lia.
Qed.

(** X15.  With the 32 bytes of an HMAC-SHA256 the token has 44 characters
    besides the encoded JSON, so it fits into the 100 bytes that
    [validateAuth] allows exactly when the JSON has at most 42 bytes; a
    token with longer JSON is rejected at all times. *)
Theorem generateToken_too_long cfg now :
  String.length (hmac_sha256 (cfg_TokenKey cfg) (json_Marshal (token_data cfg now))) = 32%nat ->
  ((String.length (generateToken cfg now).1 <= 100)%nat <->
   (String.length (json_Marshal (token_data cfg now)) <= 42)%nat) /\
  ((42 < String.length (json_Marshal (token_data cfg now)))%nat ->
   forall now', validateAuth cfg now' (generateToken cfg now).1 = false).
Proof.
  intros Hmac.
  assert (Hlen : String.length (generateToken cfg now).1 =
                 ((4 * String.length (json_Marshal (token_data cfg now)) + 2) / 3 + 44)%nat).
  { rewrite generateToken_length, Hmac. change ((4 * 32 + 2) / 3)%nat with 43%nat. lia. }
  set (n := String.length (json_Marshal (token_data cfg now))) in *.
  pose proof (Nat.div_mod (4 * n + 2) 3 ltac:(lia)) as Hdm.
  pose proof (Nat.mod_upper_bound (4 * n + 2) 3 ltac:(lia)) as Hb.
  split.
  - rewrite Hlen. lia.
  - intros Hlong now'. rewrite validateAuth_generated.
    replace (100 <? String.length (generateToken cfg now).1)%nat with true; [reflexivity|].
    symmetry. apply Nat.ltb_lt. rewrite Hlen. lia.
Qed.

(** X16.  A token is bound to the configuration it was made under: after a
    change of the username, or of the token key to one under which the
    HMAC of the signed JSON differs, it is rejected. *)
Theorem validateAuth_other_config cfg cfg' now now' :
  json_Unmarshal (json_Marshal (token_data cfg now)) = Some (token_data cfg now) ->
  cfg_Username cfg' <> cfg_Username cfg \/
  hmac_sha256 (cfg_TokenKey cfg') (json_Marshal (token_data cfg now)) <>
  hmac_sha256 (cfg_TokenKey cfg) (json_Marshal (token_data cfg now)) ->
  validateAuth cfg' now' (generateToken cfg now).1 = false.
Proof.
  intros Hjson Hdiff. rewrite validateAuth_generated, Hjson. cbn [Username token_data].
  destruct Hdiff as [Hname|Hmac].
  - replace (String.eqb (cfg_Username cfg) (cfg_Username cfg')) with false.
    + rewrite andb_false_r. reflexivity.
    + symmetry. apply String.eqb_neq. congruence.
  - apply String.eqb_neq in Hmac. rewrite Hmac, andb_false_r. reflexivity.
Qed.

End TokenMore.

(** The token of [bob] is accepted in the last nanosecond before the
    second of its expiry begins. *)
Lemma validateAuth_window_witness :
  let cfg := mkConfig "bob" "k" in
  let now := 1730000000 * second + 5 in
  @validateAuth ToyCrypto cfg (now + week - 6) (@generateToken ToyCrypto cfg now).1 = true.
Proof.
  intros cfg now.
  apply (@validateAuth_window ToyCrypto cfg now (now + week - 6)).
  - vm_compute. reflexivity.
  - apply Nat.leb_le. vm_compute. reflexivity.
  - vm_compute. reflexivity.
Defined.

(** The token of [alexander] has 44 bytes of JSON. *)
Lemma generateToken_too_long_witness :
  let cfg := mkConfig "alexander" "k" in
  let now := 1730000000 * second + 5 in
  @validateAuth ToyCrypto cfg (now + 10) (@generateToken ToyCrypto cfg now).1 = false.
Proof.
  intros cfg now.
  apply (@generateToken_too_long ToyCrypto cfg now).
  - vm_compute. reflexivity.
  - apply Nat.ltb_lt. vm_compute. reflexivity.
Defined.

(** The token of [bob] after the key was changed from [k] to [q]. *)
Lemma validateAuth_other_config_witness :
  let now := 1730000000 * second + 5 in
  @validateAuth ToyCrypto (mkConfig "bob" "q") (now + 10)
    (@generateToken ToyCrypto (mkConfig "bob" "k") now).1 = false.
Proof.
  intros now.
  apply (@validateAuth_other_config ToyCrypto (mkConfig "bob" "k") (mkConfig "bob" "q")
           now (now + 10)).
  - vm_compute. reflexivity.
  - right. vm_compute. discriminate.
Defined.

Section HandlerProofs.
Context `{CR : Crypto} `{PW : Passwords}.

Lemma Authenticate_cookies gmx now now' r w :
  Cookies_written (Authenticate gmx now now' r w) = Cookies_written w \/
  Cookies_written (Authenticate gmx now now' r w) =
    Cookies_written w ++
      [mkCookie "gomuks_auth" (generateToken (Config_Web gmx) now').1
         (generateToken (Config_Web gmx) now').2 true].
Proof.
  unfold Authenticate, writeTokenCookie.
  destruct (generateToken (Config_Web gmx) now') as [token expiry] eqn:Htok.
  destruct (match Request_Cookie r "gomuks_auth" with Some _ => _ | None => _ end).
  { right. reflexivity. }
  destruct (BasicAuth r) as [[username password]|]; [|left; reflexivity].
  destruct (_ && _); [right|left]; reflexivity.
Qed.

(** X17.  Every cookie that [Authenticate] sets is named [gomuks_auth], is
    [HttpOnly] and expires seven days after it was made; if its token
    fits into 100 bytes, a request that brings it back with
    [Sec-Fetch-Site: same-origin], or as a navigation by the user, passes
    [AuthMiddleware] on every path until the second of the expiry
    begins. *)
Theorem Authenticate_cookie_passes gmx now now' r c later r' :
  json_Unmarshal (json_Marshal (token_data (Config_Web gmx) now')) =
    Some (token_data (Config_Web gmx) now') ->
  c ∈ Cookies_written (Authenticate gmx now now' r empty_response) ->
  (String.length (Value c) <= 100)%nat ->
  Request_Cookie r' "gomuks_auth" = Some (Value c) ->
  Header_Get (Header r') "Sec-Fetch-Site" = "same-origin" \/ isUserFetch (Header r') = true ->
  later < (now' + week) / second * second ->
  Name c = "gomuks_auth" /\ HttpOnly c = true /\ Expires c = now' + week /\
  AuthMiddleware gmx later r' = ServeNext.
Proof.
  intros Hjson Hc Hlen Hcookie Hfetch Hlater.
  destruct (Authenticate_cookies gmx now now' r empty_response) as [Heq|Heq];
    rewrite Heq in Hc; cbn [Cookies_written empty_response app] in Hc.
  { apply elem_of_nil in Hc. contradiction. }
  apply list_elem_of_singleton in Hc. subst c. cbn [Name HttpOnly Expires Value] in *.
  split; [reflexivity|]. split; [reflexivity|]. split; [reflexivity|].
  unfold AuthMiddleware.
  replace (negb (String.eqb (Header_Get (Header r') "Sec-Fetch-Site") "same-origin") &&
           negb (isUserFetch (Header r'))) with false.
  2:{ destruct Hfetch as [-> | ->]; [reflexivity|]. rewrite andb_false_r. reflexivity. }
  destruct (negb (String.eqb (URL_Path r') "/auth")); [|reflexivity].
  rewrite Hcookie, validateAuth_generated, Hjson.
  cbn [Username Expiry token_data]. rewrite !String.eqb_refl.
  replace (100 <? String.length (generateToken (Config_Web gmx) now').1)%nat with false.
  2:{ symmetry. apply Nat.ltb_ge. exact Hlen. }
  replace (later <? (now' + week) / second * second) with true; [reflexivity|].
  symmetry. apply Z.ltb_lt. exact Hlater.
Qed.

(** X18.  A user whose marshalled [tokenData] is longer than 42 bytes is
    locked out: the right user name and password get status 201 and a
    cookie, but [AuthMiddleware] answers every request that brings this
    cookie to a path other than [/auth] with [ErrInvalidCookie], at all
    times. *)
Theorem Authenticate_long_username_locked_out gmx now now' r password later r' :
  String.length (hmac_sha256 (cfg_TokenKey (Config_Web gmx))
                   (json_Marshal (token_data (Config_Web gmx) now'))) = 32%nat ->
  (42 < String.length (json_Marshal (token_data (Config_Web gmx) now')))%nat ->
  Request_Cookie r "gomuks_auth" = None ->
  BasicAuth r = Some (cfg_Username (Config_Web gmx), password) ->
  bcrypt_CompareHashAndPassword (PasswordHash gmx) password = true ->
  Request_Cookie r' "gomuks_auth" = Some (generateToken (Config_Web gmx) now').1 ->
  Header_Get (Header r') "Sec-Fetch-Site" = "same-origin" \/ isUserFetch (Header r') = true ->
  URL_Path r' <> "/auth" ->
  Authenticate gmx now now' r empty_response =
    mkResponseWriter (Some StatusCreated) ∅
      [mkCookie "gomuks_auth" (generateToken (Config_Web gmx) now').1 (now' + week) true] /\
  AuthMiddleware gmx later r' = WriteError ErrInvalidCookie.
Proof.
  intros Hmac Hlong Hnocookie Hbasic Hpw Hcookie Hfetch Hpath. split.
  - unfold Authenticate, writeTokenCookie. rewrite Hnocookie, Hbasic, Hpw.
    rewrite String.eqb_refl. reflexivity.
  - unfold AuthMiddleware.
    replace (negb (String.eqb (Header_Get (Header r') "Sec-Fetch-Site") "same-origin") &&
             negb (isUserFetch (Header r'))) with false.
    2:{ destruct Hfetch as [-> | ->]; [reflexivity|]. rewrite andb_false_r. reflexivity. }
    apply String.eqb_neq in Hpath. rewrite Hpath. cbn [negb]. rewrite Hcookie.
    rewrite validateAuth_generated.
    replace (100 <? String.length (generateToken (Config_Web gmx) now').1)%nat with true;
      [reflexivity|].
    symmetry. apply Nat.ltb_lt. rewrite generateToken_length, Hmac.
    set (n := String.length (json_Marshal (token_data (Config_Web gmx) now'))) in *.
    pose proof (Nat.div_mod (4 * n + 2) 3 ltac:(lia)) as Hdm.
    pose proof (Nat.mod_upper_bound (4 * n + 2) 3 ltac:(lia)) as Hb.
    change ((4 * 32 + 2) / 3)%nat with 43%nat. lia.
Qed.


(** What [validateAuth] has checked when it accepts a token. *)
Lemma validateAuth_true cfg now token :
  validateAuth cfg now token = true ->
  (String.length token <= 100)%nat /\
  exists part0 part1 rawJSON td,
    Split token "."%char = [part0; part1] /\
    DecodeString part0 = Some rawJSON /\
    DecodeString part1 = Some (hmac_sha256 (cfg_TokenKey cfg) rawJSON) /\
    json_Unmarshal rawJSON = Some td /\
    Username td = cfg_Username cfg /\ now < Expiry td * second.
Proof.
  unfold validateAuth.
  destruct (100 <? String.length token)%nat eqn:Hlen; [discriminate|].
  apply Nat.ltb_ge in Hlen.
  destruct (Split token ".") as [|part0 [|part1 [|part2 rest]]] eqn:Hsplit; try discriminate.
  destruct (DecodeString part0) as [rawJSON|] eqn:H0; [|discriminate].
  destruct (DecodeString part1) as [checksum|] eqn:H1; [|discriminate].
  destruct (String.eqb _ checksum) eqn:Hmac; [|discriminate]. cbn [negb].
  apply String.eqb_eq in Hmac. subst checksum.
  destruct (json_Unmarshal rawJSON) as [td|] eqn:Hjson; [|discriminate].
  intros Hok. apply andb_true_iff in Hok as [Hname Htime].
  apply String.eqb_eq in Hname. apply Z.ltb_lt in Htime.
  split; [exact Hlen|]. exists part0, part1, rawJSON, td. repeat split; auto.
Qed.

(** X19.  Whatever [AuthMiddleware] lets through to the next handler on a
    path other than [/auth] carries, in the [gomuks_auth] cookie, a token
    of at most 100 bytes with two base64url parts: the second is the HMAC
    of the first under the configured key, and the first is JSON for the
    configured user with an expiry in the future.  The request also says
    [Sec-Fetch-Site: same-origin] or is a navigation by the user. *)
Theorem AuthMiddleware_sound gmx now r :
  AuthMiddleware gmx now r = ServeNext ->
  URL_Path r <> "/auth" ->
  (Header_Get (Header r) "Sec-Fetch-Site" = "same-origin" \/ isUserFetch (Header r) = true) /\
  exists token part0 part1 rawJSON td,
    Request_Cookie r "gomuks_auth" = Some token /\
    (String.length token <= 100)%nat /\
    Split token "."%char = [part0; part1] /\
    DecodeString part0 = Some rawJSON /\
    DecodeString part1 = Some (hmac_sha256 (cfg_TokenKey (Config_Web gmx)) rawJSON) /\
    json_Unmarshal rawJSON = Some td /\
    Username td = cfg_Username (Config_Web gmx) /\ now < Expiry td * second.
Proof.
  unfold AuthMiddleware. intros Hnext Hpath.
  destruct (String.eqb (Header_Get (Header r) "Sec-Fetch-Site") "same-origin") eqn:Hsite;
    destruct (isUserFetch (Header r)) eqn:Hfetch; cbn [negb andb] in Hnext;
    try discriminate.
  all: apply String.eqb_neq in Hpath; rewrite Hpath in Hnext; cbn [negb] in Hnext.
  all: destruct (Request_Cookie r "gomuks_auth") as [token|]; [|discriminate].
  all: destruct (validateAuth (Config_Web gmx) now token) eqn:Hvalid; [|discriminate].
  all: apply validateAuth_true in Hvalid
         as (Hlen & part0 & part1 & rawJSON & td & Hsplit & H0 & H1 & Hjson & Hname & Htime).
  all: split; [|exists token, part0, part1, rawJSON, td; repeat split; auto].
  - left. apply String.eqb_eq, Hsite.
  - left. apply String.eqb_eq, Hsite.
  - right. reflexivity.
Qed.

End HandlerProofs.

(** [bob] logs in with his password and opens the websocket ten
    nanoseconds later. *)
Lemma Authenticate_cookie_passes_witness :
  let gmx := mkGomuks (mkConfig "bob" "k") "secret" in
  let now := 1730000000 * second + 5 in
  let login := mkRequest ∅ "/auth" ∅ (Some ("bob", "secret")) in
  let c := mkCookie "gomuks_auth" (@generateToken ToyCrypto (Config_Web gmx) now).1
             (now + week) true in
  let r' := mkRequest {["Sec-Fetch-Site" := "same-origin"]} "/websocket"
              {["gomuks_auth" := Value c]} None in
  Name c = "gomuks_auth" /\ HttpOnly c = true /\ Expires c = now + week /\
  @AuthMiddleware ToyCrypto gmx (now + 10) r' = ServeNext.
Proof.
  intros gmx now login c r'.
  apply (@Authenticate_cookie_passes ToyCrypto ToyPasswords gmx now now login c
           (now + 10) r').
  - vm_compute. reflexivity.
  - replace (Cookies_written (Authenticate gmx now now login empty_response)) with [c]
      by (vm_compute; reflexivity).
    apply list_elem_of_singleton. reflexivity.
  - apply Nat.leb_le. vm_compute. reflexivity.
  - vm_compute. reflexivity.
  - left. vm_compute. reflexivity.
  - vm_compute. reflexivity.
Defined.

(** [alexander] logs in with his password and opens the websocket. *)
Lemma Authenticate_long_username_locked_out_witness :
  let gmx := mkGomuks (mkConfig "alexander" "k") "secret" in
  let now := 1730000000 * second + 5 in
  let login := mkRequest ∅ "/auth" ∅ (Some ("alexander", "secret")) in
  let token := (@generateToken ToyCrypto (Config_Web gmx) now).1 in
  let r' := mkRequest {["Sec-Fetch-Site" := "same-origin"]} "/websocket"
              {["gomuks_auth" := token]} None in
  @Authenticate ToyCrypto ToyPasswords gmx now now login empty_response =
    mkResponseWriter (Some StatusCreated) ∅ [mkCookie "gomuks_auth" token (now + week) true] /\
  @AuthMiddleware ToyCrypto gmx (now + 10) r' = WriteError ErrInvalidCookie.
Proof.
  intros gmx now login token r'.
  apply (@Authenticate_long_username_locked_out ToyCrypto ToyPasswords gmx now now
           login "secret" (now + 10) r').
  - vm_compute. reflexivity.
  - apply Nat.ltb_lt. vm_compute. reflexivity.
  - vm_compute. reflexivity.
  - vm_compute. reflexivity.
  - vm_compute. reflexivity.
  - vm_compute. reflexivity.
  - left. vm_compute. reflexivity.
  - vm_compute. discriminate.
Defined.

(** [bob] opens the websocket with the cookie of his login. *)
Lemma AuthMiddleware_sound_witness :
  let gmx := mkGomuks (mkConfig "bob" "k") "secret" in
  let now := 1730000000 * second + 5 in
  let token := (@generateToken ToyCrypto (Config_Web gmx) now).1 in
  let r := mkRequest {["Sec-Fetch-Site" := "same-origin"]} "/websocket"
             {["gomuks_auth" := token]} None in
  (Header_Get (Header r) "Sec-Fetch-Site" = "same-origin" \/ isUserFetch (Header r) = true) /\
  exists token part0 part1 rawJSON td,
    Request_Cookie r "gomuks_auth" = Some token /\
    (String.length token <= 100)%nat /\
    Split token "."%char = [part0; part1] /\
    DecodeString part0 = Some rawJSON /\
    DecodeString part1 =
      Some (@hmac_sha256 ToyCrypto (cfg_TokenKey (Config_Web gmx)) rawJSON) /\
    @json_Unmarshal ToyCrypto rawJSON = Some td /\
    Username td = cfg_Username (Config_Web gmx) /\ now + 10 < Expiry td * second.
Proof.
  intros gmx now token r.
  apply (@AuthMiddleware_sound ToyCrypto gmx (now + 10) r).
  - vm_compute. reflexivity.
  - vm_compute. discriminate.
Defined.

End LoginSpec.

(** ** Properties of [processGetRoomState] and [GetRoomState] *)

Module StateSpec.
Import Hicli HicliState ListFacts.

Section StateProofs.
Context `{SE : StateEnv}.

Lemma state_entry_Some evt entry media :
  state_entry evt = Some (entry, media) ->
  exists key, StateKey evt = Some key /\
    entry = mkCurrentStateEntry (Type_ evt) key 0 (membership_of evt).
Proof.
  unfold state_entry, membership_of. destruct (StateKey evt) as [key|]; [|discriminate].
  destruct (decide (Type_ evt = StateMember)).
  - destruct (Raw_membership evt); [|discriminate]. intros [= <- _]. eauto.
  - destruct (decide (Type_ evt = StateRoomAvatar)); intros [= <- _]; eauto.
Qed.

(** The first loop panics exactly on an event without a state key and
    on a member event whose membership is not a string. *)
Lemma state_entry_None evt :
  state_entry evt = None <->
  StateKey evt = None \/ (Type_ evt = StateMember /\ Raw_membership evt = None).
Proof.
  unfold state_entry. destruct (StateKey evt) as [key|]; [|split; auto].
  destruct (decide (Type_ evt = StateMember)) as [Hm|Hm].
  - destruct (Raw_membership evt); split; try discriminate; auto.
    intros [H|[_ H]]; discriminate.
  - destruct (decide (Type_ evt = StateRoomAvatar)); split; try discriminate;
      intros [H|[H _]]; try discriminate; contradiction.
Qed.

Lemma build_arrays_None evts :
  build_arrays evts = None <->
  exists evt, evt ∈ evts /\
    (StateKey evt = None \/ (Type_ evt = StateMember /\ Raw_membership evt = None)).
Proof.
  induction evts as [|evt rest IH]; simpl.
  - split; [discriminate|]. intros (evt & Hin & _). inversion Hin.
  - destruct (state_entry evt) as [[entry media]|] eqn:Hentry.
    + destruct (build_arrays rest) as [a|].
      * split; [discriminate|]. intros (evt' & Hin & Hbad).
        apply elem_of_cons in Hin as [->|Hin].
        -- apply state_entry_None in Hbad. congruence.
        -- assert (Hno : Some a = None) by (apply IH; eauto). discriminate.
      * split; [|reflexivity]. intros _.
        destruct IH as [IH _]. destruct (IH eq_refl) as (evt' & Hin & Hbad).
        exists evt'. split; [right; exact Hin | exact Hbad].
    + split; [|reflexivity]. intros _. exists evt. split; [left|].
      apply state_entry_None, Hentry.
Qed.


Lemma build_arrays_Some evts : forall a,
  build_arrays evts = Some a ->
  dbEvts a = MautrixToEvent <$> evts /\
  length (currentStateEntries a) = length evts /\
  length (mediaReferenceEntries a) = length evts /\
  forall i, mediaCacheEntries a = (media_of i evts).*2.
Proof.
  induction evts as [|evt rest IH]; simpl; intros a.
  - intros [= <-]. auto.
  - destruct (state_entry evt) as [[entry media]|]; [|discriminate].
    destruct (build_arrays rest) as [a0|]; [|discriminate].
    destruct (IH a0 eq_refl) as (Hdb & Hlen & Hlen' & Hcache).
    intros [= <-]. cbn [dbEvts currentStateEntries mediaReferenceEntries mediaCacheEntries].
    rewrite Hdb. simpl. repeat split; auto.
    intros i. destruct media; simpl; rewrite (Hcache (S i)); reflexivity.
Qed.

(** The second loop on the arrays of the first: every entry gets the
    row of its event, and so does every reference, which keeps its place
    among the references when the nil holes are deleted. *)
Lemma assign_rows_spec rows room evts : forall i a updated entries refs updated',
  build_arrays evts = Some a ->
  assign_rows rows i evts (currentStateEntries a) (mediaReferenceEntries a) room updated =
    (entries, refs, updated') ->
  omap id refs = (fun p => mkMediaReference (rows p.1) p.2) <$> media_of i evts /\
  length entries = length evts /\
  (forall j evt, evts !! j = Some evt ->
     exists key, StateKey evt = Some key /\
       entries !! j = Some (mkCurrentStateEntry (Type_ evt) key (rows (i + j)%nat)
                                                (membership_of evt))) /\
  updated' = important_events evts room updated.
Proof.
  induction evts as [|evt rest IH]; simpl; intros i a updated entries refs updated'.
  - intros [= <-]. simpl. intros [= <- <- <-]. repeat split; auto.
    intros j evt Hj. discriminate.
  - destruct (state_entry evt) as [[entry media]|] eqn:Hentry; [|discriminate].
    destruct (build_arrays rest) as [a0|] eqn:Hrest; [|discriminate].
    intros [= <-]. cbn [currentStateEntries mediaReferenceEntries assign_rows].
    destruct (assign_rows rows (S i) rest _ _ room _) as [[entries0 refs0] updated0] eqn:Hrun.
    destruct (IH _ _ _ _ _ _ eq_refl Hrun) as (Hrefs & Hlen & Hent & Hupd).
    intros [= <- <- <-]. unfold important_events in *. cbn [foldl].
    apply state_entry_Some in Hentry as Hkey. destruct Hkey as (key & Hkey & ->).
    split; [|split; [|split]].
    + destruct media as [mxc|]; simpl; [f_equal|]; exact Hrefs.
    + simpl. rewrite Hlen. reflexivity.
    + intros [|j] evt' Hj; simpl in Hj.
      * injection Hj as <-. exists key. split; [exact Hkey|]. simpl.
        rewrite Nat.add_0_r. reflexivity.
      * destruct (Hent j evt' Hj) as (key' & Hkey' & Hlook). exists key'.
        split; [exact Hkey'|]. simpl. rewrite Hlook. do 3 f_equal. lia.
    + exact Hupd.
Qed.

Lemma dispatched_app l1 l2 : dispatched (l1 ++ l2) = dispatched l1 ++ dispatched l2.
Proof. induction l1 as [|[] l1 IH]; simpl; auto. f_equal. auto. Qed.

Lemma state_closure_cases roomID refetch dispatchEvt evts a d lg r d' lg' :
  build_arrays evts = Some a ->
  state_closure roomID refetch dispatchEvt evts a d lg = (r, d', lg') ->
  exists new, lg' = lg ++ new /\ closure_end roomID refetch dispatchEvt evts d r new.
Proof.
  intros Hbuild. unfold state_closure.
  destruct (build_arrays_Some _ _ Hbuild) as (Hdb & _ & _ & Hcache).
  rewrite Hdb, (Hcache 0%nat).
  destruct (State_Room_Get d roomID) as [[room|]|e] eqn:Hroom.
  2:{ intros [= <- <- <-]. exists []. rewrite app_nil_r. split; [reflexivity|].
      apply end_no_room; eauto. }
  2:{ intros [= <- <- <-]. exists []. rewrite app_nil_r. split; [reflexivity|].
      apply end_no_room; eauto. }
  destruct (Event_MassUpsertState d _) as [[rows d1]|e] eqn:Hupsert.
  2:{ intros [= <- <- <-]. eexists. split; [reflexivity|]. apply end_upsert_failed; eauto. }
  destruct (assign_rows rows 0 evts _ _ room _) as [[entries refs] updated] eqn:Hassign.
  destruct (assign_rows_spec _ _ _ _ _ _ _ _ _ Hbuild Hassign) as (Hrefs & Hlen & Hent & Hupd).
  rewrite Hrefs. subst updated.
  set (updated := important_events evts room (Room_with_member_list (Room_ID room))).
  destruct (Media_AddMany d1 _) as [d2|e].
  2:{ intros [= <- <- <-]. eexists. rewrite <- !app_assoc. split; [reflexivity|].
      eapply (end_saving _ _ _ _ _ _ _ room rows d1 entries 0); eauto. }
  destruct (Media_AddManyReferences d2 _) as [d3|e].
  2:{ intros [= <- <- <-]. eexists. rewrite <- !app_assoc. split; [reflexivity|].
      eapply (end_saving _ _ _ _ _ _ _ room rows d1 entries 1); eauto. }
  destruct (CurrentState_AddMany d3 _ _ _) as [d4|e].
  2:{ intros [= <- <- <-]. eexists. rewrite <- !app_assoc. split; [reflexivity|].
      eapply (end_saving _ _ _ _ _ _ _ room rows d1 entries 2); eauto. }
  destruct (CheckChangesAndCopyInto updated room) as [roomChanged room'] eqn:Hcheck.
  assert (Hdone : forall tail,
            tail = (if roomChanged
                    then ERoomUpsert updated ::
                         (if dispatchEvt then [EEventHandler roomID room'] else [])
                    else []) ->
            closure_end roomID refetch dispatchEvt evts d (Done tt)
              ([EMassUpsertState (MautrixToEvent <$> evts);
                EMediaAddMany (media_of 0 evts).*2;
                EMediaAddManyReferences
                  ((fun p => mkMediaReference (rows p.1) p.2) <$> media_of 0 evts);
                ECurrentStateAddMany (Room_ID room) refetch entries] ++ tail)).
  { intros tail Htail. eapply (end_done _ _ _ _ _ _ _ room rows d1 entries tail);
      [exact Hroom | exact Hupsert | reflexivity | reflexivity | exact Hlen | |].
    - intros j evt Hj. exact (Hent j evt Hj).
    - cbv zeta. fold updated. rewrite Hcheck. exact Htail. }
  destruct roomChanged.
  - destruct (Room_Upsert d4 updated) as [d5|e].
    2:{ intros [= <- <- <-]. eexists. rewrite <- !app_assoc. split; [reflexivity|].
        eapply (end_saving _ _ _ _ _ _ _ room rows d1 entries 3); eauto. }
    destruct dispatchEvt; intros [= <- <- <-]; eexists; rewrite <- !app_assoc;
      (split; [reflexivity|]); apply (Hdone _ eq_refl).
  - intros [= <- <- <-]. eexists. rewrite <- !app_assoc. split; [reflexivity|].
    simpl. rewrite <- (app_nil_r [_; _; _; _]). apply (Hdone _ eq_refl).
Qed.

Lemma state_DoTxn_cases body d lg r d' lg' :
  state_DoTxn body d lg = (r, d', lg') ->
  ((exists e, r = Fail e) /\ d' = d /\ lg' = lg) \/
  exists r0 d0,
    body d lg = (r0, d0, lg') /\
    ((r0 = Done tt /\ r = Done tt /\ d' = d0) \/
     (r0 = Done tt /\ (exists e, r = Fail e) /\ d' = d) \/
     (r0 <> Done tt /\ r = r0 /\ d' = d)).
Proof.
  unfold state_DoTxn. destruct (State_Txn_Begin d) as [e|]; [intros [= <- <- <-]; eauto|].
  destruct (body d lg) as [[r0 d0] lg0]. destruct r0 as [[]| |].
  - destruct (State_Txn_Commit d0) as [e|]; intros [= <- <- <-]; right; exists (Done tt), d0;
      (split; [reflexivity|]); eauto 6.
  - intros [= <- <- <-]. right. eexists _, d0. split; [reflexivity|].
    right. right. repeat split; auto; discriminate.
  - intros [= <- <- <-]. right. eexists _, d0. split; [reflexivity|].
    right. right. repeat split; auto; discriminate.
Qed.

Lemma fetch_state_log roomID fetchMembers refetch lg fetched lg' :
  fetch_state roomID fetchMembers refetch lg = (fetched, lg') ->
  exists new, lg' = lg ++ new /\ dispatched new = [] /\
    (fetchMembers = false -> refetch = false -> fetched = Ok None /\ new = []).
Proof.
  unfold fetch_state. destruct refetch.
  - destruct (Client_StateAsArray roomID); intros [= <- <-]; eexists;
      (split; [reflexivity|]); split; try reflexivity; discriminate.
  - destruct fetchMembers.
    + destruct (Client_Members roomID); intros [= <- <-]; eexists;
        (split; [reflexivity|]); split; try reflexivity; discriminate.
    + intros [= <- <-]. exists []. rewrite app_nil_r. auto.
Qed.

(** X20.  When [processGetRoomState] has fetched events and returns nil,
    it has saved, in this order: the events (converted one by one); the
    media of the events that have a valid one, in the order of the events;
    the media references, which are these same media, each with the row
    ID of its own event; and one current state entry per event, with the
    event's type, state key and row ID, and the membership for member
    events.  After that it upserts the room if it changed, and calls the
    event handler if it was asked to. *)
Theorem processGetRoomState_saved roomID fetchMembers refetch dispatchEvt w w' evts lg0 :
  fetch_state roomID fetchMembers refetch (slog w) = (Ok (Some evts), lg0) ->
  processGetRoomState roomID fetchMembers refetch dispatchEvt w = (Returned None, w') ->
  exists room rows d1 entries,
    State_Room_Get (sdb w) roomID = Ok (Some room) /\
    Event_MassUpsertState (sdb w) (MautrixToEvent <$> evts) = Ok (rows, d1) /\
    let updated := important_events evts room (Room_with_member_list (Room_ID room)) in
    let changed := CheckChangesAndCopyInto updated room in
    slog w' = lg0 ++
      [EMassUpsertState (MautrixToEvent <$> evts);
       EMediaAddMany (media_of 0 evts).*2;
       EMediaAddManyReferences
         ((fun p => mkMediaReference (rows p.1) p.2) <$> media_of 0 evts);
       ECurrentStateAddMany (Room_ID room) refetch entries] ++
      (if changed.1
       then ERoomUpsert updated ::
            (if dispatchEvt then [EEventHandler roomID changed.2] else [])
       else []) /\
    length entries = length evts /\
    forall j evt, evts !! j = Some evt ->
      exists key, StateKey evt = Some key /\
        entries !! j = Some (mkCurrentStateEntry (Type_ evt) key (rows j) (membership_of evt)).
Proof.
  intros Hfetch. unfold processGetRoomState. rewrite Hfetch.
  destruct (build_arrays evts) as [a|] eqn:Hbuild; [|discriminate].
  destruct (state_DoTxn _ _ _) as [[r d] lg] eqn:Htxn.
  destruct r as [[]| |]; try discriminate. intros [= <-]. cbn [slog].
  apply state_DoTxn_cases in Htxn
    as [([e He] & _)|(r0 & d0 & Hrun & [(-> & _)|[(_ & [e He] & _)|(Hno & <- & _)]])];
    try discriminate; [|congruence].
  apply (state_closure_cases _ _ _ _ _ _ _ _ _ _ Hbuild) in Hrun as (new & -> & Hend).
  destruct Hend as [[[e He]|[s Hs]] _|room rows d1 entries stage _ _ [e He] _|[e He] _
                    |room rows d1 entries tail Hroom Hupsert _ -> Hlen Hent Htail];
    try discriminate.
  exists room, rows, d1, entries. cbv zeta in *. rewrite <- Htail. auto.
Qed.

(** X21.  The event handler is called at most once in a run of
    [processGetRoomState], only when the caller asked for it, and after
    everything was saved and the room was upserted: it is the last call of
    the run.  But it is called inside the transaction: when the run then
    returns an error (the commit has failed), the database is as it was
    before, and the handler has been told of a change that was rolled
    back. *)
Theorem processGetRoomState_dispatch roomID fetchMembers refetch dispatchEvt w c w' :
  processGetRoomState roomID fetchMembers refetch dispatchEvt w = (c, w') ->
  exists new,
    slog w' = slog w ++ new /\
    (length (dispatched new) <= 1)%nat /\
    forall id meta, (id, meta) ∈ dispatched new ->
      dispatchEvt = true /\ id = roomID /\
      (exists pre updated, new = pre ++ [ERoomUpsert updated; EEventHandler id meta]) /\
      (c = Returned None \/ exists e, c = Returned (Some e) /\ sdb w' = sdb w).
Proof.
  unfold processGetRoomState.
  destruct (fetch_state _ _ _ _) as [fetched lg0] eqn:Hfetch.
  apply fetch_state_log in Hfetch as (net & -> & Hnet & _).
  assert (Hquiet : forall c0 d0, (c0, mkStateWorld d0 (slog w ++ net)) = (c, w') ->
            exists new, slog w' = slog w ++ new /\ (length (dispatched new) <= 1)%nat /\
              forall id meta, (id, meta) ∈ dispatched new ->
                dispatchEvt = true /\ id = roomID /\
                (exists pre updated, new = pre ++ [ERoomUpsert updated; EEventHandler id meta]) /\
                (c = Returned None \/ exists e, c = Returned (Some e) /\ sdb w' = sdb w)).
  { intros c0 d0 [= <- <-]. exists net. cbn [slog]. rewrite Hnet. split; [reflexivity|].
    split; [simpl; lia|]. intros id meta Hin. inversion Hin. }
  destruct fetched as [[evts|]|e]; [|apply Hquiet|apply Hquiet].
  destruct (build_arrays evts) as [a|] eqn:Hbuild; [|apply Hquiet].
  destruct (state_DoTxn _ _ _) as [[r d] lg] eqn:Htxn.
  apply state_DoTxn_cases in Htxn as [([e ->] & -> & ->)|(r0 & d0 & Hrun & Hcommit)];
    [apply Hquiet|].
  apply (state_closure_cases _ _ _ _ _ _ _ _ _ _ Hbuild) in Hrun as (new & -> & Hend).
  intros [= <- <-]. cbn [slog sdb]. exists (net ++ new). rewrite app_assoc.
  split; [reflexivity|]. rewrite dispatched_app, Hnet. cbn [app].
  destruct Hend as [_ ->|room rows d1 entries stage _ _ _ ->|_ ->
                    |room rows d1 entries tail _ _ Hr0 -> _ _ Htail].
  - split; [simpl; lia|]. intros id meta Hin. inversion Hin.
  - assert (Hnone : dispatched
              (EMassUpsertState (MautrixToEvent <$> evts) ::
               take (S stage)
                 [EMediaAddMany (media_of 0 evts).*2;
                  EMediaAddManyReferences
                    ((fun p => mkMediaReference (rows p.1) p.2) <$> media_of 0 evts);
                  ECurrentStateAddMany (Room_ID room) refetch entries;
                  ERoomUpsert (important_events evts room
                                 (Room_with_member_list (Room_ID room)))]) = []).
    { destruct stage as [|[|[|[|stage]]]]; reflexivity. }
    rewrite Hnone. split; [simpl; lia|]. intros id meta Hin. inversion Hin.
  - split; [simpl; lia|]. intros id meta Hin. inversion Hin.
  - cbv zeta in Htail. subst tail.
    destruct (CheckChangesAndCopyInto _ room) as [roomChanged room']. cbn [fst snd].
    destruct roomChanged; [|split; [simpl; lia|]; intros id meta Hin; inversion Hin].
    destruct dispatchEvt; [|split; [simpl; lia|]; intros id meta Hin; inversion Hin].
    split; [simpl; lia|]. intros id meta Hin. simpl in Hin.
    apply list_elem_of_singleton in Hin. injection Hin as -> ->.
    split; [reflexivity|]. split; [reflexivity|]. split.
    + eexists (net ++ [_; _; _; _]), _. rewrite <- !app_assoc. reflexivity.
    + destruct Hcommit as [(_ & -> & _)|[(_ & [e ->] & ->)|(Hno & _)]];
        [left; reflexivity|right; exists e; split; reflexivity|contradiction].
Qed.

(** X22.  Whenever [processGetRoomState] returns an error or panics, the
    database is as it was before the call.  It panics only after the
    events were fetched: when one of them has no state key or is a member
    event whose membership is not a string (then nothing was saved), or
    when [Room.Get] answers with neither a room nor an error.  With
    neither [fetchMembers] nor [refetch] it does nothing at all. *)
Theorem processGetRoomState_failure roomID fetchMembers refetch dispatchEvt w c w' :
  processGetRoomState roomID fetchMembers refetch dispatchEvt w = (c, w') ->
  (c <> Returned None -> sdb w' = sdb w) /\
  (forall s, c = Panicked s ->
     exists evts lg0,
       fetch_state roomID fetchMembers refetch (slog w) = (Ok (Some evts), lg0) /\
       ((exists evt, evt ∈ evts /\
           (StateKey evt = None \/ (Type_ evt = StateMember /\ Raw_membership evt = None))) /\
        slog w' = lg0 \/
        State_Room_Get (sdb w) roomID = Ok None)) /\
  (fetchMembers = false -> refetch = false -> c = Returned None /\ w' = w).
Proof.
  unfold processGetRoomState.
  destruct (fetch_state _ _ _ _) as [fetched lg0] eqn:Hfetch.
  pose proof (fetch_state_log _ _ _ _ _ _ Hfetch) as (net & -> & _ & Hnone).
  destruct fetched as [[evts|]|e].
  - destruct (build_arrays evts) as [a|] eqn:Hbuild.
    + destruct (state_DoTxn _ _ _) as [[r d] lg] eqn:Htxn. intros [= <- <-]. cbn [sdb slog].
      split; [|split].
      * intros Hfail.
        apply state_DoTxn_cases in Htxn
          as [(_ & -> & _)|(r0 & d0 & _ & [(_ & -> & _)|[(_ & _ & ->)|(_ & _ & ->)]])];
          try reflexivity. contradiction.
      * intros s Hs. exists evts, (slog w ++ net). split; [reflexivity|]. right.
        destruct r as [[]| |s']; try discriminate.
        apply state_DoTxn_cases in Htxn
          as [([e He] & _)|(r0 & d0 & Hrun & [(_ & He & _)|[(_ & [e He] & _)|(_ & <- & _)]])];
          try discriminate.
        unfold state_closure in Hrun.
        destruct (State_Room_Get (sdb w) roomID) as [[room|]|e]; [|reflexivity|discriminate].
        exfalso. revert Hrun.
        destruct (Event_MassUpsertState _ _) as [[rows d1]|e]; [|discriminate].
        destruct (assign_rows _ _ _ _ _ _ _) as [[entries refs] updated].
        destruct (Media_AddMany _ _); [|discriminate].
        destruct (Media_AddManyReferences _ _); [|discriminate].
        destruct (CurrentState_AddMany _ _ _ _); [|discriminate].
        destruct (CheckChangesAndCopyInto _ _) as [[] room']; [|discriminate].
        destruct (Room_Upsert _ _); [|discriminate].
        destruct dispatchEvt; discriminate.
      * intros -> ->. destruct (Hnone eq_refl eq_refl). discriminate.
    + intros [= <- <-]. cbn [sdb slog]. split; [auto|]. split.
      * intros s _. exists evts, (slog w ++ net). split; [reflexivity|]. left.
        split; [|reflexivity]. apply build_arrays_None, Hbuild.
      * intros -> ->. destruct (Hnone eq_refl eq_refl). discriminate.
  - intros [= <- <-]. cbn [sdb slog]. split; [auto|]. split; [discriminate|].
    intros -> ->. destruct (Hnone eq_refl eq_refl) as [_ ->]. rewrite app_nil_r.
    split; [reflexivity|]. destruct w. reflexivity.
  - intros [= <- <-]. cbn [sdb slog]. split; [auto|]. split; [discriminate|].
    intros -> ->. destruct (Hnone eq_refl eq_refl). discriminate.
Qed.

(** X23.  [GetRoomState] itself never calls the event handler.  Without
    the members it makes no network request and writes nothing: it
    answers with what the store has now, and starts the refresh in the
    background if one was asked for.  With the members, and a refresh
    asked for, an answer without error is read from the store after the
    refresh; when the refresh fails or panics the store is as before. *)
Theorem GetRoomState_reads roomID includeMembers fetchMembers refetch w c w' :
  GetRoomState roomID includeMembers fetchMembers refetch w = (c, w') ->
  exists new,
    slog w' = slog w ++ new /\ dispatched new = [] /\
    (includeMembers = false ->
       sdb w' = sdb w /\
       c = Returned (CurrentState_GetAllExceptMembers (sdb w) roomID) /\
       new = if fetchMembers || refetch
             then [EBackground roomID fetchMembers refetch true] else []) /\
    (includeMembers = true ->
       (forall evts, c = Returned (Ok evts) -> CurrentState_GetAll (sdb w') roomID = Ok evts) /\
       (c <> Returned (CurrentState_GetAll (sdb w') roomID) -> sdb w' = sdb w)).
Proof.
  unfold GetRoomState. destruct (fetchMembers || refetch) eqn:Hrefresh.
  - destruct includeMembers; cbn [negb].
    + destruct (processGetRoomState _ _ _ _ _) as [c0 w0] eqn:Hrun.
      destruct (processGetRoomState_dispatch _ _ _ _ _ _ _ Hrun) as (new & Hlog & _ & Hdisp).
      destruct (processGetRoomState_failure _ _ _ _ _ _ _ Hrun) as (Hdb & _ & _).
      assert (Hnil : dispatched new = []).
      { destruct (dispatched new) as [|[id meta] l] eqn:Hd; [reflexivity|].
        destruct (Hdisp id meta) as [Hfalse _]; [left | discriminate]. }
      destruct c0 as [[e|]|s]; intros [= <- <-]; exists new;
        (split; [exact Hlog|]); (split; [exact Hnil|]); (split; [discriminate|]);
        intros _; (split; [intros evts [= <-]; reflexivity || discriminate|]).
      all: try (intros _; apply Hdb; discriminate).
      all: try (intros evts; discriminate).
      * intros Hne. contradiction.
    + intros [= <- <-]. cbn [sdb slog]. eexists. split; [reflexivity|].
      split; [reflexivity|]. split; [auto|discriminate].
  - intros [= <- <-]. exists []. rewrite app_nil_r. split; [reflexivity|].
    split; [reflexivity|]. split.
    + intros ->. auto.
    + intros ->. cbn [negb]. split; [intros evts [= ->]; reflexivity|]. intros Hne. contradiction.
Qed.

End StateProofs.

(** The three events of [toy_state] are fetched anew and saved into an
    empty store. *)
Lemma processGetRoomState_saved_witness :
  let SE := ToyStateEnv toy_state None in
  let w := @mkStateWorld SE [] [] in
  let run := @processGetRoomState SE "!r" false true true w in
  exists room rows d1 entries,
    @State_Room_Get SE (sdb w) "!r" = Ok (Some room) /\
    @Event_MassUpsertState SE (sdb w) (@MautrixToEvent SE <$> toy_state) = Ok (rows, d1) /\
    let updated := important_events toy_state room (Room_with_member_list (Room_ID room)) in
    let changed := CheckChangesAndCopyInto updated room in
    slog run.2 = [EStateAsArray "!r"] ++
      [EMassUpsertState (@MautrixToEvent SE <$> toy_state);
       EMediaAddMany (media_of 0 toy_state).*2;
       EMediaAddManyReferences
         ((fun p => mkMediaReference (rows p.1) p.2) <$> media_of 0 toy_state);
       ECurrentStateAddMany (Room_ID room) true entries] ++
      (if changed.1
       then ERoomUpsert updated :: (if true then [EEventHandler "!r" changed.2] else [])
       else []) /\
    length entries = length toy_state /\
    forall j evt, toy_state !! j = Some evt ->
      exists key, StateKey evt = Some key /\
        entries !! j = Some (mkCurrentStateEntry (Type_ evt) key (rows j) (membership_of evt)).
Proof.
  intros SE w run.
  apply (@processGetRoomState_saved SE "!r" false true true w run.2 toy_state
           [EStateAsArray "!r"]).
  - reflexivity.
  - apply pair_fst. vm_compute. reflexivity.
Defined.

(** The same run with a commit that fails: the handler has been called,
    and the store is empty as before. *)
Lemma processGetRoomState_dispatch_witness :
  let SE := ToyStateEnv toy_state (Some (ErrOther "commit failed")) in
  let w := @mkStateWorld SE [] [] in
  let run := @processGetRoomState SE "!r" false true true w in
  exists new,
    slog run.2 = slog w ++ new /\
    (length (dispatched new) <= 1)%nat /\
    forall id meta, (id, meta) ∈ dispatched new ->
      true = true /\ id = "!r" /\
      (exists pre updated, new = pre ++ [ERoomUpsert updated; EEventHandler id meta]) /\
      (run.1 = Returned None \/ exists e, run.1 = Returned (Some e) /\ sdb run.2 = sdb w).
Proof.
  intros SE w run.
  apply (@processGetRoomState_dispatch SE "!r" false true true w run.1 run.2).
  apply surjective_pairing.
Defined.

(** A member event without a membership makes the run panic. *)
Lemma processGetRoomState_failure_witness :
  let SE := ToyStateEnv [mkStateEvent StateMember (Some "@a:example.org") None None None] None in
  let w := @mkStateWorld SE [] [] in
  let run := @processGetRoomState SE "!r" true false false w in
  let c := run.1 in
  (c <> Returned None -> sdb run.2 = sdb w) /\
  (forall s, c = Panicked s ->
     exists evts lg0,
       fetch_state "!r" true false (slog w) = (Ok (Some evts), lg0) /\
       ((exists evt, evt ∈ evts /\
           (StateKey evt = None \/ (Type_ evt = StateMember /\ Raw_membership evt = None))) /\
        slog run.2 = lg0 \/
        @State_Room_Get SE (sdb w) "!r" = Ok None)) /\
  (true = false -> false = false -> c = Returned None /\ run.2 = w).
Proof.
  intros SE w run c.
  apply (@processGetRoomState_failure SE "!r" true false false w c run.2).
  apply surjective_pairing.
Defined.

(** The state with the members, fetched anew into an empty store. *)
Lemma GetRoomState_reads_witness :
  let SE := ToyStateEnv toy_state None in
  let w := @mkStateWorld SE [] [] in
  let run := @GetRoomState SE "!r" true false true w in
  exists new,
    slog run.2 = slog w ++ new /\ dispatched new = [] /\
    (true = false ->
       sdb run.2 = sdb w /\
       run.1 = Returned (@CurrentState_GetAllExceptMembers SE (sdb w) "!r") /\
       new = if false || true then [EBackground "!r" false true true] else []) /\
    (true = true ->
       (forall evts, run.1 = Returned (Ok evts) ->
          @CurrentState_GetAll SE (sdb run.2) "!r" = Ok evts) /\
       (run.1 <> Returned (@CurrentState_GetAll SE (sdb run.2) "!r") -> sdb run.2 = sdb w)).
Proof.
  intros SE w run.
  apply (@GetRoomState_reads SE "!r" true false true w run.1 run.2).
  apply surjective_pairing.
Defined.

(** With a failing commit the handler has been told of the room, the
    caller gets the error, and nothing is stored. *)
Example processGetRoomState_told_then_rolled_back :
  let SE := ToyStateEnv toy_state (Some (ErrOther "commit failed")) in
  let run := @processGetRoomState SE "!r" false true true (@mkStateWorld SE [] []) in
  dispatched (slog run.2) = [("!r", ("!r", true))] /\
  run.1 = Returned (Some (ErrOther "commit failed")) /\
  sdb run.2 = [].
Proof. vm_compute. auto. Qed.

End StateSpec.
